(** * scriptum: the runtime type discipline of [index.js]

    A shallow embedding of the function guard ([$], [handleF], the
    [verify*] checks and the call history), of the sum type guard
    ([$sum]), of the introspection engine ([introspect] and its helpers),
    of the overloading registry ([overload]) and of the homogeneous
    containers ([Arr], [handleArr], [setArr], [_Map], [handleMap], [_Set],
    [handleSet]), followed by the properties proved about them. *)

From Stdlib Require Import String Ascii List ZArith Lia Bool DecimalString.
Import ListNotations.
Open Scope string_scope.
Set Warnings "-register-all".

(** ** JavaScript strings *)

Definition show_nat (n : nat) : string := NilEmpty.string_of_uint (Nat.to_uint n).

Definition show_Z (z : Z) : string := NilZero.string_of_int (Z.to_int z).

(** [Array.prototype.join] on an array of strings. *)
Fixpoint join (sep : string) (l : list string) : string :=
  match l with
  | [] => ""
  | [x] => x
  | x :: l' => x ++ sep ++ join sep l'
  end.

(** [s.lastIndexOf(c)] for a one-character needle; -1 when absent. *)
Fixpoint lastIndexOf_from (c : ascii) (s : string) (i : Z) (found : Z) : Z :=
  match s with
  | EmptyString => found
  | String a s' =>
      lastIndexOf_from c s' (i + 1) (if Ascii.eqb a c then i else found)
  end.

Definition lastIndexOf (c : ascii) (s : string) : Z := lastIndexOf_from c s 0 (-1).

(** [s.slice(b, e)], with negative positions counted from the end. *)
Definition slice (s : string) (b e : Z) : string :=
  let len := Z.of_nat (String.length s) in
  let clamp k := if (k <? 0)%Z then Z.max (len + k) 0 else Z.min k len in
  let from := clamp b in
  let to := clamp e in
  substring (Z.to_nat from) (Z.to_nat (to - from)) s.

(** [s.slice(b)]. *)
Definition slice_from (s : string) (b : Z) : string :=
  slice s b (Z.of_nat (String.length s)).

(** [s.indexOf(p) === 0]. *)
Definition startsWith (p s : string) : bool := prefix p s.

(** [s.split(sep)] for a non-empty separator. *)
Fixpoint split_from (sep : string) (s : string) (cur : string) (skip : nat) : list string :=
  match s with
  | EmptyString => [cur]
  | String a s' =>
      match skip with
      | S k => split_from sep s' cur k
      | O =>
          if prefix sep s
          then cur :: split_from sep s' "" (String.length sep - 1)
          else split_from sep s' (cur ++ String a "") 0
      end
  end.

Definition split (sep s : string) : list string := split_from sep s "" 0.

(** [s.search(/\?|,/) !== -1]. *)
Fixpoint has_question_or_comma (s : string) : bool :=
  match s with
  | EmptyString => false
  | String a s' =>
      Ascii.eqb a "?"%char || Ascii.eqb a ","%char || has_question_or_comma s'
  end.

(** A JavaScript [Set] of strings: insertion ordered, no duplicates. *)
Definition set_add (s : list string) (x : string) : list string :=
  if existsb (String.eqb x) s then s else (s ++ [x])%list.

(** ** Runtime values *)

(** Numbers: [introspect] only looks at the NaN / non-finite / finite
    classification; finite numbers are carried as integers. *)
Inductive number : Type :=
| NaN
| PosInfinity
| NegInfinity
| Finite (z : Z).

(** The checking mode of a guard: [params] is "fix" or "var". *)
Inductive params : Type := Fix | Var.

(** A function written by the user: its [name] and [length] properties,
    its source text ([Function.prototype.toString]), the code it runs and
    the [LOG] property the guard may define on it. *)
Record rawfn : Type := mkRaw {
  fname : string;
  flength : nat;
  fsource : string;
  fcode : nat;
  flog : option (list string)
}.

(** Callable values: a raw function, or [new Proxy(f, handleF(name, f,
    log, {params, nthCall}))]. *)
Inductive func : Type :=
| Raw (r : rawfn)
| Guarded (name : string) (log : list string) (p : params) (nthCall : nat) (target : func).

(** Values.  A symbol carries its identity; an ordinary object carries the
    tag [Object.prototype.toString] reports for it, its [SIG] property when
    it has one, the class name of a [Symbol.toPrimitive] that forbids
    coercion when it has one, and its own enumerable properties, in the
    order of [Object.keys] and under distinct names.
    ([Rec] instances are objects tagged "Record"; the boxed types [All],
    [Any], [Char], [Float], [Int], [Product], [Sum] are objects with their
    tag and a forbidden coercion.)  An ordinary object converts to a
    primitive through [Object.prototype.toString] unless the coercion is
    forbidden.  Outside this model: BigInt values, cyclic structures,
    sparse arrays, accessor properties, the [SIG] property on anything but
    an ordinary object, and the built-in objects with a conversion of their
    own (wrappers made with [new Number] and the like, dates, regular
    expressions, errors). *)
Inductive value : Type :=
| VUndefined
| VNull
| VBoolean (b : bool)
| VNumber (n : number)
| VString (s : string)
| VSymbol (id : nat) (description : string)
| VFunction (f : func)
| VArray (xs : list value)
| VTuple (xs : list value)
| VMap (kvs : list (value * value))
| VSet (ks : list value)
| VObject (tag : string) (sig : option string) (nocoerce : option string)
    (props : list (string * value)).

(** [Rec(o)] for a plain object with the given properties. *)
Definition Rec (props : list (string * value)) : value :=
  VObject "Record" None (Some "Rec") props.

(** [Sum(n)], one of the boxed number types. *)
Definition Sum (n : number) : value := VObject "Sum" None (Some "Sum") [].

(** A plain object literal. *)
Definition Obj (props : list (string * value)) : value :=
  VObject "Object" None None props.

Inductive jstype : Type :=
| TUndefined | TObject | TBoolean | TNumber | TString | TSymbol | TFunction.

Definition typeof (x : value) : jstype :=
  match x with
  | VUndefined => TUndefined
  | VBoolean _ => TBoolean
  | VNumber _ => TNumber
  | VString _ => TString
  | VSymbol _ _ => TSymbol
  | VFunction _ => TFunction
  | _ => TObject
  end.

(** [Object.prototype.toString.call(x)]. *)
Definition objectToString (x : value) : string :=
  "[object " ++
  match x with
  | VUndefined => "Undefined"
  | VNull => "Null"
  | VBoolean _ => "Boolean"
  | VNumber _ => "Number"
  | VString _ => "String"
  | VSymbol _ _ => "Symbol"
  | VFunction _ => "Function"
  | VArray _ => "Array"
  | VTuple _ => "Tuple"
  | VMap _ => "Map"
  | VSet _ => "Set"
  | VObject tag _ _ _ => tag
  end ++ "]".

(** [toTypeTag]: the text after the last blank, without the bracket. *)
Definition toTypeTag (x : value) : string :=
  let tag := objectToString x in
  slice tag (lastIndexOf " "%char tag + 1) (-1).

(** The [name] property read through a function value: a guard proxy
    answers with the name of its handler. *)
Definition func_name (f : func) : string :=
  match f with
  | Raw r => fname r
  | Guarded name _ _ _ _ => name
  end.

(** The [length] property: the proxy has no own answer and forwards to its
    target. *)
Fixpoint func_length (f : func) : nat :=
  match f with
  | Raw r => flength r
  | Guarded _ _ _ _ target => func_length target
  end.

(** ** Errors, state and the monad of effects *)

Inductive error_kind : Type :=
| ArgTypeError
| ArgValueError
| ArityError
| ReturnTypeError
| TypeCoercionError
| OverloadError
| TypeError.

Record error : Type := mkError { kind : error_kind; message : string }.

Inductive result (A : Type) : Type :=
| Ok (a : A)
| Throw (e : error).

Arguments Ok {A} a.
Arguments Throw {A} e.

(** The mutable state: the global [history] and the private [Map]s that
    calls to [overload] have allocated, by order of allocation. *)
Record state : Type := mkState {
  history : list (list string);
  maps : list (list (value * value))
}.

Definition M (A : Type) : Type := state -> result A * state.

Definition ret {A} (a : A) : M A := fun st => (Ok a, st).

Definition throw {A} (k : error_kind) (msg : string) : M A :=
  fun st => (Throw (mkError k msg), st).

Definition bind {A B} (c : M A) (k : A -> M B) : M B :=
  fun st =>
    match c st with
    | (Ok a, st') => k a st'
    | (Throw e, st') => (Throw e, st')
    end.

Declare Scope js_scope.
Delimit Scope js_scope with js.
Notation "x <- c ;; k" := (bind c (fun x => k))
  (at level 61, c at next level, right associativity) : js_scope.
Notation "c ;; k" := (bind c (fun _ => k))
  (at level 61, right associativity) : js_scope.
Notation "' pat <- c ;; k" := (bind c (fun x => match x with pat => k end))
  (at level 61, pat pattern, c at next level, right associativity) : js_scope.
Open Scope js_scope.

(** [xs.map(f)] and [xs.reduce(f, init)] with an effectful callback. *)
Definition mapM {A B} (f : A -> M B) : list A -> M (list B) :=
  fix go l :=
    match l with
    | [] => ret []
    | x :: l' => y <- f x ;; ys <- go l' ;; ret (y :: ys)
    end.

Definition reduceM {A B} (f : B -> A -> M B) : list A -> B -> M B :=
  fix go l acc :=
    match l with
    | [] => ret acc
    | x :: l' => acc' <- f acc x ;; go l' acc'
    end.

(** ** Globals *)

Definition INVALID_TYPES : list string := ["Undefined"; "NaN"; "Infinity"].

Definition invalid_type (t : string) : bool := existsb (String.eqb t) INVALID_TYPES.

Definition GUARDED : bool := true.

Definition HISTORY_LEN : nat := 10.

Definition MAX_REC_SIZE : Z := 16.

Definition MAX_TUP_SIZE : Z := 8.

(** [setHistory]: unshift, then pop when longer than [HISTORY_LEN]. *)
Definition setHistory (s : list string) : M unit :=
  fun st =>
    let h := s :: history st in
    let h' := if (HISTORY_LEN <? length h)%nat then removelast h else h in
    (Ok tt, mkState h' (maps st)).

(** ** Pretty printing helpers used while errors are composed *)

Definition nl : string := String (ascii_of_nat 10) "".

Definition at_index (l : list string) (i : Z) : option string :=
  if (i <? 0)%Z then None else nth_error l (Z.to_nat i).

(** The body of [ordinal]: [n + (s[(v - 20) % 10] || s[v] || s[0])] with
    [v = n % 100]; [%] is the truncating remainder.  [n] stands for a safe
    integer (at most 2^53 in absolute value), which a JavaScript number
    prints with all its digits; larger numbers, which are rounded and from
    10^21 on printed with an exponent, are outside this model.  The callers
    pass a call count, a position in an argument list or an array
    index. *)
Definition ordinal_text (n : Z) : string :=
  let s := ["th"; "st"; "nd"; "rd"] in
  let v := Z.rem n 100 in
  show_Z n ++
  match at_index s (Z.rem (v - 20) 10) with
  | Some x => x
  | None =>
      match at_index s v with
      | Some x => x
      | None => "th"
      end
  end.

(** [ordinal] is itself [$]-guarded.  It is only ever called with one
    finite number (or the canonical text of one), so its guard passes every
    check, and the call leaves its record in the history
    (lemma [ordinal_is_guarded] relates it to [handleF]). *)
Definition ordinal (n : Z) : M string :=
  setHistory ["ordinal()"] ;; ret (ordinal_text n).

Definition toUpperCase (a : ascii) : ascii :=
  let n := nat_of_ascii a in
  if ((97 <=? n) && (n <=? 122))%nat then ascii_of_nat (n - 32) else a.

(** The body of [capitalize]: [s[0].toUpperCase() + s.slice(1)]. *)
Definition capitalize_text (s : string) : option string :=
  match s with
  | EmptyString => None
  | String a s' => Some (String (toUpperCase a) s')
  end.

(** [capitalize] is [$]-guarded as well (lemma [capitalize_is_guarded]). *)
Definition capitalize (s : string) : M string :=
  match capitalize_text s with
  | None => throw TypeError "Cannot read property 'toUpperCase' of undefined"
  | Some r => setHistory ["capitalize()"] ;; ret r
  end.

(** ** Coercions *)

Definition show_number (n : number) : string :=
  match n with
  | NaN => "NaN"
  | PosInfinity => "Infinity"
  | NegInfinity => "-Infinity"
  | Finite z => show_Z z
  end.

(** The [Symbol.toPrimitive] method of [Tup], [Rec], the boxed types and
    the container proxies. *)
Definition forbidden_coercion {A} (cls hint : string) : M A :=
  c <- capitalize hint ;;
  throw TypeCoercionError
    ("illegal type coercion" ++ nl ++ nl ++ cls ++ " must maintain its type"
     ++ nl ++ nl ++ "but type coercion to " ++ c ++ " received" ++ nl).

(** Implicit conversion to a string (template literals, [join]); [hint]
    is what [Symbol.toPrimitive] receives.  Objects are taken not to
    override [toString] or [valueOf]. *)
Fixpoint toStringHint (hint : string) (v : value) {struct v} : M string :=
  match v with
  | VUndefined => ret "undefined"
  | VNull => ret "null"
  | VBoolean b => ret (if b then "true" else "false")
  | VNumber n => ret (show_number n)
  | VString s => ret s
  | VSymbol _ _ => throw TypeError "Cannot convert a Symbol value to a string"
  | VFunction (Raw r) => ret (fsource r)
  | VFunction (Guarded _ _ _ _ _) => ret "function () { [native code] }"
  | VArray xs =>
      parts <- mapM (fun x =>
                 match x with
                 | VUndefined | VNull => ret ""
                 | _ => toStringHint "string" x
                 end) xs ;;
      ret (join "," parts)
  | VTuple _ => forbidden_coercion "Tup" hint
  | VMap _ => ret "[object Map]"
  | VSet _ => ret "[object Set]"
  | VObject tag _ None _ => ret ("[object " ++ tag ++ "]")
  | VObject _ _ (Some cls) _ => forbidden_coercion cls hint
  end.

(** A template literal placeholder. *)
Definition toString (v : value) : M string := toStringHint "string" v.

(** [o[k]] on own properties. *)
Fixpoint get_prop (props : list (string * value)) (k : string) : value :=
  match props with
  | [] => VUndefined
  | (k', v) :: rest => if String.eqb k' k then v else get_prop rest k
  end.

(** [f(o[k])]; [missing] is what [f] answers for [undefined], the value of
    a property the object does not have. *)
Definition with_prop {B} (f : value -> M B) (missing : M B) :
    list (string * value) -> string -> M B :=
  fix go props k :=
    match props with
    | [] => missing
    | (k', v) :: rest => if String.eqb k' k then f v else go rest k
    end.

Definition num_gt (a : number) (b : Z) : bool :=
  match a with
  | NaN => false
  | PosInfinity => true
  | NegInfinity => false
  | Finite z => (b <? z)%Z
  end.

(** [ToLength]. *)
Definition toLength (a : number) : nat :=
  match a with
  | Finite z => Z.to_nat z
  | PosInfinity => Z.to_nat (2 ^ 53 - 1)
  | _ => 0%nat
  end.

Section Scriptum.

(** What the engine does not define here: the numeric value of a string
    ([StringToNumber]) and the behaviour of the code of a user function,
    which may read and change the state and may throw. *)
Variable StringToNumber : string -> number.
Variable run : nat -> list value -> M value.

(** [ToNumber], as the relational operators apply it to an operand. *)
Definition toNumber (v : value) : M number :=
  match v with
  | VUndefined => ret NaN
  | VNull => ret (Finite 0)
  | VBoolean b => ret (Finite (if b then 1 else 0))
  | VNumber n => ret n
  | VString s => ret (StringToNumber s)
  | VSymbol _ _ => throw TypeError "Cannot convert a Symbol value to a number"
  | _ => s <- toStringHint "number" v ;; ret (StringToNumber s)
  end.

(** ** Introspection *)

(** [introspectArr]; the reducer collects the set of element descriptors
    and, up to [MAX_TUP_SIZE] elements, their sequence. *)
Definition introspectArrWith (introspect : value -> M string) (xs : list value) : M string :=
  if (Z.of_nat (length xs) <=? MAX_TUP_SIZE)%Z then
    '(s, ts) <- reduceM (fun '(s, ts) x =>
                  x' <- introspect x ;;
                  ret (set_add s x', (ts ++ [x'])%list)) xs ([], []) ;;
    if (length s =? 1)%nat then ret ("[" ++ nth 0 s "undefined" ++ "]")
    else ret ("[" ++ join ", " ts ++ "]")
  else
    s <- reduceM (fun s x =>
           x' <- introspect x ;;
           ret (set_add s x')) xs [] ;;
    if (length s =? 1)%nat then ret ("[" ++ nth 0 s "undefined" ++ "]")
    else ret "[?]".

(** [introspectMap]. *)
Definition introspectMapWith (introspect : value -> M string) (m : list (value * value)) : M string :=
  s <- reduceM (fun s '(k, v) =>
         tk <- introspect k ;;
         tv <- introspect v ;;
         ret (set_add s (tk ++ ", " ++ tv))) m [] ;;
  if (length s =? 1)%nat then ret ("Map<" ++ nth 0 s "undefined" ++ ">")
  else ret "Map<?>".

(** [introspectObj]: [Object.keys(o)] is the list of own properties (their
    names are distinct, so [o[k]] is the value listed with [k]). *)
Definition introspectObjWith (introspect : value -> M string)
    (o : list (string * value)) (tag : string) : M string :=
  if String.eqb tag "Object" then
    if (Z.of_nat (length o) <=? MAX_REC_SIZE)%Z then
      '(s, ts) <- reduceM (fun '(s, ts) '(k, x) =>
                    v <- introspect x ;;
                    ret (set_add s (k ++ ": " ++ v), (ts ++ [(k ++ ": " ++ v)%string])%list))
                  o ([], []) ;;
      if (length s =? 1)%nat
      then ret ("{String: " ++ nth 1 (split ": " (nth 0 s "undefined")) "undefined" ++ "}")
      else ret ("{" ++ join ", " ts ++ "}")
    else
      s <- reduceM (fun s '(k, x) =>
             v <- introspect x ;;
             ret (set_add s (k ++ ": " ++ v))) o [] ;;
      if (length s =? 1)%nat
      then ret ("{String: " ++ nth 1 (split ": " (nth 0 s "undefined")) "undefined" ++ "}")
      else ret "{?}"
  else ret tag.

(** [introspectRec]: every field is first turned into the text
    [`${k}: ${r[k]}`], and the descriptor of that text is taken. *)
Definition introspectRecWith (introspect_text : string -> M string)
    (r : list (string * value)) : M string :=
  len <- toNumber (get_prop r "length") ;;
  if num_gt len MAX_REC_SIZE then ret "Record<?>"
  else
    r_ <- mapM (fun '(k, x) =>
            s <- toString x ;;
            introspect_text (k ++ ": " ++ s)) r ;;
    ret ("Record<" ++ join ", " r_ ++ ">").

(** [introspectSet]. *)
Definition introspectSetWith (introspect : value -> M string) (s : list value) : M string :=
  s_ <- reduceM (fun s_ k =>
          t <- introspect k ;;
          ret (set_add s_ t)) s [] ;;
  if (length s_ =? 1)%nat then ret ("Set<" ++ nth 0 s_ "undefined" ++ ">")
  else ret "Set<?>".

(** [introspectTup] on a [Tup]. *)
Definition introspectTupWith (introspect : value -> M string) (xs : list value) : M string :=
  if (MAX_TUP_SIZE <? Z.of_nat (length xs))%Z then ret "Tuple<?>"
  else
    ts <- mapM introspect xs ;;
    ret ("Tuple<" ++ join ", " ts ++ ">").

(** [introspectTup] on an ordinary object that only carries the tag
    "Tuple": [Array.from] reads it as an array-like, a missing index being
    [undefined]. *)
Definition introspectTupLikeWith (introspect : value -> M string)
    (introspect_undefined : M string) (o : list (string * value)) : M string :=
  len <- toNumber (get_prop o "length") ;;
  if num_gt len MAX_TUP_SIZE then ret "Tuple<?>"
  else
    len' <- toNumber (get_prop o "length") ;;
    ts <- mapM (fun i => with_prop introspect introspect_undefined o (show_nat i)) (seq 0 (toLength len')) ;;
    ret ("Tuple<" ++ join ", " ts ++ ">").

(** An ordinary object that carries the tag of an array, a map or a set
    has none of their methods: it is taken not to define a [reduce] or a
    [forEach] of its own (a user function that would receive the callback
    of [introspect] is outside this model, see [run]). *)
Definition not_a_function {A} (method : string) : M A :=
  throw TypeError (method ++ " is not a function").

(** [introspect]: the switch on [typeof x], and for objects on the tag. *)
Fixpoint introspect (x : value) {struct x} : M string :=
  match x with
  | VBoolean _ => ret "Boolean"
  | VFunction f => ret ("λ" ++ func_name f)
  | VNumber NaN => ret "NaN"
  | VNumber PosInfinity | VNumber NegInfinity => ret "Infinity"
  | VNumber (Finite _) => ret "Number"
  | VString _ => ret "String"
  | VSymbol _ _ => ret "Symbol"
  | VUndefined => ret "Undefined"
  | VNull => ret "Null"
  | VArray xs => introspectArrWith introspect xs
  | VMap m => introspectMapWith introspect m
  | VSet s => introspectSetWith introspect s
  | VTuple xs => introspectTupWith introspect xs
  | VObject _ sig _ o =>
      let tag := toTypeTag x in
      match (if String.eqb tag "Null" then None else sig) with
      | Some t => ret t
      | None =>
          if String.eqb tag "Array" then
            len <- toNumber (get_prop o "length") ;;
            not_a_function "xs.reduce"
          else if String.eqb tag "Map" then not_a_function "m.forEach"
          else if String.eqb tag "Null" then ret tag
          else if String.eqb tag "Record" then
            introspectRecWith (fun _ => ret "String") o
          else if String.eqb tag "Set" then not_a_function "s.forEach"
          else if String.eqb tag "Tuple" then
            introspectTupLikeWith introspect (ret "Undefined") o
          else introspectObjWith introspect o tag
      end
  end.

Definition introspectArr : list value -> M string := introspectArrWith introspect.

Definition introspectMap : list (value * value) -> M string := introspectMapWith introspect.

Definition introspectObj : list (string * value) -> string -> M string :=
  introspectObjWith introspect.

Definition introspectRec : list (string * value) -> M string :=
  introspectRecWith (fun s => introspect (VString s)).

Definition introspectSet : list value -> M string := introspectSetWith introspect.

Definition introspectTup : list value -> M string := introspectTupWith introspect.

(** ** The function guard *)

Definition params_text (p : params) : string :=
  match p with
  | Fix => "fix"
  | Var => "var"
  end.

(** The tail [log.length === 0 ? "" : `\n\nCALL LOG:\n\n[${log.join(", ")}]`]
    of an arity message. *)
Definition call_log_joined (log : list string) : string :=
  match log with
  | [] => ""
  | _ => nl ++ nl ++ "CALL LOG:" ++ nl ++ nl ++ "[" ++ join ", " log ++ "]"
  end.

(** The tail [log.length === 0 ? "" : `\n\nCALL LOG:\n\n${log}`] of a type
    message; the array is coerced with [join(",")]. *)
Definition call_log_coerced (log : list string) : string :=
  match log with
  | [] => ""
  | _ => nl ++ nl ++ "CALL LOG:" ++ nl ++ nl ++ join "," log
  end.

(** [verifyArity]; [g] is read only through [g.length]. *)
Definition verifyArity (g_length : nat) (args : list value) (name : string)
    (p : params) (nthCall : nat) (log : list string) : M unit :=
  if String.eqb (params_text p) "fix" && negb (g_length =? length args)%nat then
    o <- ordinal (Z.of_nat nthCall + 1) ;;
    throw ArityError
      ("invalid function call arity"
       ++ nl ++ nl ++ name ++ " expects " ++ show_nat g_length ++ "-ary Function"
       ++ nl ++ nl ++ "on the " ++ o ++ " call"
       ++ nl ++ nl ++ "but " ++ show_nat (length args) ++ "-ary Function received"
       ++ call_log_joined log ++ nl)
  else if String.eqb (params_text p) "var" && (length args <? g_length)%nat then
    o <- ordinal (Z.of_nat nthCall + 1) ;;
    throw ArityError
      ("invalid function call arity"
       ++ nl ++ nl ++ name ++ " expects at least " ++ show_nat g_length ++ "-ary Function"
       ++ nl ++ nl ++ "on the " ++ o ++ " call"
       ++ nl ++ nl ++ "but " ++ show_nat (length args) ++ "-ary Function received"
       ++ call_log_joined log ++ nl)
  else ret tt.

(** [xs.map((x, i) => ...)] with an effectful callback. *)
Definition mapiM {A B} (f : A -> nat -> M B) : list A -> nat -> M (list B) :=
  fix go l i :=
    match l with
    | [] => ret []
    | x :: l' => y <- f x i ;; ys <- go l' (S i) ;; ret (y :: ys)
    end.

(** The callback [(arg, nthArg) => ...] that [verifyArgTypes] maps over the
    arguments; it returns nothing. *)
Definition check_argument (name : string) (nthCall : nat) (log : list string)
    (arg : value) (nthArg : nat) : M unit :=
  t <- introspect arg ;;
  if invalid_type t then
    oc <- ordinal (Z.of_nat nthCall + 1) ;;
    oa <- ordinal (Z.of_nat nthArg + 1) ;;
    throw ArgTypeError
      ("invalid argument type"
       ++ nl ++ nl ++ name ++ " received an argument of type " ++ t
       ++ nl ++ nl ++ "on the " ++ oc ++ " call"
       ++ nl ++ "in the " ++ oa ++ " argument"
       ++ call_log_coerced log ++ nl)
  else ret tt.

(** [verifyArgTypes].  The mapped array holds [undefined] at every
    position and [join] prints each of them as the empty text. *)
Definition verifyArgTypes (args : list value) (name : string) (nthCall : nat)
    (log : list string) : M string :=
  us <- mapiM (check_argument name nthCall log) args 0%nat ;;
  ret (join ", " (map (fun _ : unit => "") us)).

(** [verifyRetType]. *)
Definition verifyRetType (r : value) (name : string) (log : list string) : M string :=
  t <- introspect r ;;
  if invalid_type t then
    throw ReturnTypeError
      ("invalid return type"
       ++ nl ++ nl ++ name ++ " returned a value of type " ++ t
       ++ call_log_coerced log ++ nl)
  else ret t.

(** [Reflect.defineProperty(r, "name", {value: name_})] followed by
    [Reflect.defineProperty(r, LOG, {value: log_})]: a guard proxy has no
    trap for it and passes the definition on to its target.  The [name]
    of a function is configurable and takes the new value; [LOG] is
    created read-only and not configurable, so a function that has one
    keeps it (the second definition fails, and the failure is ignored). *)
Fixpoint defineNameLog (r : func) (name_ : string) (log_ : list string) : func :=
  match r with
  | Raw f =>
      Raw (mkRaw name_ (flength f) (fsource f) (fcode f)
             (match flog f with
              | Some l => Some l
              | None => Some log_
              end))
  | Guarded n l p c target => Guarded n l p c (defineNameLog target name_ log_)
  end.

(** [log.concat(`${name}(${argTypes})`)]. *)
Definition concat_record (log : list string) (name argTypes : string) : list string :=
  (log ++ [(name ++ "(" ++ argTypes ++ ")")%string])%list.

(** The [apply] trap of [handleF(name, f, log, {params, nthCall})]: [f] is
    the behaviour of the guarded function and [g_length] the [length] of
    the proxy target (the same function). *)
Definition handleF_apply (f : list value -> M value) (g_length : nat) (name : string)
    (log : list string) (p : params) (nthCall : nat) (args : list value) : M value :=
  verifyArity g_length args name p nthCall log ;;
  argTypes <- verifyArgTypes args name nthCall log ;;
  r <- f args ;;
  verifyRetType r name log ;;
  match r with
  | VFunction rf =>
      let name_ := if String.eqb (func_name rf) "" then name else func_name rf in
      let log_ := concat_record log name argTypes in
      ret (VFunction (Guarded name_ log_ p (nthCall + 1) (defineNameLog rf name_ log_)))
  | _ =>
      setHistory (concat_record log name argTypes) ;;
      ret r
  end.

(** Calling a function value: user code runs, a guard proxy goes through
    its [apply] trap. *)
Fixpoint Call (f : func) (args : list value) {struct f} : M value :=
  match f with
  | Raw r => run (fcode r) args
  | Guarded name log p nthCall target =>
      handleF_apply (Call target) (func_length target) name log p nthCall args
  end.

(** [$], the function guard. *)
Definition dollar (name f : value) : M value :=
  if GUARDED then
    match name, f with
    | VString n, VFunction fn =>
        if startsWith "..." n
        then ret (VFunction (Guarded (slice_from n 3) [] Var 0 fn))
        else ret (VFunction (Guarded n [] Fix 0 fn))
    | VString _, _ =>
        t <- introspect f ;;
        throw ArgTypeError
          ("invalid argument type"
           ++ nl ++ nl ++ "$ expects an argument of type Function"
           ++ nl ++ nl ++ "on the 1st call"
           ++ nl ++ nl ++ "in the 2nd argument"
           ++ nl ++ nl ++ "but " ++ t ++ " received" ++ nl)
    | _, _ =>
        t <- introspect name ;;
        throw ArgTypeError
          ("invalid argument type"
           ++ nl ++ nl ++ "$ expects an argument of type String"
           ++ nl ++ nl ++ "on the 1st call"
           ++ nl ++ nl ++ "in the 1st argument"
           ++ nl ++ nl ++ "but " ++ t ++ " received" ++ nl)
    end
  else ret f.

(** A library function declared as [$(name, body)], applied to [args]. *)
Definition guarded (name : string) (g_length : nat) (body : list value -> M value)
    (args : list value) : M value :=
  if startsWith "..." name
  then handleF_apply body g_length (slice_from name 3) [] Var 0 args
  else handleF_apply body g_length name [] Fix 0 args.




(** ** Overloading *)

(** The key comparison of [Map] and [Set] (SameValueZero).  It is exact
    whenever one of the two values is a primitive.  Two objects or
    functions are compared by reference, which the values of this model
    do not carry: they are taken to be different objects, so the maps and
    sets of this model stand for those of the code as long as no object is
    looked up, or put in, a second time.  The statements about such
    lookups are made for primitive keys. *)
Definition sameValueZero (a b : value) : bool :=
  match a, b with
  | VUndefined, VUndefined => true
  | VNull, VNull => true
  | VBoolean x, VBoolean y => Bool.eqb x y
  | VNumber NaN, VNumber NaN => true
  | VNumber PosInfinity, VNumber PosInfinity => true
  | VNumber NegInfinity, VNumber NegInfinity => true
  | VNumber (Finite x), VNumber (Finite y) => (x =? y)%Z
  | VString x, VString y => String.eqb x y
  | VSymbol x _, VSymbol y _ => (x =? y)%nat
  | _, _ => false
  end.

(** [m.get(k)]. *)
Fixpoint map_get (m : list (value * value)) (k : value) : value :=
  match m with
  | [] => VUndefined
  | (k', v') :: m' => if sameValueZero k' k then v' else map_get m' k
  end.

(** [m.set(k, v)]: a present key keeps its place and takes the new value. *)
Fixpoint map_set (m : list (value * value)) (k v : value) : list (value * value) :=
  match m with
  | [] => [(k, v)]
  | (k', v') :: m' =>
      if sameValueZero k' k then (k', v) :: m' else (k', v') :: map_set m' k v
  end.

Fixpoint list_update {A} (l : list A) (i : nat) (x : A) : list A :=
  match l, i with
  | [], _ => []
  | _ :: l', O => x :: l'
  | y :: l', S j => y :: list_update l' j x
  end.

(** What [overload(name, dispatch)] closes over: the name, the dispatcher
    and the private [pairs], a [Map] of its own. *)
Record overloaded : Type := mkOverloaded {
  ov_name : string;
  ov_dispatch : func;
  ov_pairs : nat
}.

Definition pairs_of (o : overloaded) : M (list (value * value)) :=
  fun st => (Ok (nth (ov_pairs o) (maps st) []), st).

(** [pairs.set(k, v)], which answers with the map. *)
Definition pairs_set (o : overloaded) (k v : value) : M value :=
  fun st =>
    let m := map_set (nth (ov_pairs o) (maps st) []) k v in
    (Ok (VMap m), mkState (history st) (list_update (maps st) (ov_pairs o) m)).

(** [pairs.get(k)]. *)
Definition pairs_get (o : overloaded) (k : value) : M value :=
  m <- pairs_of o ;; ret (map_get m k).


(** The function under [`${name}Add`]: [(k, v) => pairs.set(k, v)]. *)
Definition overloadAdd_body (o : overloaded) (args : list value) : M value :=
  pairs_set o (nth 0 args VUndefined) (nth 1 args VUndefined).

(** The member [`${name}Add`] of the object [overload] returns. *)
Definition overloadAdd (o : overloaded) (args : list value) : M value :=
  guarded (ov_name o ++ "Add") 2 (overloadAdd_body o) args.



(** [dispatcher], the default dispatcher. *)
Definition dispatcher (x : value) : value :=
  match x with
  | VFunction f => VString (func_name f)
  | _ => VString (toTypeTag x)
  end.

(** ** Homogeneous arrays *)

Definition flush (pending : option string) : string :=
  match pending with
  | Some p => p
  | None => ""
  end.

(** [s.replace(/o[^oc]*c/g, "_")] for an opening and a closing bracket:
    [pending] is the text read since the last opening bracket that may
    still be closed. *)
Fixpoint replace_group (o c : ascii) (s : string) (pending : option string) : string :=
  match s with
  | EmptyString => flush pending
  | String a s' =>
      if Ascii.eqb a o then flush pending ++ replace_group o c s' (Some (String a ""))
      else if Ascii.eqb a c then
        match pending with
        | Some _ => "_" ++ replace_group o c s' None
        | None => String a (replace_group o c s' None)
        end
      else
        match pending with
        | Some p => replace_group o c s' (Some (p ++ String a ""))
        | None => String a (replace_group o c s' None)
        end
  end.

(** One round of [aux]: brackets, then braces, then angles. *)
Definition aux_step (s : string) : string :=
  replace_group "<" ">"
    (replace_group "{" "}"
       (replace_group "[" "]" s None) None) None.

(** [aux] repeats the round until nothing changes; every round that
    changes the text shortens it, so [fuel] rounds are enough for a text of
    length [fuel]. *)
Fixpoint aux_fuel (fuel : nat) (s_ : string) : string :=
  match fuel with
  | O => s_
  | S fuel' =>
      let t := aux_step s_ in
      if String.eqb t s_ then t else aux_fuel fuel' t
  end.

Definition aux (s_ : string) : string := aux_fuel (String.length s_) s_.

Definition is_opening (a : ascii) : bool :=
  Ascii.eqb a "[" || Ascii.eqb a "{" || Ascii.eqb a "<".

Definition is_closing (a : ascii) : bool :=
  Ascii.eqb a "]" || Ascii.eqb a "}" || Ascii.eqb a ">".

Fixpoint last_char (s : string) : option ascii :=
  match s with
  | EmptyString => None
  | String a EmptyString => Some a
  | String _ s' => last_char s'
  end.

(** [s.match(/^[\[{<]|[\]}>]$/g)]: [None] is the [null] of no match. *)
Definition match_brackets (s : string) : option (list string) :=
  let first :=
    match s with
    | String a _ => if is_opening a then [String a ""] else []
    | EmptyString => []
    end in
  let last :=
    match last_char s with
    | Some a => if is_closing a then [String a ""] else []
    | None => []
    end in
  match (first ++ last)%list with
  | [] => None
  | xs => Some xs
  end.

(** The function under [replaceNestings]. *)
Definition replaceNestings_body (args : list value) : M value :=
  match nth 0 args VUndefined with
  | VString s =>
      match match_brackets s with
      | None => throw TypeError "Cannot read property 'length' of null"
      | Some xs =>
          if (length xs =? 0)%nat then ret (VString (aux s))
          else ret (VString (nth 0 xs "undefined" ++ aux (slice s 1 (-1))
                             ++ nth 1 xs "undefined"))
      end
  | _ => throw TypeError "s.match is not a function"
  end.

(** [replaceNestings], declared with [$]. *)
Definition replaceNestings (s : value) : M value :=
  guarded "replaceNestings" 1 replaceNestings_body [s].

(** An array proxy stands over an [Array] whose elements are ordinary
    properties (writable and configurable, on an extensible array): what
    an array literal and assignments build, and what [VArray] denotes.
    Outside this model: frozen arrays and elements made read-only with
    [Reflect.defineProperty] (hence the [defineProperty] trap of the
    proxy, which creates such elements, and its [deleteProperty] trap,
    which leaves a hole), and keys other than array indices (names,
    "length", negative or fractional numbers). *)
Record ArrProxy : Type := mkProxy {
  target : list value;
  fixed : string
}.

(** What [Arr] answers with: a proxy over an [Array]; a proxy over a
    frozen [Tup] (the traps are modelled over an [Array] only); the
    argument when guards are off. *)
Inductive arr_result : Type :=
| Proxied (p : ArrProxy)
| ProxiedTuple (xs : list value) (t : string)
| Unguarded (xs : value).

(** [Array.isArray(xs)]: for an array, what [new Proxy(xs, handleArr(t))]
    is in this model. *)
Definition isArray (xs : value) : option (string -> arr_result) :=
  match xs with
  | VArray es => Some (fun t => Proxied (mkProxy es t))
  | VTuple es => Some (fun t => ProxiedTuple es t)
  | _ => None
  end.

(** [Arr], the homogeneous array constructor. *)
Definition Arr (xs : value) : M arr_result :=
  if GUARDED then
    match isArray xs with
    | None =>
        t <- introspect xs ;;
        throw ArgTypeError
          ("invalid argument type"
           ++ nl ++ nl ++ "Arr expects an argument of type Array"
           ++ nl ++ nl ++ "on the 1st call"
           ++ nl ++ nl ++ "in the 1st argument"
           ++ nl ++ nl ++ "but " ++ t ++ " received" ++ nl)
    | Some proxy =>
        t <- introspect xs ;;
        r <- replaceNestings (VString t) ;;
        r' <- toString r ;;
        if has_question_or_comma r' then
          t' <- introspect xs ;;
          throw ArgTypeError
            ("invalid argument type"
             ++ nl ++ nl ++ "Arr expects an homogeneous Array"
             ++ nl ++ nl ++ "on the 1st call"
             ++ nl ++ nl ++ "in the 1st argument"
             ++ nl ++ nl ++ "but " ++ t' ++ " received" ++ nl)
        else ret (proxy t)
    end
  else ret (Unguarded xs).

(** [xs[i] = v] on the elements: inside the array the element is
    replaced, at its end it is appended, and further out the gap is left
    empty (shown as [undefined]; [setArr] never assigns there). *)
Definition array_store (es : list value) (i : nat) (v : value) : list value :=
  if (i <? length es)%nat then list_update es i v
  else (es ++ repeat VUndefined (i - length es) ++ [v])%list.

(** [setArr(xs, i, {value: v}, t, {mode: "set"})], as the [set] trap calls
    it, for an array index [i]: the checks, then [xs[i] = d.value]. *)
Definition setArr (xs : list value) (i : nat) (d_value : value) (t : string) :
    M (list value) :=
  (if (length xs <? i)%nat then
     o <- ordinal (Z.of_nat i) ;;
     throw TypeError
       ("illegal operation"
        ++ nl ++ nl ++ "Arr must maintain a coherent index"
        ++ nl ++ nl ++ "but add operationwould lead to an index gap"
        ++ nl ++ nl ++ "at the " ++ o ++ " position" ++ nl)
   else
     tv <- introspect d_value ;;
     if negb (String.eqb ("[" ++ tv ++ "]") t) then
       txs <- introspect (VArray xs) ;;
       tv' <- introspect d_value ;;
       throw TypeError
         ("illegal operation"
          ++ nl ++ nl ++ "Arr of type " ++ txs ++ " must remain homogeneous"
          ++ nl ++ nl ++ "but set operation would lead to a heterogeneous Arr"
          ++ nl ++ nl ++ "with element of type " ++ tv' ++ nl)
     else ret tt) ;;
  ret (array_store xs i d_value).

(** The [set] trap of [handleArr(t)], reached by [p[i] = v] for an array
    index [i]; the trap answers with the array, so the assignment is
    accepted. *)
Definition handleArr_set (p : ArrProxy) (i : nat) (v : value) : M ArrProxy :=
  xs <- setArr (target p) i v (fixed p) ;;
  ret (mkProxy xs (fixed p)).

(** The [get] trap of [handleArr(t)] on an array index. *)
Definition handleArr_get (p : ArrProxy) (i : nat) : value :=
  nth i (target p) VUndefined.

(** ** The sum type guard *)

(** [s.delete(tag)] on a [Set] of strings. *)
Definition set_delete (s : list string) (x : string) : list string :=
  filter (fun y => negb (String.eqb y x)) s.

(** [Object.keys(cases)]; only ordinary objects have the type tag
    "Object". *)
Definition object_keys (x : value) : list string :=
  match x with
  | VObject _ _ _ props => map fst props
  | _ => []
  end.

Definition sum_missing_message (name : string) (tags : list string) (tag : string) : string :=
  "invalid argument value"
  ++ nl ++ nl ++ name ++ " expects an Object including the following cases"
  ++ nl ++ nl ++ join ", " tags
  ++ nl ++ nl ++ "on the 1st call"
  ++ nl ++ "in the 1st argument"
  ++ nl ++ nl ++ "but " ++ tag ++ " was not received" ++ nl.

Definition sum_additional_message (name : string) (tags s : list string) : string :=
  "invalid argument value"
  ++ nl ++ nl ++ name ++ " expects an Object including the following cases"
  ++ nl ++ nl ++ join ", " tags
  ++ nl ++ nl ++ "on the 1st call"
  ++ nl ++ "in the 1st argument"
  ++ nl ++ nl ++ "but additionally " ++ join ", " s ++ " received" ++ nl.

(** The callback of [tags.forEach] in [$sum]; [s] is the set of the keys
    not yet met. *)
Definition sum_check_tag (name : string) (tags : list string)
    (s : list string) (tag : string) : M (list string) :=
  if existsb (String.eqb tag) s then ret (set_delete s tag)
  else throw ArgValueError (sum_missing_message name tags tag).

(** [$sum(name, f, tags)], the guard of a sum type, applied to [cases].
    Its one caller, [Type], passes texts for [name] and [tags] and a
    function for [f]. *)
Definition dollar_sum (name : string) (f : func) (tags : list string)
    (cases : value) : M value :=
  if GUARDED then
    if negb (String.eqb (toTypeTag cases) "Object") then
      t <- introspect cases ;;
      throw ArgTypeError
        ("invalid argument type"
         ++ nl ++ nl ++ name ++ " expects an argument of type Object"
         ++ nl ++ nl ++ "on the 1st call"
         ++ nl ++ "in the 1st argument"
         ++ nl ++ nl ++ "but " ++ t ++ " received" ++ nl)
    else
      s <- reduceM (sum_check_tag name tags) tags
             (fold_left set_add (object_keys cases) []) ;;
      if (0 <? length s)%nat then
        throw ArgValueError (sum_additional_message name tags s)
      else
        r <- Call f [cases] ;;
        match r with
        | VFunction _ => dollar (VString ("run" ++ name)) r
        | _ => ret r
        end
  else Call f [cases].

(** ** Homogeneous maps and sets *)

(** [new Proxy(m, handleMap(t))] over a [Map]. *)
Record MapProxy : Type := mkMapProxy {
  map_target : list (value * value);
  map_fixed : string
}.

(** What [_Map] answers with: a proxy over a [Map]; a proxy over an
    ordinary object that carries the tag "Map" and a [SIG] (the traps are
    modelled over a [Map] only); the argument when guards are off. *)
Inductive map_result : Type :=
| MapProxied (p : MapProxy)
| MapProxiedObject (o : value) (t : string)
| MapUnguarded (m : value).

(** [_Map], the homogeneous map constructor. *)
Definition _Map (m : value) : M map_result :=
  if GUARDED then
    if negb (String.eqb (toTypeTag m) "Map") then
      t <- introspect m ;;
      throw ArgTypeError
        ("invalid argument type"
         ++ nl ++ nl ++ "_Map expects an argument of type Map"
         ++ nl ++ nl ++ "on the 1st call"
         ++ nl ++ nl ++ "in the 1st argument"
         ++ nl ++ nl ++ "but " ++ t ++ " received" ++ nl)
    else
      t <- introspect m ;;
      if String.eqb t "Map<?>" then
        throw ArgTypeError
          ("invalid argument type"
           ++ nl ++ nl ++ "_Map expects an homogeneous Map"
           ++ nl ++ nl ++ "on the 1st call"
           ++ nl ++ nl ++ "in the 1st argument"
           ++ nl ++ nl ++ "but " ++ t ++ " received" ++ nl)
      else
        match m with
        | VMap kvs => ret (MapProxied (mkMapProxy kvs t))
        | _ => ret (MapProxiedObject m t)
        end
  else ret (MapUnguarded m).

(** The function the [get] trap of [handleMap(t)] hands out for "set",
    applied to [k] and [v]. *)
Definition handleMap_set (p : MapProxy) (k v : value) : M MapProxy :=
  tk <- introspect k ;;
  tv <- introspect v ;;
  if negb (String.eqb ("Map<" ++ tk ++ ", " ++ tv ++ ">") (map_fixed p)) then
    tm <- introspect (VMap (map_target p)) ;;
    tk' <- introspect k ;;
    tv' <- introspect v ;;
    throw TypeError
      ("illegal operation"
       ++ nl ++ nl ++ "_Map of type " ++ tm ++ " must remain homogeneous"
       ++ nl ++ nl ++ "but set operation would lead to a heterogeneous _Map"
       ++ nl ++ nl ++ "with pair of type " ++ tk' ++ "/" ++ tv' ++ nl)
  else ret (mkMapProxy (map_set (map_target p) k v) (map_fixed p)).

(** [p.get(k)]: the default branch of the trap hands out
    [Map.prototype.get] bound to the map. *)
Definition handleMap_get (p : MapProxy) (k : value) : value :=
  map_get (map_target p) k.

(** [new Proxy(s, handleSet(t))] over a [Set]. *)
Record SetProxy : Type := mkSetProxy {
  set_target : list value;
  set_fixed : string
}.

(** What a call of [_Set] ends with.  Both refusals of [_Set] compose
    their message with [introspect(m)], and no [m] is in scope there:
    evaluating the message throws a [ReferenceError], which is none of the
    error classes of the library. *)
Inductive set_result : Type :=
| SetProxied (p : SetProxy)
| SetProxiedObject (o : value) (t : string)
| SetUnguarded (s : value)
| SetReferenceError (identifier : string).

(** [_Set], the homogeneous set constructor. *)
Definition _Set (s : value) : M set_result :=
  if GUARDED then
    if negb (String.eqb (toTypeTag s) "Set") then ret (SetReferenceError "m")
    else
      t <- introspect s ;;
      if String.eqb t "Set<?>" then ret (SetReferenceError "m")
      else
        match s with
        | VSet ks => ret (SetProxied (mkSetProxy ks t))
        | _ => ret (SetProxiedObject s t)
        end
  else ret (SetUnguarded s).

(** [s.add(k)]. *)
Definition set_insert (ks : list value) (k : value) : list value :=
  if existsb (fun x => sameValueZero x k) ks then ks else (ks ++ [k])%list.

(** The function the [get] trap of [handleSet(t)] hands out for "set",
    applied to [k]. *)
Definition handleSet_set (p : SetProxy) (k : value) : M SetProxy :=
  tk <- introspect k ;;
  if negb (String.eqb ("Set<" ++ tk ++ ">") (set_fixed p)) then
    ts <- introspect (VSet (set_target p)) ;;
    tk' <- introspect k ;;
    throw ArgTypeError
      ("illegal operation"
       ++ nl ++ nl ++ "_Set of type " ++ ts ++ " must remain homogeneous"
       ++ nl ++ nl ++ "but set operation would lead to a heterogeneous _Set"
       ++ nl ++ nl ++ "with key of type " ++ tk' ++ nl)
  else ret (mkSetProxy (set_insert (set_target p) k) (set_fixed p)).

(** [p.add(k)]: "add" is none of the cases of the trap, so the default
    branch hands out [Set.prototype.add] bound to the set. *)
Definition handleSet_add (p : SetProxy) (k : value) : SetProxy :=
  mkSetProxy (set_insert (set_target p) k) (set_fixed p).

(** ** Vocabulary of the statements *)

(** The state after [setHistory(s)]. *)
Definition push (s : list string) (st : state) : state := snd (setHistory s st).

(** The state after a sequence of [setHistory] calls, oldest first. *)
Definition pushes (rs : list (list string)) (st : state) : state :=
  fold_left (fun st' r => push r st') rs st.

(** A computation is quiet when its outcome does not depend on the state,
    when all it does to the state is to call [setHistory], and when it does
    not even do that unless it throws. *)
Definition quiet {A} (c : M A) : Prop :=
  exists r rs,
    (forall st, c st = (r, pushes rs st)) /\ (forall a, r = Ok a -> rs = []).

(** A computation is total when it answers, the same in every state, and
    leaves the state alone. *)
Definition total {A} (c : M A) : Prop :=
  exists a, forall st, c st = (Ok a, st).

(** The tags for which [introspect] looks into an object as into a
    container or a record. *)
Definition container_tags : list string :=
  ["Array"; "Map"; "Record"; "Set"; "Tuple"].

(** Values free of records and of ordinary objects that carry a container
    tag without a [SIG]. *)
Fixpoint plain (v : value) : bool :=
  match v with
  | VArray xs => forallb plain xs
  | VTuple xs => forallb plain xs
  | VSet xs => forallb plain xs
  | VMap m => forallb (fun kv => plain (fst kv) && plain (snd kv)) m
  | VObject _ sig _ o =>
      let t := toTypeTag v in
      match (if String.eqb t "Null" then None else sig) with
      | Some _ => true
      | None =>
          negb (existsb (String.eqb t) container_tags)
          && forallb (fun kv => plain (snd kv)) o
      end
  | _ => true
  end.

(** [t] is the descriptor of [x]. *)
Definition has_descriptor (x : value) (t : string) : Prop :=
  forall st, introspect x st = (Ok t, st).

(** [x] has a descriptor and it is none of the invalid markers. *)
Definition valid_value (x : value) : Prop :=
  exists t, has_descriptor x t /\ invalid_type t = false.

(** The arity rule in the words of the specification: exact in fixed
    mode, a minimum in variadic mode. *)
Definition arity_respected (p : params) (declared supplied : nat) : Prop :=
  match p with
  | Fix => declared = supplied
  | Var => declared <= supplied
  end.

(** The text of an [ArgTypeError] of [verifyArgTypes], for the argument at
    position [nthArg] (from 0) of descriptor [t]. *)
Definition arg_type_message (name t : string) (nthCall nthArg : nat)
    (log : list string) : string :=
  "invalid argument type"
  ++ nl ++ nl ++ name ++ " received an argument of type " ++ t
  ++ nl ++ nl ++ "on the " ++ ordinal_text (Z.of_nat nthCall + 1) ++ " call"
  ++ nl ++ "in the " ++ ordinal_text (Z.of_nat nthArg + 1) ++ " argument"
  ++ call_log_coerced log ++ nl.


(** The text [verifyArgTypes] answers with: one empty text per argument. *)
Definition arg_types_text (args : list value) : string :=
  join ", " (map (fun _ => "") args).

(** The [Set] the reducers of [introspectArr] build from the descriptors of
    the elements. *)
Definition descriptor_set (ts : list string) : list string :=
  fold_left set_add ts [].

(** The history holds at most [HISTORY_LEN] entries. *)
Definition bounded (st : state) : Prop := length (history st) <= HISTORY_LEN.

(** ** Sample inputs *)

Definition st_empty : state := mkState [] [].

Definition no_numbers : string -> number := fun _ => NaN.

Definition one : value := VNumber (Finite 1).

Definition two : value := VNumber (Finite 2).

(** [(x, y) => x + y] on finite numbers, as code 0; code 1 is the default
    [dispatcher]; code 2 is [x => y => x + y], answering with the function
    of code 0 renamed to the empty name; any other code answers
    [undefined]. *)
Definition add_fn : func := Raw (mkRaw "add" 2 "(x, y) => x + y" 0 None).

Definition dispatcher_fn : func := Raw (mkRaw "dispatcher" 1 "x => ..." 1 None).

Definition inner_fn : func := Raw (mkRaw "" 1 "y => x + y" 0 None).

Definition curried_fn : func := Raw (mkRaw "add" 1 "x => y => x + y" 2 None).

Definition sample_run (code : nat) (args : list value) : M value :=
  match code with
  | 0 =>
      match args with
      | [VNumber (Finite x); VNumber (Finite y)] => ret (VNumber (Finite (x + y)))
      | _ => ret (VNumber NaN)
      end
  | 1 => ret (dispatcher (nth 0 args VUndefined))
  | 2 => ret (VFunction inner_fn)
  | _ => ret VUndefined
  end.

(** A proxy over an [Array] whose elements have descriptors: what [Arr]
    builds from an array and what assignments through the proxy keep. *)
Definition proxy_over_array (p : ArrProxy) : Prop :=
  Forall (fun x => exists t, has_descriptor x t) (target p).

(** An object whose [Symbol.toStringTag] is the empty text. *)
Definition untagged : value := VObject "" None None [].

(** The proxy [Arr([])] answers with. *)
Definition empty_proxy : ArrProxy := mkProxy [] "[]".

(** An operation "show" over the default dispatcher, with its empty map
    allocated first. *)
Definition show_op : overloaded := mkOverloaded "show" dispatcher_fn 0.

Definition st_show : state := mkState [] [[]].

(** The same operation with a text registered for numbers, and with the
    function of code 0 registered for them. *)
Definition st_registered : state :=
  mkState [] [[(VString "Number", VString "a number")]].

Definition st_registered_fn : state :=
  mkState [] [[(VString "Number", VFunction add_fn)]].

(** The proxy [Arr([1, 1, 1])] answers with. *)
Definition number_proxy : ArrProxy := mkProxy [one; one; one] "[Number]".

(** ** Vocabulary of the further properties *)

(** Primitive values, which [SameValueZero] compares by value. *)
Definition primitive (v : value) : bool :=
  match v with
  | VUndefined | VNull | VBoolean _ | VNumber _ | VString _ | VSymbol _ _ => true
  | _ => false
  end.


(** [n] times the separator [", "]. *)
Fixpoint commas (n : nat) : string :=
  match n with
  | O => ""
  | S k => ", " ++ commas k
  end.

(** The English ordinal suffix of a natural number. *)
Definition english_suffix (n : Z) : string :=
  if ((n mod 100 =? 11) || (n mod 100 =? 12) || (n mod 100 =? 13))%Z then "th"
  else if (n mod 10 =? 1)%Z then "st"
  else if (n mod 10 =? 2)%Z then "nd"
  else if (n mod 10 =? 3)%Z then "rd"
  else "th".

(** The suffix [ordinal] picks, as a function of [v = n % 100]. *)
Definition ordinal_suffix (v : Z) : string :=
  let s := ["th"; "st"; "nd"; "rd"] in
  match at_index s (Z.rem (v - 20) 10) with
  | Some x => x
  | None =>
      match at_index s v with
      | Some x => x
      | None => "th"
      end
  end.

(** Texts without an opening bracket, brace or angle. *)
Fixpoint no_opening (s : string) : bool :=
  match s with
  | EmptyString => true
  | String a s' => negb (is_opening a) && no_opening s'
  end.

(** Simple descriptors: no opening bracket, no question mark, no comma
    (the descriptors of primitives, of functions and of tagged objects
    whose names have none). *)
Definition simple (t : string) : bool :=
  no_opening t && negb (has_question_or_comma t).

(** The text [introspectMap] collects for a pair: the descriptors of the
    key and of the value, separated by [", "]. *)
Definition pair_descriptor (kv : value * value) (t : string) : Prop :=
  exists tk tv,
    has_descriptor (fst kv) tk /\ has_descriptor (snd kv) tv /\
    t = (tk ++ ", " ++ tv)%string.

(** Texts without a colon. *)
Fixpoint colon_free (s : string) : bool :=
  match s with
  | EmptyString => true
  | String a s' => negb (Ascii.eqb a ":"%char) && colon_free s'
  end.

(** The texts [`${k}: ${introspect(o[k])}`] that [introspectObj] collects,
    given the descriptors of the property values. *)
Definition field_texts (o : list (string * value)) (ts : list string) : list string :=
  map (fun '(kv, t) => (fst kv ++ ": " ++ t)%string) (combine o ts).

(** Texts without a blank. *)
Fixpoint blank_free (s : string) : bool :=
  match s with
  | EmptyString => true
  | String a s' => negb (Ascii.eqb a " "%char) && blank_free s'
  end.

(** The tags [introspect] has a case of its own for. *)
Definition reserved_tags : list string := "Null" :: "Object" :: container_tags.

(** The proxies [_Map(new Map([["a", 1]]))] and [_Set(new Set([1]))]
    answer with. *)
Definition text_number_proxy : MapProxy :=
  mkMapProxy [(VString "a", one)] "Map<String, Number>".

Definition number_set_proxy : SetProxy := mkSetProxy [one] "Set<Number>".

(** The records ["f1()"], ..., ["fn()"], in the order of the calls. *)
Definition sample_records (n : nat) : list (list string) :=
  map (fun k => [("f" ++ show_nat k ++ "()")%string]) (seq 1 n).

(** ** Properties *)

(** *** Induction on values *)

Lemma value_ind' (P : value -> Prop)
  (Hundefined : P VUndefined)
  (Hnull : P VNull)
  (Hboolean : forall b, P (VBoolean b))
  (Hnumber : forall n, P (VNumber n))
  (Hstring : forall s, P (VString s))
  (Hsymbol : forall i d, P (VSymbol i d))
  (Hfunction : forall f, P (VFunction f))
  (Harray : forall xs, Forall P xs -> P (VArray xs))
  (Htuple : forall xs, Forall P xs -> P (VTuple xs))
  (Hmap : forall m, Forall (fun kv => P (fst kv) /\ P (snd kv)) m -> P (VMap m))
  (Hset : forall s, Forall P s -> P (VSet s))
  (Hobject : forall tag sig nc props,
      Forall (fun kv => P (snd kv)) props -> P (VObject tag sig nc props)) :
  forall v, P v.
Proof.
  fix IH 1.
  intros [ | | b | n | s | i d | f | xs | xs | m | s | tag sig nc props ].
  - exact Hundefined.
  - exact Hnull.
  - apply Hboolean.
  - apply Hnumber.
  - apply Hstring.
  - apply Hsymbol.
  - apply Hfunction.
  - apply Harray. induction xs as [ | x xs IHxs ]; constructor; [ apply IH | exact IHxs ].
  - apply Htuple. induction xs as [ | x xs IHxs ]; constructor; [ apply IH | exact IHxs ].
  - apply Hmap. induction m as [ | [k v] m IHm ]; constructor;
      [ split; apply IH | exact IHm ].
  - apply Hset. induction s as [ | x s IHs ]; constructor; [ apply IH | exact IHs ].
  - apply Hobject. induction props as [ | [k v] props IHp ]; constructor;
      [ apply IH | exact IHp ].
Qed.

(** *** The monad *)

Lemma bind_ok {A B} (c : M A) (k : A -> M B) st a st' :
  c st = (Ok a, st') -> bind c k st = k a st'.
Proof. intros H. unfold bind. rewrite H. reflexivity. Qed.

Lemma bind_throw {A B} (c : M A) (k : A -> M B) st e st' :
  c st = (Throw e, st') -> bind c k st = (Throw e, st').
Proof. intros H. unfold bind. rewrite H. reflexivity. Qed.

Lemma pushes_app rs1 rs2 st : pushes (rs1 ++ rs2) st = pushes rs2 (pushes rs1 st).
Proof. unfold pushes. apply fold_left_app. Qed.

(** *** Quiet computations *)

Lemma quiet_ret {A} (a : A) : quiet (ret a).
Proof.
  exists (Ok a), []. split; [ reflexivity | reflexivity ].
Qed.

Lemma quiet_throw {A} k msg : quiet (@throw A k msg).
Proof.
  exists (Throw (mkError k msg)), []. split; [ reflexivity | discriminate ].
Qed.

Lemma quiet_bind {A B} (c : M A) (k : A -> M B) :
  quiet c -> (forall a, quiet (k a)) -> quiet (bind c k).
Proof.
  intros (r & rs & Hc & Hrs) Hk.
  destruct r as [a | e].
  - rewrite (Hrs a eq_refl) in Hc. simpl in Hc.
    destruct (Hk a) as (r' & rs' & Hk' & Hrs').
    exists r', rs'. split; [ | exact Hrs' ].
    intros st. rewrite (bind_ok _ _ _ _ _ (Hc st)). apply Hk'.
  - exists (Throw e), rs. split; [ | discriminate ].
    intros st. apply bind_throw. apply Hc.
Qed.

Lemma quiet_forbidden_coercion {A} cls hint : quiet (@forbidden_coercion A cls hint).
Proof.
  unfold forbidden_coercion, capitalize.
  destruct (capitalize_text hint) as [c | ].
  - eexists (Throw _), [ ["capitalize()"] ]. split; [ | discriminate ].
    intros st. reflexivity.
  - eexists (Throw _), []. split; [ | discriminate ].
    intros st. reflexivity.
Qed.

Lemma quiet_mapM {A B} (f : A -> M B) l :
  Forall (fun x => quiet (f x)) l -> quiet (mapM f l).
Proof.
  induction 1 as [ | x l Hx _ IH ]; simpl.
  - apply quiet_ret.
  - apply quiet_bind; [ exact Hx | intros y ].
    apply quiet_bind; [ exact IH | intros ys ]. apply quiet_ret.
Qed.

Lemma quiet_reduceM {A B} (f : B -> A -> M B) l :
  Forall (fun x => forall acc, quiet (f acc x)) l ->
  forall acc, quiet (reduceM f l acc).
Proof.
  induction 1 as [ | x l Hx _ IH ]; intros acc; simpl.
  - apply quiet_ret.
  - apply quiet_bind; [ apply Hx | intros acc' ]. apply IH.
Qed.

Ltac quiet_step :=
  match goal with
  | |- quiet (ret _) => apply quiet_ret
  | |- quiet (throw _ _) => apply quiet_throw
  | |- quiet (forbidden_coercion _ _) => apply quiet_forbidden_coercion
  | |- quiet (bind _ _) => apply quiet_bind; [ | intros ? ]
  | |- quiet (if ?b then _ else _) => destruct b
  | |- quiet (match ?x with _ => _ end) => destruct x
  end.

Lemma quiet_toStringHint v : forall hint, quiet (toStringHint hint v).
Proof.
  induction v as [ | | b | n | s | i d | f | xs IH | xs _ | m _ | s _ | tag sig nc props _ ]
    using value_ind'; intros hint; simpl; repeat quiet_step.
  apply quiet_mapM.
  eapply Forall_impl; [ | exact IH ].
  intros x Hx. destruct x; try apply quiet_ret; apply Hx.
Qed.

Lemma quiet_toNumber v : quiet (toNumber v).
Proof.
  unfold toNumber.
  destruct v; cbv beta iota;
    try (apply quiet_bind; [ apply quiet_toStringHint | intros ? ]);
    repeat quiet_step.
Qed.

Lemma quiet_with_prop {B} (f : value -> M B) missing o k :
  Forall (fun kv => quiet (f (snd kv))) o -> quiet missing ->
  quiet (with_prop f missing o k).
Proof.
  intros Ho Hm. induction Ho as [ | [k' v] o Hv _ IH ]; simpl.
  - exact Hm.
  - destruct (String.eqb k' k); [ exact Hv | exact IH ].
Qed.

Lemma quiet_introspectArrWith f xs :
  Forall (fun x => quiet (f x)) xs -> quiet (introspectArrWith f xs).
Proof.
  intros H. unfold introspectArrWith.
  destruct (Z.of_nat (length xs) <=? MAX_TUP_SIZE)%Z.
  - apply quiet_bind.
    + apply quiet_reduceM. eapply Forall_impl; [ | exact H ].
      intros x Hx [s ts]. repeat quiet_step. exact Hx.
    + intros [s ts]. repeat quiet_step.
  - apply quiet_bind.
    + apply quiet_reduceM. eapply Forall_impl; [ | exact H ].
      intros x Hx s. repeat quiet_step. exact Hx.
    + intros s. repeat quiet_step.
Qed.

Lemma quiet_introspectMapWith f m :
  Forall (fun kv => quiet (f (fst kv)) /\ quiet (f (snd kv))) m ->
  quiet (introspectMapWith f m).
Proof.
  intros H. unfold introspectMapWith. apply quiet_bind.
  - apply quiet_reduceM. eapply Forall_impl; [ | exact H ].
    intros [k v] [Hk Hv] s. simpl in *.
    apply quiet_bind; [ exact Hk | intros tk ].
    apply quiet_bind; [ exact Hv | intros tv ]. apply quiet_ret.
  - intros s. repeat quiet_step.
Qed.

Lemma quiet_introspectSetWith f s :
  Forall (fun x => quiet (f x)) s -> quiet (introspectSetWith f s).
Proof.
  intros H. unfold introspectSetWith. apply quiet_bind.
  - apply quiet_reduceM. eapply Forall_impl; [ | exact H ].
    intros x Hx s_. repeat quiet_step. exact Hx.
  - intros s_. repeat quiet_step.
Qed.

Lemma quiet_introspectTupWith f xs :
  Forall (fun x => quiet (f x)) xs -> quiet (introspectTupWith f xs).
Proof.
  intros H. unfold introspectTupWith.
  destruct (MAX_TUP_SIZE <? Z.of_nat (length xs))%Z; [ apply quiet_ret | ].
  apply quiet_bind; [ apply quiet_mapM; exact H | intros ts; apply quiet_ret ].
Qed.

Lemma quiet_introspectObjWith f o tag :
  Forall (fun kv => quiet (f (snd kv))) o -> quiet (introspectObjWith f o tag).
Proof.
  intros H. unfold introspectObjWith.
  destruct (String.eqb tag "Object"); [ | apply quiet_ret ].
  destruct (Z.of_nat (length o) <=? MAX_REC_SIZE)%Z.
  - apply quiet_bind.
    + apply quiet_reduceM. eapply Forall_impl; [ | exact H ].
      intros [k x] Hx [s ts]. simpl in Hx. repeat quiet_step. exact Hx.
    + intros [s ts]. repeat quiet_step.
  - apply quiet_bind.
    + apply quiet_reduceM. eapply Forall_impl; [ | exact H ].
      intros [k x] Hx s. simpl in Hx. repeat quiet_step. exact Hx.
    + intros s. repeat quiet_step.
Qed.

Lemma quiet_introspectRecWith g r :
  (forall s, quiet (g s)) -> quiet (introspectRecWith g r).
Proof.
  intros Hg. unfold introspectRecWith.
  apply quiet_bind; [ apply quiet_toNumber | intros len ].
  destruct (num_gt len MAX_REC_SIZE); [ apply quiet_ret | ].
  apply quiet_bind; [ | intros r_; apply quiet_ret ].
  apply quiet_mapM. apply Forall_forall. intros [k x] _.
  apply quiet_bind; [ apply quiet_toStringHint | intros s; apply Hg ].
Qed.

Lemma quiet_introspectTupLikeWith f u o :
  Forall (fun kv => quiet (f (snd kv))) o -> quiet u ->
  quiet (introspectTupLikeWith f u o).
Proof.
  intros H Hu. unfold introspectTupLikeWith.
  apply quiet_bind; [ apply quiet_toNumber | intros len ].
  destruct (num_gt len MAX_TUP_SIZE); [ apply quiet_ret | ].
  apply quiet_bind; [ apply quiet_toNumber | intros len' ].
  apply quiet_bind; [ | intros ts; apply quiet_ret ].
  apply quiet_mapM. apply Forall_forall. intros i _.
  apply quiet_with_prop; assumption.
Qed.

Lemma introspect_object tag sig nc o :
  introspect (VObject tag sig nc o) =
  let t := toTypeTag (VObject tag sig nc o) in
  match (if String.eqb t "Null" then None else sig) with
  | Some d => ret d
  | None =>
      if String.eqb t "Array" then
        len <- toNumber (get_prop o "length") ;;
        not_a_function "xs.reduce"
      else if String.eqb t "Map" then not_a_function "m.forEach"
      else if String.eqb t "Null" then ret t
      else if String.eqb t "Record" then introspectRecWith (fun _ => ret "String") o
      else if String.eqb t "Set" then not_a_function "s.forEach"
      else if String.eqb t "Tuple" then
        introspectTupLikeWith introspect (ret "Undefined") o
      else introspectObjWith introspect o t
  end.
Proof. reflexivity. Qed.

(** [introspect] is quiet: whether it answers and what it answers does not
    depend on the state, and an answer leaves the state as it was. *)
Lemma quiet_introspect x : quiet (introspect x).
Proof.
  induction x as [ | | b | n | s | i d | f | xs IH | xs IH | m IH | s IH | tag sig nc o IH ]
    using value_ind'.
  - apply quiet_ret.
  - apply quiet_ret.
  - apply quiet_ret.
  - destruct n; apply quiet_ret.
  - apply quiet_ret.
  - apply quiet_ret.
  - apply quiet_ret.
  - apply quiet_introspectArrWith; exact IH.
  - apply quiet_introspectTupWith; exact IH.
  - apply quiet_introspectMapWith; exact IH.
  - apply quiet_introspectSetWith; exact IH.
  - rewrite introspect_object. cbv zeta.
    generalize (toTypeTag (VObject tag sig nc o)). intros t.
    destruct (if String.eqb t "Null" then None else sig); [ apply quiet_ret | ].
    destruct (String.eqb t "Array").
    { apply quiet_bind; [ apply quiet_toNumber | intros; apply quiet_throw ]. }
    destruct (String.eqb t "Map"); [ apply quiet_throw | ].
    destruct (String.eqb t "Null"); [ apply quiet_ret | ].
    destruct (String.eqb t "Record").
    { apply quiet_introspectRecWith. intros; apply quiet_ret. }
    destruct (String.eqb t "Set"); [ apply quiet_throw | ].
    destruct (String.eqb t "Tuple").
    { apply quiet_introspectTupLikeWith; [ exact IH | apply quiet_ret ]. }
    apply quiet_introspectObjWith; exact IH.
Qed.

(** An answer of [introspect] in one state is the descriptor in every
    state. *)
Lemma introspect_ok x st t st' :
  introspect x st = (Ok t, st') -> has_descriptor x t /\ st' = st.
Proof.
  intros H. destruct (quiet_introspect x) as (r & rs & Hc & Hrs).
  rewrite Hc in H. injection H as Hr Hst. subst r.
  rewrite (Hrs t eq_refl) in *. simpl in *. split; [ | congruence ].
  intros st2. rewrite Hc. reflexivity.
Qed.

Lemma introspect_text s : introspect (VString s) = ret "String".
Proof. reflexivity. Qed.

Lemma introspect_undefined : introspect VUndefined = ret "Undefined".
Proof. reflexivity. Qed.

(** The helpers of [introspect] as the source names them. *)
Lemma introspect_array xs : introspect (VArray xs) = introspectArr xs.
Proof. reflexivity. Qed.

Lemma introspect_map m : introspect (VMap m) = introspectMap m.
Proof. reflexivity. Qed.

Lemma introspect_set s : introspect (VSet s) = introspectSet s.
Proof. reflexivity. Qed.

Lemma introspect_tuple xs : introspect (VTuple xs) = introspectTup xs.
Proof. reflexivity. Qed.

Lemma introspect_plain_object o : introspect (Obj o) = introspectObj o "Object".
Proof. reflexivity. Qed.

(** *** Where [introspect] answers *)

Lemma total_ret {A} (a : A) : total (ret a).
Proof. exists a. reflexivity. Qed.

Lemma total_bind {A B} (c : M A) (k : A -> M B) :
  total c -> (forall a, total (k a)) -> total (bind c k).
Proof.
  intros (a & Ha) Hk. destruct (Hk a) as (b & Hb).
  exists b. intros st. rewrite (bind_ok _ _ _ _ _ (Ha st)). apply Hb.
Qed.

Lemma total_mapM {A B} (f : A -> M B) l :
  Forall (fun x => total (f x)) l -> total (mapM f l).
Proof.
  induction 1 as [ | x l Hx _ IH ]; simpl.
  - apply total_ret.
  - apply total_bind; [ exact Hx | intros y ].
    apply total_bind; [ exact IH | intros ys ]. apply total_ret.
Qed.

Lemma total_reduceM {A B} (f : B -> A -> M B) l :
  Forall (fun x => forall acc, total (f acc x)) l ->
  forall acc, total (reduceM f l acc).
Proof.
  induction 1 as [ | x l Hx _ IH ]; intros acc; simpl.
  - apply total_ret.
  - apply total_bind; [ apply Hx | intros acc' ]. apply IH.
Qed.

Ltac total_step :=
  match goal with
  | |- total (ret _) => apply total_ret
  | |- total (bind _ _) => apply total_bind; [ | intros ? ]
  | |- total (if ?b then _ else _) => destruct b
  | |- total (match ?x with _ => _ end) => destruct x
  end.

Lemma total_introspectArrWith f xs :
  Forall (fun x => total (f x)) xs -> total (introspectArrWith f xs).
Proof.
  intros H. unfold introspectArrWith.
  destruct (Z.of_nat (length xs) <=? MAX_TUP_SIZE)%Z.
  - apply total_bind.
    + apply total_reduceM. eapply Forall_impl; [ | exact H ].
      intros x Hx [s ts]. repeat total_step. exact Hx.
    + intros [s ts]. repeat total_step.
  - apply total_bind.
    + apply total_reduceM. eapply Forall_impl; [ | exact H ].
      intros x Hx s. repeat total_step. exact Hx.
    + intros s. repeat total_step.
Qed.

Lemma total_introspectMapWith f m :
  Forall (fun kv => total (f (fst kv)) /\ total (f (snd kv))) m ->
  total (introspectMapWith f m).
Proof.
  intros H. unfold introspectMapWith. apply total_bind.
  - apply total_reduceM. eapply Forall_impl; [ | exact H ].
    intros [k v] [Hk Hv] s. simpl in *.
    apply total_bind; [ exact Hk | intros tk ].
    apply total_bind; [ exact Hv | intros tv ]. apply total_ret.
  - intros s. repeat total_step.
Qed.

Lemma total_introspectSetWith f s :
  Forall (fun x => total (f x)) s -> total (introspectSetWith f s).
Proof.
  intros H. unfold introspectSetWith. apply total_bind.
  - apply total_reduceM. eapply Forall_impl; [ | exact H ].
    intros x Hx s_. repeat total_step. exact Hx.
  - intros s_. repeat total_step.
Qed.

Lemma total_introspectTupWith f xs :
  Forall (fun x => total (f x)) xs -> total (introspectTupWith f xs).
Proof.
  intros H. unfold introspectTupWith.
  destruct (MAX_TUP_SIZE <? Z.of_nat (length xs))%Z; [ apply total_ret | ].
  apply total_bind; [ apply total_mapM; exact H | intros ts; apply total_ret ].
Qed.

Lemma total_introspectObjWith f o tag :
  Forall (fun kv => total (f (snd kv))) o -> total (introspectObjWith f o tag).
Proof.
  intros H. unfold introspectObjWith.
  destruct (String.eqb tag "Object"); [ | apply total_ret ].
  destruct (Z.of_nat (length o) <=? MAX_REC_SIZE)%Z.
  - apply total_bind.
    + apply total_reduceM. eapply Forall_impl; [ | exact H ].
      intros [k x] Hx [s ts]. simpl in Hx. repeat total_step. exact Hx.
    + intros [s ts]. repeat total_step.
  - apply total_bind.
    + apply total_reduceM. eapply Forall_impl; [ | exact H ].
      intros [k x] Hx s. simpl in Hx. repeat total_step. exact Hx.
    + intros s. repeat total_step.
Qed.

Lemma Forall_forallb_impl {A} (P : A -> Prop) (b : A -> bool) l :
  Forall (fun x => b x = true -> P x) l -> forallb b l = true -> Forall P l.
Proof.
  induction 1 as [ | x l Hx _ IH ]; simpl; intros H.
  - constructor.
  - apply andb_prop in H. destruct H as [H1 H2]. constructor; auto.
Qed.

(** Away from records and from objects that only carry a container tag,
    [introspect] is total. *)
Lemma introspect_total_on_plain x : plain x = true -> total (introspect x).
Proof.
  induction x as [ | | b | n | s | i d | f | xs IH | xs IH | m IH | s IH | tag sig nc o IH ]
    using value_ind'; intros Hp.
  - apply total_ret.
  - apply total_ret.
  - apply total_ret.
  - destruct n; apply total_ret.
  - apply total_ret.
  - apply total_ret.
  - apply total_ret.
  - apply total_introspectArrWith. exact (Forall_forallb_impl _ _ _ IH Hp).
  - apply total_introspectTupWith. exact (Forall_forallb_impl _ _ _ IH Hp).
  - apply total_introspectMapWith. cbn [plain] in Hp.
    apply (Forall_forallb_impl _ (fun kv => plain (fst kv) && plain (snd kv)) m);
      [ | exact Hp ].
    eapply Forall_impl; [ | exact IH ].
    intros [k v] [Hk Hv] H. apply andb_prop in H. destruct H. split; auto.
  - apply total_introspectSetWith. exact (Forall_forallb_impl _ _ _ IH Hp).
  - rewrite introspect_object. cbn [plain] in Hp. cbv zeta in *.
    revert Hp. generalize (toTypeTag (VObject tag sig nc o)). intros t Hp.
    destruct (if String.eqb t "Null" then None else sig); [ apply total_ret | ].
    apply andb_prop in Hp. destruct Hp as [Ht Ho].
    apply negb_true_iff in Ht. unfold container_tags in Ht. cbn [existsb] in Ht.
    repeat (apply orb_false_elim in Ht; destruct Ht as [? Ht]).
    repeat match goal with
    | H : String.eqb t _ = false |- _ => rewrite H; clear H
    end.
    cbv beta iota.
    destruct (String.eqb t "Null"); [ apply total_ret | ].
    apply total_introspectObjWith.
    apply (Forall_forallb_impl _ (fun kv => plain (snd kv)) o); assumption.
Qed.

(** *** The call history *)

Lemma removelast_firstn_length {A} (l : list A) n :
  length l = S n -> removelast l = firstn n l.
Proof.
  intros H. rewrite removelast_firstn_len, H. reflexivity.
Qed.

Lemma history_push s st :
  bounded st -> history (push s st) = firstn HISTORY_LEN (s :: history st).
Proof.
  unfold bounded, push, setHistory. cbn [snd history].
  intros H. destruct (HISTORY_LEN <? length (s :: history st))%nat eqn:E.
  - apply Nat.ltb_lt in E. cbn [length] in E.
    apply removelast_firstn_length. cbn [length]. lia.
  - apply Nat.ltb_ge in E. symmetry. apply firstn_all2. exact E.
Qed.

Lemma maps_push s st : maps (push s st) = maps st.
Proof. reflexivity. Qed.

Lemma bounded_push s st : bounded st -> bounded (push s st).
Proof.
  intros H. unfold bounded. rewrite (history_push s st H).
  apply firstn_le_length.
Qed.

Lemma bounded_pushes rs : forall st, bounded st -> bounded (pushes rs st).
Proof.
  induction rs as [ | r rs IH ]; intros st H; simpl; [ exact H | ].
  apply IH. apply bounded_push. exact H.
Qed.

Lemma maps_pushes rs : forall st, maps (pushes rs st) = maps st.
Proof.
  induction rs as [ | r rs IH ]; intros st; simpl; [ reflexivity | ].
  rewrite IH. apply maps_push.
Qed.

Lemma firstn_cons_firstn {A} (x : A) l n :
  firstn (S n) (x :: firstn (S n) l) = firstn (S n) (x :: l).
Proof.
  rewrite !firstn_cons. f_equal. rewrite firstn_firstn. f_equal. lia.
Qed.

Lemma history_pushes rs :
  history (pushes rs st_empty) = firstn HISTORY_LEN (rev rs).
Proof.
  induction rs as [ | r rs IH ] using rev_ind.
  - reflexivity.
  - rewrite pushes_app. cbn [pushes fold_left].
    rewrite history_push.
    + rewrite IH, rev_app_distr. cbn [rev app]. apply firstn_cons_firstn.
    + apply bounded_pushes. unfold bounded. simpl. lia.
Qed.

Lemma setHistory_run s st : setHistory s st = (Ok tt, push s st).
Proof. reflexivity. Qed.

Lemma ordinal_run n st : ordinal n st = (Ok (ordinal_text n), push ["ordinal()"] st).
Proof. reflexivity. Qed.

(** *** Texts and ordinals *)

Lemma string_length_append s1 s2 :
  String.length (s1 ++ s2) = String.length s1 + String.length s2.
Proof. induction s1 as [ | a s1 IH ]; simpl; [ reflexivity | now rewrite IH ]. Qed.

Lemma string_append_nil s : (s ++ "")%string = s.
Proof. induction s as [ | a s IH ]; simpl; [ reflexivity | now rewrite IH ]. Qed.

Lemma string_append_assoc s1 s2 s3 : ((s1 ++ s2) ++ s3 = s1 ++ s2 ++ s3)%string.
Proof. induction s1 as [ | a s1 IH ]; simpl; [ reflexivity | now rewrite IH ]. Qed.

Lemma ordinal_suffix_below_100 v :
  (0 <= v < 100)%Z ->
  ordinal_suffix v
  = (if ((v =? 11) || (v =? 12) || (v =? 13))%Z then "th"
     else if (v mod 10 =? 1)%Z then "st"
     else if (v mod 10 =? 2)%Z then "nd"
     else if (v mod 10 =? 3)%Z then "rd"
     else "th").
Proof.
  intros Hv.
  assert (Hall : forallb (fun k =>
            let v := Z.of_nat k in
            String.eqb (ordinal_suffix v)
              (if ((v =? 11) || (v =? 12) || (v =? 13))%Z then "th"
               else if (v mod 10 =? 1)%Z then "st"
               else if (v mod 10 =? 2)%Z then "nd"
               else if (v mod 10 =? 3)%Z then "rd"
               else "th")) (seq 0 100) = true) by (vm_compute; reflexivity).
  rewrite forallb_forall in Hall.
  specialize (Hall (Z.to_nat v)).
  cbv zeta in Hall. rewrite Z2Nat.id in Hall by lia.
  apply String.eqb_eq. apply Hall. apply in_seq. lia.
Qed.

Lemma ordinal_suffix_above_minus_100 v :
  (-100 < v < 0)%Z -> ordinal_suffix v = "th".
Proof.
  intros Hv.
  assert (Hall : forallb (fun k =>
            String.eqb (ordinal_suffix (- Z.of_nat k)) "th") (seq 1 99) = true)
    by (vm_compute; reflexivity).
  rewrite forallb_forall in Hall.
  specialize (Hall (Z.to_nat (- v))).
  rewrite Z2Nat.id in Hall by lia. rewrite Z.opp_involutive in Hall.
  apply String.eqb_eq. apply Hall. apply in_seq. lia.
Qed.

Lemma ordinal_text_nonneg n :
  (0 <= n)%Z -> ordinal_text n = (show_Z n ++ english_suffix n)%string.
Proof.
  intros Hn.
  change (ordinal_text n) with (show_Z n ++ ordinal_suffix (Z.rem n 100))%string.
  f_equal. rewrite Z.rem_mod_nonneg by lia.
  rewrite ordinal_suffix_below_100 by (apply Z.mod_pos_bound; lia).
  unfold english_suffix.
  replace ((n mod 100) mod 10)%Z with (n mod 10)%Z; [ reflexivity | ].
  symmetry. apply Z.mod_mod_divide. exists 10%Z. reflexivity.
Qed.

Lemma ordinal_text_negative n :
  (n < 0)%Z -> ordinal_text n = (show_Z n ++ "th")%string.
Proof.
  intros Hn.
  change (ordinal_text n) with (show_Z n ++ ordinal_suffix (Z.rem n 100))%string.
  f_equal.
  pose proof (Z.rem_bound_pos_neg n 100 ltac:(lia) ltac:(lia)) as Hb.
  destruct (Z.eq_dec (Z.rem n 100) 0) as [ E | E ].
  - rewrite E. reflexivity.
  - apply ordinal_suffix_above_minus_100. lia.
Qed.

(** *** The checks of the guard *)

Lemma params_text_fix p : String.eqb (params_text p) "fix" = true <-> p = Fix.
Proof. destruct p; simpl; split; congruence. Qed.

Lemma params_text_var p : String.eqb (params_text p) "var" = true <-> p = Var.
Proof. destruct p; simpl; split; congruence. Qed.

Lemma verifyArity_ok g_length args name p nthCall log st :
  arity_respected p g_length (length args) ->
  verifyArity g_length args name p nthCall log st = (Ok tt, st).
Proof.
  unfold arity_respected, verifyArity. intros H. destruct p; cbn [params_text].
  - subst g_length. rewrite Nat.eqb_refl. reflexivity.
  - apply Nat.ltb_ge in H. rewrite H. reflexivity.
Qed.

Lemma verifyArity_fails g_length args name p nthCall log :
  ~ arity_respected p g_length (length args) ->
  exists msg, forall st,
    verifyArity g_length args name p nthCall log st
    = (Throw (mkError ArityError msg), push ["ordinal()"] st).
Proof.
  unfold arity_respected, verifyArity. intros H. destruct p; cbn [params_text].
  - apply Nat.eqb_neq in H. rewrite H. eexists. intros st. reflexivity.
  - assert (E : (length args <? g_length)%nat = true) by (apply Nat.ltb_lt; lia).
    rewrite E. eexists. intros st. reflexivity.
Qed.

Lemma quiet_ordinal_throw {A} n (k : string -> M A) :
  (forall o, exists e, forall st, k o st = (Throw e, st)) ->
  quiet (o <- ordinal n ;; k o).
Proof.
  intros Hk. destruct (Hk (ordinal_text n)) as [e He].
  exists (Throw e), [ ["ordinal()"] ]. split; [ | discriminate ].
  intros st. rewrite (bind_ok _ _ _ _ _ (ordinal_run n st)). apply He.
Qed.

Lemma quiet_verifyArity g_length args name p nthCall log :
  quiet (verifyArity g_length args name p nthCall log).
Proof.
  unfold verifyArity.
  repeat match goal with
  | |- quiet (if ?b then _ else _) => destruct b
  end; try apply quiet_ret;
  apply quiet_ordinal_throw; intros o; eexists; intros st; reflexivity.
Qed.

Lemma check_argument_quiet name nthCall log arg nthArg :
  quiet (check_argument name nthCall log arg nthArg).
Proof.
  unfold check_argument.
  apply quiet_bind; [ apply quiet_introspect | intros t ].
  destruct (invalid_type t); [ | apply quiet_ret ].
  eexists (Throw _), [ ["ordinal()"]; ["ordinal()"] ]. split; [ | discriminate ].
  intros st. reflexivity.
Qed.

Lemma check_argument_valid name nthCall log arg nthArg st :
  valid_value arg -> check_argument name nthCall log arg nthArg st = (Ok tt, st).
Proof.
  intros (t & Ht & Hv). unfold check_argument.
  rewrite (bind_ok _ _ _ _ _ (Ht st)), Hv. reflexivity.
Qed.

Lemma check_argument_invalid name nthCall log arg nthArg t st :
  has_descriptor arg t -> invalid_type t = true ->
  check_argument name nthCall log arg nthArg st
  = (Throw (mkError ArgTypeError (arg_type_message name t nthCall nthArg log)),
     pushes [ ["ordinal()"]; ["ordinal()"] ] st).
Proof.
  intros Ht Hv. unfold check_argument.
  rewrite (bind_ok _ _ _ _ _ (Ht st)), Hv. reflexivity.
Qed.

Lemma quiet_mapiM {A B} (f : A -> nat -> M B) l :
  (forall x i, quiet (f x i)) -> forall i, quiet (mapiM f l i).
Proof.
  intros Hf. induction l as [ | x l IH ]; intros i; simpl.
  - apply quiet_ret.
  - apply quiet_bind; [ apply Hf | intros y ].
    apply quiet_bind; [ apply IH | intros ys ]. apply quiet_ret.
Qed.

Lemma quiet_verifyArgTypes args name nthCall log :
  quiet (verifyArgTypes args name nthCall log).
Proof.
  unfold verifyArgTypes. apply quiet_bind; [ | intros; apply quiet_ret ].
  apply quiet_mapiM. intros. apply check_argument_quiet.
Qed.

Lemma quiet_verifyRetType r name log : quiet (verifyRetType r name log).
Proof.
  unfold verifyRetType. apply quiet_bind; [ apply quiet_introspect | intros t ].
  destruct (invalid_type t); [ apply quiet_throw | apply quiet_ret ].
Qed.

Lemma mapiM_valid name nthCall log args :
  Forall valid_value args ->
  forall i st,
    mapiM (check_argument name nthCall log) args i st
    = (Ok (map (fun _ => tt) args), st).
Proof.
  induction 1 as [ | a args Ha _ IH ]; intros i st.
  - reflexivity.
  - cbn [mapiM map].
    rewrite (bind_ok _ _ _ _ _ (check_argument_valid name nthCall log a i st Ha)).
    rewrite (bind_ok _ _ _ _ _ (IH (S i) st)). reflexivity.
Qed.

Lemma verifyArgTypes_ok args name nthCall log st :
  Forall valid_value args ->
  verifyArgTypes args name nthCall log st = (Ok (arg_types_text args), st).
Proof.
  intros H. unfold verifyArgTypes.
  rewrite (bind_ok _ _ _ _ _ (mapiM_valid name nthCall log args H 0%nat st)).
  unfold arg_types_text. rewrite map_map. reflexivity.
Qed.

Lemma mapiM_first_invalid name nthCall log pre a post t :
  Forall valid_value pre -> has_descriptor a t -> invalid_type t = true ->
  forall i st,
    mapiM (check_argument name nthCall log) (pre ++ a :: post) i st
    = (Throw (mkError ArgTypeError (arg_type_message name t nthCall (i + length pre) log)),
       pushes [ ["ordinal()"]; ["ordinal()"] ] st).
Proof.
  intros Hpre Ha Hinv.
  induction Hpre as [ | x pre Hx _ IH ]; intros i st.
  - cbn [app mapiM length]. rewrite Nat.add_0_r.
    apply bind_throw. apply check_argument_invalid; assumption.
  - cbn [app mapiM length].
    rewrite (bind_ok _ _ _ _ _ (check_argument_valid name nthCall log x i st Hx)).
    rewrite (bind_throw _ _ _ _ _ (IH (S i) st)).
    replace (S i + length pre)%nat with (i + S (length pre))%nat by lia.
    reflexivity.
Qed.

Lemma verifyArgTypes_first_invalid name nthCall log pre a post t st :
  Forall valid_value pre -> has_descriptor a t -> invalid_type t = true ->
  verifyArgTypes (pre ++ a :: post) name nthCall log st
  = (Throw (mkError ArgTypeError (arg_type_message name t nthCall (length pre) log)),
     pushes [ ["ordinal()"]; ["ordinal()"] ] st).
Proof.
  intros Hpre Ha Hinv. unfold verifyArgTypes. apply bind_throw.
  apply (mapiM_first_invalid name nthCall log pre a post t Hpre Ha Hinv 0%nat st).
Qed.


Lemma verifyRetType_ok r name log t st :
  has_descriptor r t -> invalid_type t = false ->
  verifyRetType r name log st = (Ok t, st).
Proof.
  intros Ht Hv. unfold verifyRetType.
  rewrite (bind_ok _ _ _ _ _ (Ht st)). rewrite Hv. reflexivity.
Qed.


Lemma function_descriptor_valid f : valid_value (VFunction f).
Proof.
  exists ("λ" ++ func_name f). split; [ intros st; reflexivity | reflexivity ].
Qed.

(** *** What a successful check tells *)

Lemma bind_ok_inv {A B} (c : M A) (k : A -> M B) st b st' :
  bind c k st = (Ok b, st') ->
  exists a st1, c st = (Ok a, st1) /\ k a st1 = (Ok b, st').
Proof.
  unfold bind. destruct (c st) as [[a | e] st1]; intros H.
  - exists a, st1. split; [ reflexivity | exact H ].
  - discriminate.
Qed.

Lemma quiet_ok {A} (c : M A) st a st' :
  quiet c -> c st = (Ok a, st') -> st' = st /\ forall st2, c st2 = (Ok a, st2).
Proof.
  intros (r & rs & Hc & Hrs) H. rewrite Hc in H. injection H as -> <-.
  rewrite (Hrs a eq_refl) in *. split; [ reflexivity | exact Hc ].
Qed.

Lemma arity_respected_dec p declared supplied :
  {arity_respected p declared supplied} + {~ arity_respected p declared supplied}.
Proof.
  destruct p; simpl; [ apply Nat.eq_dec | apply le_dec ].
Qed.

Lemma verifyArity_ok_inv g_length args name p nthCall log st u st' :
  verifyArity g_length args name p nthCall log st = (Ok u, st') ->
  arity_respected p g_length (length args) /\ st' = st.
Proof.
  intros H. destruct (arity_respected_dec p g_length (length args)) as [Y | N].
  - split; [ exact Y | ].
    rewrite (verifyArity_ok _ _ name _ nthCall log st Y) in H. congruence.
  - destruct (verifyArity_fails g_length args name p nthCall log N) as [msg Hm].
    rewrite Hm in H. discriminate.
Qed.

Lemma check_argument_ok_inv name nthCall log arg nthArg st u st' :
  check_argument name nthCall log arg nthArg st = (Ok u, st') ->
  valid_value arg /\ st' = st.
Proof.
  unfold check_argument. intros H.
  apply bind_ok_inv in H. destruct H as (t & st1 & Ht & H).
  apply introspect_ok in Ht. destruct Ht as [Ht ->].
  destruct (invalid_type t) eqn:E.
  - discriminate.
  - split; [ exists t; split; assumption | ]. unfold ret in H. congruence.
Qed.

Lemma mapiM_check_ok_inv name nthCall log args :
  forall i st us st',
    mapiM (check_argument name nthCall log) args i st = (Ok us, st') ->
    Forall valid_value args /\ st' = st.
Proof.
  induction args as [ | a args IH ]; intros i st us st' H.
  - cbn [mapiM] in H. unfold ret in H. split; [ constructor | congruence ].
  - cbn [mapiM] in H.
    apply bind_ok_inv in H. destruct H as (u & st1 & Ha & H).
    apply check_argument_ok_inv in Ha. destruct Ha as [Ha ->].
    apply bind_ok_inv in H. destruct H as (us' & st2 & Hr & H).
    apply IH in Hr. destruct Hr as [Hr ->].
    split; [ constructor; assumption | ]. unfold ret in H. congruence.
Qed.

Lemma verifyArgTypes_ok_inv args name nthCall log st s st' :
  verifyArgTypes args name nthCall log st = (Ok s, st') ->
  Forall valid_value args /\ st' = st /\ s = arg_types_text args.
Proof.
  intros H. pose proof H as H0. unfold verifyArgTypes in H.
  apply bind_ok_inv in H. destruct H as (us & st1 & Hm & _).
  apply mapiM_check_ok_inv in Hm. destruct Hm as [Hv ->].
  rewrite (verifyArgTypes_ok args name nthCall log st Hv) in H0.
  split; [ exact Hv | ]. split; congruence.
Qed.

Lemma verifyRetType_ok_inv r name log st t st' :
  verifyRetType r name log st = (Ok t, st') -> valid_value r /\ st' = st.
Proof.
  unfold verifyRetType. intros H.
  apply bind_ok_inv in H. destruct H as (u & st1 & Hu & H).
  apply introspect_ok in Hu. destruct Hu as [Hu ->].
  destruct (invalid_type u) eqn:E.
  - discriminate.
  - split; [ exists u; split; assumption | ]. unfold ret in H. congruence.
Qed.

(** *** The guarded call *)

Lemma dollar_fixed name f st w st' :
  startsWith "..." name = false ->
  dollar (VString name) (VFunction f) st = (Ok w, st') ->
  w = VFunction (Guarded name [] Fix 0 f) /\ st' = st.
Proof.
  intros Hn. unfold dollar. cbn [GUARDED]. rewrite Hn.
  unfold ret. intros H. injection H as <- <-. split; reflexivity.
Qed.

(** A call whose checks pass and whose result is not a function. *)
Lemma handleF_apply_completes f g_length name log p nthCall args st r st1 :
  arity_respected p g_length (length args) ->
  Forall valid_value args ->
  f args st = (Ok r, st1) ->
  typeof r <> TFunction ->
  valid_value r ->
  handleF_apply f g_length name log p nthCall args st
  = (Ok r, push (concat_record log name (arg_types_text args)) st1).
Proof.
  intros Har Hargs Hf Hty (t & Ht & Hv). unfold handleF_apply.
  rewrite (bind_ok _ _ _ _ _ (verifyArity_ok _ _ name _ nthCall log st Har)).
  rewrite (bind_ok _ _ _ _ _ (verifyArgTypes_ok args name nthCall log st Hargs)).
  rewrite (bind_ok _ _ _ _ _ Hf).
  rewrite (bind_ok _ _ _ _ _ (verifyRetType_ok r name log t st1 Ht Hv)).
  destruct r; try reflexivity. exfalso. apply Hty. reflexivity.
Qed.

(** A call whose checks pass and whose result is a function. *)
Lemma handleF_apply_continues f g_length name log p nthCall args st rf st1 :
  arity_respected p g_length (length args) ->
  Forall valid_value args ->
  f args st = (Ok (VFunction rf), st1) ->
  handleF_apply f g_length name log p nthCall args st
  = (Ok (VFunction
           (Guarded (if String.eqb (func_name rf) "" then name else func_name rf)
              (concat_record log name (arg_types_text args)) p (nthCall + 1)
              (defineNameLog rf
                 (if String.eqb (func_name rf) "" then name else func_name rf)
                 (concat_record log name (arg_types_text args))))),
     st1).
Proof.
  intros Har Hargs Hf. unfold handleF_apply.
  rewrite (bind_ok _ _ _ _ _ (verifyArity_ok _ _ name _ nthCall log st Har)).
  rewrite (bind_ok _ _ _ _ _ (verifyArgTypes_ok args name nthCall log st Hargs)).
  rewrite (bind_ok _ _ _ _ _ Hf).
  destruct (function_descriptor_valid rf) as (t & Ht & Hv).
  rewrite (bind_ok _ _ _ _ _ (verifyRetType_ok _ name log t st1 Ht Hv)).
  reflexivity.
Qed.

(** C1 (guard transparency): a function wrapped by [$] in fixed mode,
    called with as many arguments as it declares, all of valid descriptor,
    and answering with a value that is not a function and has a valid
    descriptor, makes the wrapper answer with exactly that value and raise
    nothing; the state is the one the function left, with the record of
    the call put into the history. *)
Theorem guard_transparency name f w st0 st0' args st r st1 :
  dollar (VString name) (VFunction f) st0 = (Ok (VFunction w), st0') ->
  startsWith "..." name = false ->
  length args = func_length f ->
  Forall valid_value args ->
  Call f args st = (Ok r, st1) ->
  typeof r <> TFunction ->
  valid_value r ->
  Call w args st = (Ok r, push (concat_record [] name (arg_types_text args)) st1).
Proof.
  intros Hw Hn Hlen Hargs Hf Hty Hr.
  destruct (dollar_fixed name f st0 _ st0' Hn Hw) as [E _].
  injection E as ->. cbn [Call].
  apply handleF_apply_completes; try assumption.
  simpl. symmetry. exact Hlen.
Qed.

Lemma arg_types_text_commas args : arg_types_text args = commas (length args - 1).
Proof.
  unfold arg_types_text.
  induction args as [ | x [ | y l ] IH ]; [ reflexivity | reflexivity | ].
  change (join ", " (map (fun _ : value => "") (x :: y :: l)))
    with (", " ++ join ", " (map (fun _ : value => "") (y :: l)))%string.
  rewrite IH. simpl. rewrite Nat.sub_0_r. reflexivity.
Qed.


(** C3 (arity): the arity check passes exactly when the declared count
    equals the number of arguments (fixed mode), respectively does not
    exceed it (variadic mode); a violation makes the call raise an
    [ArityError], and the outcome is the same whatever the underlying
    function is: it is not invoked. *)
Theorem arity_checking g_length name log p nthCall args st :
  (arity_respected p g_length (length args) ->
   verifyArity g_length args name p nthCall log st = (Ok tt, st))
  /\
  (~ arity_respected p g_length (length args) ->
   exists msg, forall f,
     handleF_apply f g_length name log p nthCall args st
     = (Throw (mkError ArityError msg), push ["ordinal()"] st)).
Proof.
  split.
  - apply verifyArity_ok.
  - intros H.
    destruct (verifyArity_fails g_length args name p nthCall log H) as [msg Hmsg].
    exists msg. intros f. unfold handleF_apply. apply bind_throw. apply Hmsg.
Qed.

(** Every guarded call that returns has passed its checks and has run
    the function once; its own effect on the state is to record the call,
    and only when the result is not a function. *)
Lemma handleF_apply_ok_inv f g_length name log p nthCall args st v st' :
  handleF_apply f g_length name log p nthCall args st = (Ok v, st') ->
  arity_respected p g_length (length args) /\ Forall valid_value args /\
  exists r st1,
    f args st = (Ok r, st1) /\ valid_value r /\
    ((exists rf name_ target,
        r = VFunction rf /\ st' = st1 /\
        v = VFunction
              (Guarded name_ (concat_record log name (arg_types_text args)) p
                 (nthCall + 1) target))
     \/
     (typeof r <> TFunction /\ v = r /\
      st' = push (concat_record log name (arg_types_text args)) st1)).
Proof.
  unfold handleF_apply. intros H.
  apply bind_ok_inv in H. destruct H as (u & st0 & Ha & H).
  apply verifyArity_ok_inv in Ha. destruct Ha as [Ha ->].
  apply bind_ok_inv in H. destruct H as (s & st0 & Hb & H).
  apply verifyArgTypes_ok_inv in Hb. destruct Hb as (Hb & -> & ->).
  apply bind_ok_inv in H. destruct H as (r & st1 & Hf & H).
  apply bind_ok_inv in H. destruct H as (t & st2 & Hr & H).
  apply verifyRetType_ok_inv in Hr. destruct Hr as [Hr ->].
  split; [ exact Ha | ]. split; [ exact Hb | ].
  exists r, st1. split; [ exact Hf | ]. split; [ exact Hr | ].
  destruct r;
    try (right; unfold bind in H; rewrite setHistory_run in H; unfold ret in H;
         injection H as <- <-; repeat split; discriminate).
  left. unfold ret in H. injection H as <- <-.
  eexists _, _, _. repeat split.
Qed.

Lemma func_length_defineNameLog rf n l :
  func_length (defineNameLog rf n l) = func_length rf.
Proof. induction rf as [ r | n' l' p c t IH ]; simpl; [ reflexivity | exact IH ]. Qed.

Lemma handleF_apply_ext f g g_length name log p nthCall args :
  (forall st, f args st = g args st) ->
  forall st,
    handleF_apply f g_length name log p nthCall args st
    = handleF_apply g g_length name log p nthCall args st.
Proof.
  intros H st. unfold handleF_apply, bind.
  destruct (verifyArity g_length args name p nthCall log st) as [ [ u | e ] s1 ];
    [ | reflexivity ].
  destruct (verifyArgTypes args name nthCall log s1) as [ [ a | e ] s2 ];
    [ | reflexivity ].
  rewrite H. reflexivity.
Qed.

(** Defining [name] and [LOG] on a function does not change what a call
    of it does. *)
Lemma Call_defineNameLog rf n l :
  forall args st, Call (defineNameLog rf n l) args st = Call rf args st.
Proof.
  induction rf as [ r | n' l' p c t IH ]; intros args st.
  - reflexivity.
  - cbn [defineNameLog Call]. rewrite func_length_defineNameLog.
    apply handleF_apply_ext. intros st0. apply IH.
Qed.

(** C7 (curried continuation): in a guarded call whose checks pass, a
    result that is a function comes back behind a new guard proxy: its
    target is the very function that was returned, with [name] and [LOG]
    defined on it, which does not change what a call of it does nor its
    [length]; the guard carries the name of the function (the name of this
    guard when the function has none), the log extended with the record of
    this call, the same mode and the call index plus one; and the state is
    the one the function left: nothing is put into the history.  And
    whenever a guarded call returns, it has put its record into the
    history if its result is not a function, and has left the state to the
    function otherwise. *)
Theorem curried_continuation f g_length name log p nthCall args st :
  (forall rf st1,
     arity_respected p g_length (length args) ->
     Forall valid_value args ->
     f args st = (Ok (VFunction rf), st1) ->
     exists target,
       handleF_apply f g_length name log p nthCall args st
       = (Ok (VFunction
                (Guarded (if String.eqb (func_name rf) "" then name else func_name rf)
                   (log ++ [(name ++ "(" ++ commas (length args - 1) ++ ")")%string])%list
                   p (nthCall + 1) target)),
          st1) /\
       target
       = defineNameLog rf (if String.eqb (func_name rf) "" then name else func_name rf)
           (log ++ [(name ++ "(" ++ commas (length args - 1) ++ ")")%string])%list /\
       func_length target = func_length rf /\
       (forall args' s, Call target args' s = Call rf args' s))
  /\
  (forall v st',
     handleF_apply f g_length name log p nthCall args st = (Ok v, st') ->
     exists r st1,
       f args st = (Ok r, st1) /\
       ((exists rf target,
           r = VFunction rf /\ st' = st1 /\
           v = VFunction
                 (Guarded (if String.eqb (func_name rf) "" then name else func_name rf)
                    (log ++ [(name ++ "(" ++ commas (length args - 1) ++ ")")%string])%list
                    p (nthCall + 1) target) /\
           func_length target = func_length rf /\
           (forall args' s, Call target args' s = Call rf args' s))
        \/
        (typeof r <> TFunction /\ v = r /\
         st' = push (log ++ [(name ++ "(" ++ commas (length args - 1) ++ ")")%string])%list
                 st1))).
Proof.
  split.
  - intros rf st1 Har Hargs Hf. eexists. split; [ | split; [ reflexivity | split ] ].
    + rewrite (handleF_apply_continues _ _ _ _ _ _ _ _ _ _ Har Hargs Hf).
      unfold concat_record. rewrite arg_types_text_commas. reflexivity.
    + apply func_length_defineNameLog.
    + apply Call_defineNameLog.
  - intros v st' H.
    pose proof (handleF_apply_ok_inv _ _ _ _ _ _ _ _ _ _ H)
      as (Har & Hargs & r & st1 & Hf & _ & Hcase).
    exists r, st1. split; [ exact Hf | ].
    destruct Hcase as [ (rf & n & tg & -> & _ & _) | (Hty & -> & ->) ].
    + left.
      rewrite (handleF_apply_continues _ _ _ _ _ _ _ _ _ _ Har Hargs Hf) in H.
      unfold concat_record in H. rewrite arg_types_text_commas in H.
      injection H as <- <-.
      eexists rf, _. split; [ reflexivity | split; [ reflexivity | split ] ].
      * reflexivity.
      * split; [ apply func_length_defineNameLog | apply Call_defineNameLog ].
    + right. unfold concat_record. rewrite arg_types_text_commas.
      split; [ exact Hty | split; reflexivity ].
Qed.

Lemma quiet_bounded {A} (c : M A) st :
  quiet c -> bounded st -> bounded (snd (c st)).
Proof.
  intros (r & rs & Hc & _) B. rewrite Hc. apply bounded_pushes. exact B.
Qed.

(** A guarded call keeps the history bounded when the function does. *)
Lemma handleF_apply_bounded f g_length name log p nthCall args st :
  (forall s, bounded s -> bounded (snd (f args s))) ->
  bounded st ->
  bounded (snd (handleF_apply f g_length name log p nthCall args st)).
Proof.
  intros Hf B. unfold handleF_apply, bind.
  pose proof (quiet_bounded _ st (quiet_verifyArity g_length args name p nthCall log) B) as B1.
  destruct (verifyArity g_length args name p nthCall log st) as [[u | e] s1]; [ | exact B1 ].
  pose proof (quiet_bounded _ s1 (quiet_verifyArgTypes args name nthCall log) B1) as B2.
  destruct (verifyArgTypes args name nthCall log s1) as [[ts | e] s2]; [ | exact B2 ].
  pose proof (Hf s2 B2) as B3.
  destruct (f args s2) as [[r | e] s3]; [ | exact B3 ].
  pose proof (quiet_bounded _ s3 (quiet_verifyRetType r name log) B3) as B4.
  destruct (verifyRetType r name log s3) as [[t | e] s4]; [ | exact B4 ].
  cbn [snd] in B4.
  destruct r; try exact B4; apply bounded_push; exact B4.
Qed.

(** C8 (call history): [setHistory] puts the new record in front and
    keeps at most 10 records: a history of fewer than 10 records takes the
    new one in front and loses nothing, a history of 10 loses its oldest
    record; after any sequence of records, starting from the empty
    history, the history is the sequence in reverse order cut to its last
    10.  A guarded call keeps the bound when its function does, and what a
    call that returns a value has put in front is its record. *)
Theorem history_ring_buffer :
  (forall s st, length (history st) <= 10 -> length (history (push s st)) <= 10)
  /\ (forall s st, length (history st) <= 10 ->
        history (push s st) = firstn 10 (s :: history st))
  /\ (forall s st, length (history st) < 10 ->
        history (push s st) = s :: history st)
  /\ (forall s st, length (history st) = 10 ->
        history (push s st) = s :: removelast (history st))
  /\ (forall rs, history (pushes rs st_empty) = firstn 10 (rev rs))
  /\ (forall rs, length (history (pushes rs st_empty)) <= 10)
  /\ (forall f g_length name log p nthCall args st,
        (forall s, length (history s) <= 10 ->
                   length (history (snd (f args s))) <= 10) ->
        length (history st) <= 10 ->
        length (history (snd (handleF_apply f g_length name log p nthCall args st))) <= 10)
  /\ (forall f g_length name log p nthCall args st v st',
        handleF_apply f g_length name log p nthCall args st = (Ok v, st') ->
        typeof v <> TFunction ->
        exists st1,
          f args st = (Ok v, st1) /\
          (length (history st1) <= 10 ->
           history st'
           = firstn 10
               ((log ++ [(name ++ "(" ++ commas (length args - 1) ++ ")")%string])%list
                :: history st1))).
Proof.
  change 10 with HISTORY_LEN.
  split; [ | split; [ | split; [ | split; [ | split; [ | split; [ | split ] ] ] ] ] ].
  - apply bounded_push.
  - apply history_push.
  - intros s st H. rewrite history_push by (unfold bounded; lia).
    unfold HISTORY_LEN in *. rewrite firstn_cons. f_equal.
    apply firstn_all2. lia.
  - intros s st H. rewrite history_push by (unfold bounded; lia).
    unfold HISTORY_LEN in *. rewrite firstn_cons. f_equal.
    symmetry. apply removelast_firstn_length. exact H.
  - apply history_pushes.
  - intros rs. rewrite history_pushes. apply firstn_le_length.
  - apply handleF_apply_bounded.
  - intros f g_length name log p nthCall args st v st' H Hty.
    apply handleF_apply_ok_inv in H.
    destruct H as (_ & _ & r & st1 & Hf & _ & [ (rf & n & tg & _ & _ & ->) | (_ & -> & ->) ]).
    + exfalso. apply Hty. reflexivity.
    + exists st1. split; [ exact Hf | ].
      unfold concat_record. rewrite arg_types_text_commas. apply history_push.
Qed.

(** *** Arrays *)

Lemma set_add_same T : set_add [T] T = [T].
Proof. unfold set_add. simpl. rewrite String.eqb_refl. reflexivity. Qed.

Lemma set_add_In s x y : In y (set_add s x) <-> In y s \/ y = x.
Proof.
  unfold set_add. destruct (existsb (String.eqb x) s) eqn:E.
  - split; [ auto | ]. intros [H | ->]; [ exact H | ].
    apply existsb_exists in E. destruct E as (z & Hz & Ez).
    apply String.eqb_eq in Ez. subst z. exact Hz.
  - rewrite in_app_iff. simpl. intuition congruence.
Qed.

Lemma fold_set_add_In ts : forall s y,
  In y (fold_left set_add ts s) <-> In y s \/ In y ts.
Proof.
  induction ts as [ | t ts IH ]; intros s y; simpl.
  - tauto.
  - rewrite IH, set_add_In. intuition congruence.
Qed.

Lemma fold_set_add_same T ts :
  Forall (eq T) ts -> fold_left set_add ts [T] = [T].
Proof.
  induction 1 as [ | t ts <- _ IH ]; simpl; [ reflexivity | ].
  rewrite set_add_same. exact IH.
Qed.

Lemma descriptor_set_same T ts :
  ts <> [] -> Forall (eq T) ts -> descriptor_set ts = [T].
Proof.
  intros Hne H. destruct H as [ | t ts <- H ]; [ congruence | ].
  unfold descriptor_set. simpl. apply fold_set_add_same. exact H.
Qed.

Lemma descriptor_set_mixed ts a b :
  In a ts -> In b ts -> a <> b -> (length (descriptor_set ts) =? 1)%nat = false.
Proof.
  intros Ha Hb Hab. apply Nat.eqb_neq. intros L.
  assert (Ia : In a (descriptor_set ts)) by (apply fold_set_add_In; auto).
  assert (Ib : In b (descriptor_set ts)) by (apply fold_set_add_In; auto).
  destruct (descriptor_set ts) as [ | z [ | z' l ] ]; simpl in L; try discriminate.
  simpl in Ia, Ib. intuition congruence.
Qed.

Lemma reduceM_pairs xs ts :
  Forall2 has_descriptor xs ts ->
  forall s acc st,
    reduceM (fun '(s, ts) x =>
               x' <- introspect x ;;
               ret (set_add s x', (ts ++ [x'])%list)) xs (s, acc) st
    = (Ok (fold_left set_add ts s, (acc ++ ts)%list), st).
Proof.
  induction 1 as [ | x t xs ts Hx _ IH ]; intros s acc st.
  - simpl. rewrite app_nil_r. reflexivity.
  - cbn [reduceM].
    rewrite (bind_ok _ _ _ (set_add s t, (acc ++ [t])%list) st).
    + rewrite IH. cbn [fold_left]. rewrite <- app_assoc. reflexivity.
    + rewrite (bind_ok _ _ _ _ _ (Hx st)). reflexivity.
Qed.

Lemma reduceM_set xs ts :
  Forall2 has_descriptor xs ts ->
  forall s st,
    reduceM (fun s x =>
               x' <- introspect x ;;
               ret (set_add s x')) xs s st
    = (Ok (fold_left set_add ts s), st).
Proof.
  induction 1 as [ | x t xs ts Hx _ IH ]; intros s st.
  - reflexivity.
  - cbn [reduceM].
    rewrite (bind_ok _ _ _ (set_add s t) st).
    + rewrite IH. reflexivity.
    + rewrite (bind_ok _ _ _ _ _ (Hx st)). reflexivity.
Qed.

(** What [introspectArr] answers for elements of descriptors [ts]. *)
Lemma introspectArr_run xs ts st :
  Forall2 has_descriptor xs ts ->
  introspect (VArray xs) st =
  (Ok (if (length (descriptor_set ts) =? 1)%nat
       then "[" ++ nth 0 (descriptor_set ts) "undefined" ++ "]"
       else if (Z.of_nat (length xs) <=? MAX_TUP_SIZE)%Z
            then "[" ++ join ", " ts ++ "]"
            else "[?]"), st).
Proof.
  intros H. change (introspect (VArray xs)) with (introspectArrWith introspect xs).
  unfold introspectArrWith.
  destruct (Z.of_nat (length xs) <=? MAX_TUP_SIZE)%Z.
  - rewrite (bind_ok _ _ _ _ _ (reduceM_pairs xs ts H [] [] st)).
    fold (descriptor_set ts). cbn [app].
    destruct (length (descriptor_set ts) =? 1)%nat; reflexivity.
  - rewrite (bind_ok _ _ _ _ _ (reduceM_set xs ts H [] st)).
    fold (descriptor_set ts).
    destruct (length (descriptor_set ts) =? 1)%nat; reflexivity.
Qed.

Lemma Forall2_same_descriptor xs T :
  Forall (fun x => has_descriptor x T) xs ->
  Forall2 has_descriptor xs (repeat T (length xs)).
Proof. induction 1; simpl; constructor; assumption. Qed.

(** C5 (array descriptors): a non-empty array whose elements all have the
    descriptor [T] has the descriptor "[T]"; an array of more than 8
    elements with two distinct element descriptors has "[?]"; an array of
    at most 8 elements with two distinct element descriptors lists the
    descriptors of its elements in order. *)
Theorem array_descriptor_collapse :
  (forall xs T,
      xs <> [] -> Forall (fun x => has_descriptor x T) xs ->
      has_descriptor (VArray xs) ("[" ++ T ++ "]"))
  /\
  (forall xs ts a b,
      Forall2 has_descriptor xs ts -> 8 < length xs ->
      In a ts -> In b ts -> a <> b ->
      has_descriptor (VArray xs) "[?]")
  /\
  (forall xs ts a b,
      Forall2 has_descriptor xs ts -> length xs <= 8 ->
      In a ts -> In b ts -> a <> b ->
      has_descriptor (VArray xs) ("[" ++ join ", " ts ++ "]")).
Proof.
  split; [ | split ].
  - intros xs T Hne H st.
    rewrite (introspectArr_run xs _ st (Forall2_same_descriptor xs T H)).
    rewrite (descriptor_set_same T).
    + reflexivity.
    + destruct xs; [ congruence | discriminate ].
    + clear. induction (length xs); simpl; constructor; auto.
  - intros xs ts a b H L Ha Hb Hab st.
    rewrite (introspectArr_run xs ts st H).
    rewrite (descriptor_set_mixed ts a b Ha Hb Hab).
    assert (E : (Z.of_nat (length xs) <=? MAX_TUP_SIZE)%Z = false).
    { apply Z.leb_gt. unfold MAX_TUP_SIZE. lia. }
    rewrite E. reflexivity.
  - intros xs ts a b H L Ha Hb Hab st.
    rewrite (introspectArr_run xs ts st H).
    rewrite (descriptor_set_mixed ts a b Ha Hb Hab).
    assert (E : (Z.of_nat (length xs) <=? MAX_TUP_SIZE)%Z = true).
    { apply Z.leb_le. unfold MAX_TUP_SIZE. lia. }
    rewrite E. reflexivity.
Qed.

(** *** Records *)

Lemma introspect_record props : introspect (Rec props) = introspectRec props.
Proof. reflexivity. Qed.

(** C4 (totality of [introspect]), at inputs where it fails: a [Rec] with
    a field that holds a symbol makes [introspect] throw a [TypeError], and
    one with a field that holds a boxed number makes it throw a
    [TypeCoercionError] (and leaves the record of [capitalize] in the
    history), because [introspectRec] coerces the fields to text; the plain
    objects with the same fields have descriptors, because [introspectObj]
    takes the descriptors of the fields. *)
Theorem introspect_record_throws st :
  introspect (Rec [("a", VSymbol 0 "s")]) st
  = (Throw (mkError TypeError "Cannot convert a Symbol value to a string"), st)
  /\
  (exists msg,
     introspect (Rec [("n", Sum (Finite 1))]) st
     = (Throw (mkError TypeCoercionError msg), push ["capitalize()"] st))
  /\
  introspect (Obj [("a", VSymbol 0 "s")]) st = (Ok "{String: Symbol}", st)
  /\
  introspect (Obj [("n", Sum (Finite 1))]) st = (Ok "{String: Sum}", st).
Proof.
  split; [ reflexivity | split; [ | split; reflexivity ] ].
  eexists. vm_compute. reflexivity.
Qed.

(** *** Library functions declared with [$] *)

Lemma guarded_apply name len body args :
  exists n p,
    (forall st, guarded name len body args st = handleF_apply body len n [] p 0 args st)
    /\ (length args = len -> arity_respected p len (length args)).
Proof.
  unfold guarded. destruct (startsWith "..." name).
  - exists (slice_from name 3), Var. split; [ reflexivity | ]. simpl. lia.
  - exists name, Fix. split; [ reflexivity | ]. simpl. congruence.
Qed.


(** [ordinal] as it is used while messages are composed is the guarded
    function applied to one finite number. *)
Lemma ordinal_is_guarded body z st :
  (forall st', body [VNumber (Finite z)] st' = (Ok (VString (ordinal_text z)), st')) ->
  guarded "ordinal" 1 body [VNumber (Finite z)] st
  = (s <- ordinal z ;; ret (VString s)) st.
Proof.
  intros Hb. unfold guarded.
  replace (startsWith "..." "ordinal") with false by reflexivity.
  rewrite (handleF_apply_completes body 1 "ordinal" [] Fix 0 _ st
             (VString (ordinal_text z)) st);
    [ reflexivity | reflexivity | | apply Hb | discriminate | ].
  - constructor; [ | constructor ]. exists "Number". split; [ intros ?; reflexivity | reflexivity ].
  - exists "String". split; [ intros ?; reflexivity | reflexivity ].
Qed.

(** [capitalize] likewise, applied to a non-empty text. *)
Lemma capitalize_is_guarded body s r st :
  capitalize_text s = Some r ->
  (forall st', body [VString s] st' = (Ok (VString r), st')) ->
  guarded "capitalize" 1 body [VString s] st
  = (c <- capitalize s ;; ret (VString c)) st.
Proof.
  intros Hs Hb. unfold guarded, capitalize. rewrite Hs.
  replace (startsWith "..." "capitalize") with false by reflexivity.
  rewrite (handleF_apply_completes body 1 "capitalize" [] Fix 0 _ st (VString r) st);
    [ reflexivity | reflexivity | | apply Hb | discriminate | ].
  - constructor; [ | constructor ]. exists "String". split; [ intros ?; reflexivity | reflexivity ].
  - exists "String". split; [ intros ?; reflexivity | reflexivity ].
Qed.


(** *** Overloading *)

Lemma map_get_set m k v :
  sameValueZero k k = true -> map_get (map_set m k v) k = v.
Proof.
  intros Hk. induction m as [ | [k' v'] m IH ]; simpl.
  - rewrite Hk. reflexivity.
  - destruct (sameValueZero k' k) eqn:E; simpl; rewrite E; [ reflexivity | exact IH ].
Qed.

Lemma map_set_set m k v1 v2 :
  sameValueZero k k = true -> map_set (map_set m k v1) k v2 = map_set m k v2.
Proof.
  intros Hk. induction m as [ | [k' v'] m IH ]; simpl.
  - rewrite Hk. reflexivity.
  - destruct (sameValueZero k' k) eqn:E; simpl; rewrite E; [ reflexivity | ].
    rewrite IH. reflexivity.
Qed.

Lemma length_list_update {A} (l : list A) i x : length (list_update l i x) = length l.
Proof.
  revert i. induction l as [ | y l IH ]; intros [ | i ]; simpl; auto.
Qed.

Lemma nth_list_update {A} (l : list A) i x d :
  i < length l -> nth i (list_update l i x) d = x.
Proof.
  revert i. induction l as [ | y l IH ]; intros [ | i ] H; simpl in *; try lia.
  - reflexivity.
  - apply IH. lia.
Qed.

(** What a successful registration does to the state. *)
Lemma overloadAdd_ok_inv o k v st r st' :
  overloadAdd o [k; v] st = (Ok r, st') ->
  valid_value k /\ valid_value v /\
  maps st' = list_update (maps st) (ov_pairs o)
               (map_set (nth (ov_pairs o) (maps st) []) k v).
Proof.
  unfold overloadAdd. intros H.
  destruct (guarded_apply (ov_name o ++ "Add") 2 (overloadAdd_body o) [k; v])
    as (n & p & Hg & _).
  rewrite Hg in H. apply handleF_apply_ok_inv in H.
  destruct H as (_ & Hargs & r' & st1 & Hb & _ & Hcase).
  inversion Hargs as [ | ? ? Hk Hrest ]; subst.
  inversion Hrest as [ | ? ? Hv _ ]; subst.
  split; [ exact Hk | ]. split; [ exact Hv | ].
  unfold overloadAdd_body, pairs_set in Hb. cbn [nth] in Hb.
  injection Hb as <- <-.
  destruct Hcase as [ (rf & ? & ? & Hr & _) | (_ & _ & ->) ]; [ discriminate | ].
  rewrite maps_push. reflexivity.
Qed.


(** *** [aux] reaches the text that no round changes *)

(** A replacement either changes nothing or shortens the text. *)
Lemma replace_group_shrinks o c s : forall pending,
  (forall q, pending = Some q -> 1 <= String.length q) ->
  replace_group o c s pending = (flush pending ++ s)%string \/
  String.length (replace_group o c s pending)
  < String.length (flush pending) + String.length s.
Proof.
  induction s as [ | a s IH ]; intros pending Hp; cbn [replace_group].
  - left. now rewrite string_append_nil.
  - destruct (Ascii.eqb a o).
    + destruct (IH (Some (String a ""))) as [E | L].
      * intros q [= <-]. simpl. lia.
      * left. rewrite E. reflexivity.
      * right. rewrite string_length_append. simpl in *. lia.
    + destruct (Ascii.eqb a c).
      * destruct pending as [q | ].
        -- right. specialize (Hp q eq_refl).
           destruct (IH None) as [E | L]; [ discriminate | | ].
           ++ rewrite E. simpl. lia.
           ++ simpl in *. lia.
        -- destruct (IH None) as [E | L]; [ discriminate | | ].
           ++ left. rewrite E. reflexivity.
           ++ right. simpl in *. lia.
      * destruct pending as [q | ].
        -- destruct (IH (Some (q ++ String a "")%string)) as [E | L].
           ++ intros q' [= <-]. rewrite string_length_append. simpl. lia.
           ++ left. rewrite E. simpl. now rewrite string_append_assoc.
           ++ right. simpl in *. rewrite string_length_append in L. simpl in L. lia.
        -- destruct (IH None) as [E | L]; [ discriminate | | ].
           ++ left. rewrite E. reflexivity.
           ++ right. simpl in *. lia.
Qed.

Lemma replace_group_none o c s :
  replace_group o c s None = s \/
  String.length (replace_group o c s None) < String.length s.
Proof.
  destruct (replace_group_shrinks o c s None) as [E | L]; [ discriminate | | ].
  - left. exact E.
  - right. exact L.
Qed.

Lemma aux_step_shrinks s :
  aux_step s = s \/ String.length (aux_step s) < String.length s.
Proof.
  unfold aux_step.
  destruct (replace_group_none "[" "]" s) as [E1 | L1];
  destruct (replace_group_none "{" "}" (replace_group "[" "]" s None)) as [E2 | L2];
  destruct (replace_group_none "<" ">"
              (replace_group "{" "}" (replace_group "[" "]" s None) None)) as [E3 | L3];
  try (left; congruence);
  right; rewrite ?E3, ?E2, ?E1 in *; lia.
Qed.

Lemma aux_fuel_fixed fuel : forall s,
  String.length s <= fuel -> aux_step (aux_fuel fuel s) = aux_fuel fuel s.
Proof.
  induction fuel as [ | fuel IH ]; intros s H.
  - destruct s; [ reflexivity | simpl in H; lia ].
  - cbn [aux_fuel]. destruct (String.eqb (aux_step s) s) eqn:E.
    + apply String.eqb_eq in E. rewrite E. exact E.
    + apply String.eqb_neq in E.
      destruct (aux_step_shrinks s) as [E' | L]; [ contradiction | ].
      apply IH. lia.
Qed.

(** The rounds allowed to [aux] are enough: its answer is a text that a
    further round leaves as it is. *)
Lemma aux_reaches_fixed_point s : aux_step (aux s) = aux s.
Proof. apply aux_fuel_fixed. constructor. Qed.

(** *** Homogeneous arrays *)

Lemma reduceM_ok_Forall {A B} (f : B -> A -> M B) (P : A -> Prop) l :
  (forall acc x st b st', f acc x st = (Ok b, st') -> P x) ->
  forall acc st b st', reduceM f l acc st = (Ok b, st') -> Forall P l.
Proof.
  intros Hf. induction l as [ | x l IH ]; intros acc st b st' H.
  - constructor.
  - cbn [reduceM] in H. apply bind_ok_inv in H.
    destruct H as (acc' & st1 & Hx & H). constructor.
    + eapply Hf. exact Hx.
    + eapply IH. exact H.
Qed.

Lemma array_elements_described xs t :
  has_descriptor (VArray xs) t ->
  Forall (fun x => exists u, has_descriptor x u) xs.
Proof.
  intros H. specialize (H st_empty).
  change (introspect (VArray xs)) with (introspectArrWith introspect xs) in H.
  unfold introspectArrWith in H.
  destruct (Z.of_nat (length xs) <=? MAX_TUP_SIZE)%Z;
    apply bind_ok_inv in H; destruct H as (acc & st1 & H & _);
    (eapply reduceM_ok_Forall; [ | exact H ]).
  - intros [s ts] x st b st' Hx. apply bind_ok_inv in Hx.
    destruct Hx as (u & st2 & Hu & _). apply introspect_ok in Hu.
    exists u. apply Hu.
  - intros s x st b st' Hx. apply bind_ok_inv in Hx.
    destruct Hx as (u & st2 & Hu & _). apply introspect_ok in Hu.
    exists u. apply Hu.
Qed.

Lemma elements_described xs :
  Forall (fun x => exists t, has_descriptor x t) xs ->
  exists ts, Forall2 has_descriptor xs ts.
Proof.
  induction 1 as [ | x xs (t & Ht) _ (ts & IH) ].
  - exists []. constructor.
  - exists (t :: ts). constructor; assumption.
Qed.

Lemma array_described xs :
  Forall (fun x => exists t, has_descriptor x t) xs ->
  exists t, has_descriptor (VArray xs) t.
Proof.
  intros H. destruct (elements_described xs H) as (ts & Hts).
  eexists. intros st. apply (introspectArr_run xs ts st Hts).
Qed.

Lemma Forall_list_update {A} (P : A -> Prop) l i x :
  Forall P l -> P x -> Forall P (list_update l i x).
Proof.
  intros Hl Hx. revert i. induction Hl as [ | y l Hy Hl IH ]; intros [ | i ]; simpl;
    constructor; auto.
Qed.

Lemma array_store_described es i v :
  Forall (fun x => exists t, has_descriptor x t) es ->
  (exists t, has_descriptor v t) ->
  Forall (fun x => exists t, has_descriptor x t) (array_store es i v).
Proof.
  intros He Hv. unfold array_store. destruct (i <? length es)%nat.
  - apply Forall_list_update; assumption.
  - apply Forall_app. split; [ exact He | ]. apply Forall_app. split.
    + apply Forall_forall. intros x Hx. apply repeat_spec in Hx. subst x.
      exists "Undefined". intros st. reflexivity.
    + constructor; [ exact Hv | constructor ].
Qed.

Lemma nth_array_store es i v :
  i <= length es -> nth i (array_store es i v) VUndefined = v.
Proof.
  intros H. unfold array_store. destruct (i <? length es)%nat eqn:E.
  - apply Nat.ltb_lt in E. apply nth_list_update. exact E.
  - apply Nat.ltb_ge in E. assert (i = length es) by lia. subst i.
    rewrite Nat.sub_diag. cbn [repeat app].
    rewrite app_nth2 by lia. rewrite Nat.sub_diag. reflexivity.
Qed.

(** The index is beyond the end: the gap is refused. *)
Lemma setArr_gap xs i v t st :
  length xs < i ->
  exists msg,
    setArr xs i v t st
    = (Throw (mkError TypeError msg), push ["ordinal()"] st).
Proof.
  intros H. unfold setArr.
  assert (E : (length xs <? i)%nat = true) by (apply Nat.ltb_lt; exact H).
  rewrite E. eexists. reflexivity.
Qed.

(** The index is in range and the descriptor fits: the value is stored. *)
Lemma setArr_stores xs i v T t st :
  i <= length xs -> has_descriptor v T -> ("[" ++ T ++ "]")%string = t ->
  setArr xs i v t st = (Ok (array_store xs i v), st).
Proof.
  intros H Hv Ht. unfold setArr.
  assert (E : (length xs <? i)%nat = false) by (apply Nat.ltb_ge; exact H).
  rewrite E. rewrite (bind_ok _ _ _ tt st).
  - reflexivity.
  - rewrite (bind_ok _ _ _ _ _ (Hv st)).
    apply String.eqb_eq in Ht. rewrite Ht. reflexivity.
Qed.

(** The index is in range and the descriptor does not fit: a [TypeError],
    when the array itself has a descriptor for the message. *)
Lemma setArr_mismatch xs i v T t st txs :
  i <= length xs -> has_descriptor v T -> ("[" ++ T ++ "]")%string <> t ->
  has_descriptor (VArray xs) txs ->
  exists msg, setArr xs i v t st = (Throw (mkError TypeError msg), st).
Proof.
  intros H Hv Ht Hxs. unfold setArr.
  assert (E : (length xs <? i)%nat = false) by (apply Nat.ltb_ge; exact H).
  rewrite E. eexists. apply bind_throw.
  rewrite (bind_ok _ _ _ _ _ (Hv st)).
  apply String.eqb_neq in Ht. rewrite Ht. cbn [negb].
  rewrite (bind_ok _ _ _ _ _ (Hxs st)).
  rewrite (bind_ok _ _ _ _ _ (Hv st)). reflexivity.
Qed.

(** What [Arr] answers with for an [Array]. *)
Lemma Arr_array_inv xs st q st' :
  Arr (VArray xs) st = (Ok (Proxied q), st') ->
  target q = xs /\ has_descriptor (VArray xs) (fixed q).
Proof.
  unfold Arr. cbn [GUARDED isArray]. intros H.
  apply bind_ok_inv in H. destruct H as (t & st1 & Ht & H).
  apply introspect_ok in Ht. destruct Ht as [Ht ->].
  apply bind_ok_inv in H. destruct H as (r & st2 & _ & H).
  apply bind_ok_inv in H. destruct H as (r' & st3 & _ & H).
  destruct (has_question_or_comma r').
  - apply bind_ok_inv in H. destruct H as (t' & st4 & _ & H). discriminate.
  - unfold ret in H. injection H as <- _. split; [ reflexivity | exact Ht ].
Qed.

Lemma Arr_proxy_over_array xs st q st' :
  Arr (VArray xs) st = (Ok (Proxied q), st') -> proxy_over_array q.
Proof.
  intros H. apply Arr_array_inv in H. destruct H as [Ht Hd].
  unfold proxy_over_array. rewrite Ht.
  eapply array_elements_described. exact Hd.
Qed.

(** C9 (array proxy), as the code has it.  Through a proxy over an array
    of ordinary elements (not frozen, no element made read-only), an
    assignment at an index up to the length of a value whose descriptor
    [T] makes "[T]" the fixed descriptor is accepted and stores the value;
    one of a value whose descriptor does not is refused with a [TypeError]
    (not an [ArgTypeError]); one at an index beyond the length is refused
    with a [TypeError]; and [Arr] builds such proxies from arrays. *)
Theorem array_proxy_mutation p i st :
  proxy_over_array p ->
  (forall v T,
     has_descriptor v T ->
     i <= length (target p) -> ("[" ++ T ++ "]")%string = fixed p ->
     exists p',
       handleArr_set p i v st = (Ok p', st) /\
       fixed p' = fixed p /\
       handleArr_get p' i = v /\
       target p' = array_store (target p) i v /\
       proxy_over_array p')
  /\
  (forall v T,
     has_descriptor v T ->
     i <= length (target p) -> ("[" ++ T ++ "]")%string <> fixed p ->
     exists msg,
       handleArr_set p i v st = (Throw (mkError TypeError msg), st))
  /\
  (forall v,
     length (target p) < i ->
     exists msg,
       handleArr_set p i v st
       = (Throw (mkError TypeError msg), push ["ordinal()"] st))
  /\
  (forall xs s0 q s1,
     Arr (VArray xs) s0 = (Ok (Proxied q), s1) ->
     proxy_over_array q /\ has_descriptor (VArray xs) (fixed q) /\
     target q = xs).
Proof.
  intros Hel. split; [ | split; [ | split ] ].
  - intros v T Hv Hi Ht.
    exists (mkProxy (array_store (target p) i v) (fixed p)).
    unfold handleArr_set.
    rewrite (bind_ok _ _ _ _ _ (setArr_stores _ i v T _ st Hi Hv Ht)).
    split; [ reflexivity | ]. split; [ reflexivity | ].
    cbn [handleArr_get target].
    split; [ apply nth_array_store; exact Hi | ]. split; [ reflexivity | ].
    unfold proxy_over_array. cbn [target].
    apply array_store_described; [ exact Hel | exists T; exact Hv ].
  - intros v T Hv Hi Ht. unfold handleArr_set.
    destruct (array_described _ Hel) as (txs & Htxs).
    destruct (setArr_mismatch _ i v T _ st txs Hi Hv Ht Htxs) as (msg & Hm).
    exists msg. apply bind_throw. exact Hm.
  - intros v Hi. unfold handleArr_set.
    destruct (setArr_gap (target p) i v (fixed p) st Hi) as (msg & Hm).
    exists msg. apply bind_throw. exact Hm.
  - intros xs s0 q s1 H. split; [ eapply Arr_proxy_over_array; exact H | ].
    apply Arr_array_inv in H. destruct H as [Ht Hd].
    split; [ exact Hd | exact Ht ].
Qed.

(** C10 (the empty array), as the code has it: [Arr([])] answers with a
    proxy of fixed descriptor "[]"; through a proxy of that fixed
    descriptor, every assignment at an index is refused, unless the value
    assigned has the empty text for descriptor. *)
Theorem empty_array_proxy :
  (forall st, exists st', Arr (VArray []) st = (Ok (Proxied empty_proxy), st'))
  /\
  (forall p i v st,
     fixed p = "[]" ->
     (forall st1, introspect v st <> (Ok "", st1)) ->
     exists e st2, handleArr_set p i v st = (Throw e, st2)).
Proof.
  split.
  - intros st. eexists. reflexivity.
  - intros p i v st Hf Hv. unfold handleArr_set, setArr. rewrite Hf.
    destruct (length (target p) <? i)%nat.
    + eexists _, _. apply bind_throw. apply bind_throw. reflexivity.
    + assert (Hne : forall T st1, introspect v st = (Ok T, st1) -> T <> "").
      { intros T st1 E ->. exact (Hv st1 E). }
      clear Hv.
      destruct (introspect v st) as [[T | e] st1] eqn:Ev.
      * pose proof (introspect_ok v st T st1 Ev) as [HT ->].
        assert (N : String.eqb ("[" ++ T ++ "]") "[]" = false).
        { apply String.eqb_neq. intros E. apply (Hne T st eq_refl).
          destruct T as [ | a T ]; [ reflexivity | ].
          simpl in E. injection E as _ E. destruct T; discriminate. }
        destruct (introspect (VArray (target p)) st) as [[txs | e] st2] eqn:Ex.
        -- eexists _, _. apply bind_throw. apply bind_throw.
           rewrite (bind_ok _ _ _ _ _ Ev). rewrite N. cbn [negb].
           rewrite (bind_ok _ _ _ _ _ Ex).
           pose proof (introspect_ok _ _ _ _ Ex) as [_ ->].
           rewrite (bind_ok _ _ _ _ _ Ev). reflexivity.
        -- eexists _, _. apply bind_throw. apply bind_throw.
           rewrite (bind_ok _ _ _ _ _ Ev). rewrite N. cbn [negb].
           apply bind_throw. exact Ex.
      * eexists _, _. apply bind_throw. apply bind_throw. apply bind_throw. exact Ev.
Qed.

(** *** Further properties of [introspect] and of the guard *)

(** X1. [introspect] does not read the state: on a given value its outcome
    is the same in every state.  When it answers it leaves the state as it
    was; when it throws, all it has done to the state is to add records to
    the call history (a forbidden coercion calls the guarded
    [capitalize]); the private maps are never touched. *)
Theorem introspect_state_independent x :
  exists r rs,
    (forall st, introspect x st = (r, pushes rs st)) /\
    (forall t, r = Ok t -> rs = []) /\
    (forall st, maps (snd (introspect x st)) = maps st).
Proof.
  destruct (quiet_introspect x) as (r & rs & H & Hok).
  exists r, rs. split; [ exact H | split; [ exact Hok | ] ].
  intros st. rewrite H. simpl. apply maps_pushes.
Qed.

Lemma valid_value_not_invalid v :
  valid_value v ->
  v <> VUndefined /\ v <> VNumber NaN /\
  v <> VNumber PosInfinity /\ v <> VNumber NegInfinity.
Proof.
  intros (t & Ht & Hv).
  repeat split; intros ->; specialize (Ht st_empty); cbv in Ht;
    injection Ht as <-; discriminate Hv.
Qed.

(** X2. A call through a guard proxy that returns has passed every check:
    the arity rule held, every argument had a valid descriptor, and the
    value returned has one too; a guarded function never hands out
    [undefined], [NaN] or an infinity. *)
Theorem guarded_call_sound name log p nthCall target args st v st' :
  Call (Guarded name log p nthCall target) args st = (Ok v, st') ->
  arity_respected p (func_length target) (length args) /\
  Forall valid_value args /\
  valid_value v /\
  v <> VUndefined /\ v <> VNumber NaN /\
  v <> VNumber PosInfinity /\ v <> VNumber NegInfinity.
Proof.
  intros H. cbn [Call] in H.
  destruct (handleF_apply_ok_inv _ _ _ _ _ _ _ _ _ _ H)
    as (Ha & Hargs & r & st1 & _ & Hr & Hcase).
  assert (Hv : valid_value v).
  { destruct Hcase as [ (rf & n_ & tg & _ & _ & ->) | (_ & -> & _) ].
    - apply function_descriptor_valid.
    - exact Hr. }
  split; [ exact Ha | split; [ exact Hargs | split; [ exact Hv | ] ] ].
  apply valid_value_not_invalid. exact Hv.
Qed.

(** X3. Currying composes.  When a guarded function answers with a
    function, calling the continuation it hands out runs that function on
    the new arguments under the same checking mode, and the record that
    ends up in the history lists both steps: the record of the first call,
    then the record of the second under the name of the continuation (the
    name of the guard when the inner function has none). *)
Theorem curried_chain f g_length name log p nthCall args1 args2 st rf st1 r st2 :
  arity_respected p g_length (length args1) ->
  Forall valid_value args1 ->
  f args1 st = (Ok (VFunction rf), st1) ->
  arity_respected p (func_length rf) (length args2) ->
  Forall valid_value args2 ->
  Call rf args2 st1 = (Ok r, st2) ->
  typeof r <> TFunction ->
  valid_value r ->
  exists w,
    handleF_apply f g_length name log p nthCall args1 st = (Ok (VFunction w), st1) /\
    Call w args2 st1
    = (Ok r,
       push (concat_record (concat_record log name (arg_types_text args1))
               (if String.eqb (func_name rf) "" then name else func_name rf)
               (arg_types_text args2)) st2).
Proof.
  intros Ha1 Hv1 Hf Ha2 Hv2 Hc Hnf Hr.
  eexists. split.
  - apply handleF_apply_continues; eassumption.
  - cbn [Call]. rewrite func_length_defineNameLog.
    apply handleF_apply_completes; try assumption.
    rewrite Call_defineNameLog. exact Hc.
Qed.

(** X4. The record of a guarded call never shows the types of its
    arguments: [verifyArgTypes] maps a callback that returns nothing, so
    the text between the parentheses is one [", "] per argument after the
    first, whatever the arguments are.  This is the record pushed to the
    history when the call returns a value, and the last entry of the call
    log that the guard of the continuation carries when it returns a
    function. *)
Theorem call_record_lists_no_types f g_length name log p nthCall args st v st' :
  handleF_apply f g_length name log p nthCall args st = (Ok v, st') ->
  (typeof v <> TFunction ->
   exists st1,
     f args st = (Ok v, st1) /\
     st' = push (log ++ [(name ++ "(" ++ commas (length args - 1) ++ ")")%string])%list st1)
  /\
  (forall w, v = VFunction w ->
     exists name_ target,
       w = Guarded name_
             (log ++ [(name ++ "(" ++ commas (length args - 1) ++ ")")%string])%list
             p (nthCall + 1) target).
Proof.
  intros H.
  destruct (handleF_apply_ok_inv _ _ _ _ _ _ _ _ _ _ H)
    as (_ & _ & r & st1 & Hf & _ & Hcase).
  unfold concat_record in Hcase. rewrite arg_types_text_commas in Hcase.
  split.
  - intros Hnf.
    destruct Hcase as [ (rf & n_ & tg & _ & _ & ->) | (_ & -> & ->) ].
    + exfalso. apply Hnf. reflexivity.
    + exists st1. split; [ exact Hf | reflexivity ].
  - intros w ->.
    destruct Hcase as [ (rf & n_ & tg & _ & _ & Hv) | (Hnf & <- & _) ].
    + injection Hv as ->. exists n_, tg. reflexivity.
    + exfalso. apply Hnf. reflexivity.
Qed.


Lemma handleF_apply_rejects_argument f g_length name log p nthCall pre a post t st :
  arity_respected p g_length (length (pre ++ a :: post)) ->
  Forall valid_value pre ->
  has_descriptor a t ->
  invalid_type t = true ->
  handleF_apply f g_length name log p nthCall (pre ++ a :: post) st
  = (Throw (mkError ArgTypeError (arg_type_message name t nthCall (length pre) log)),
     pushes [ ["ordinal()"]; ["ordinal()"] ] st).
Proof.
  intros Ha Hpre Hd Hi. unfold handleF_apply.
  rewrite (bind_ok _ _ _ _ _ (verifyArity_ok _ _ name _ nthCall log st Ha)).
  apply bind_throw. apply verifyArgTypes_first_invalid; assumption.
Qed.


(** *** The ordinal of a number *)

(** X6. [ordinal] writes a safe integer followed by its English suffix:
    "th" for the numbers that end in 11, 12 or 13, else "st", "nd", "rd"
    after a last digit 1, 2, 3, and "th" in every other case; a negative
    number always takes "th". *)
Theorem ordinal_text_english n :
  ((0 <= n <= 2 ^ 53)%Z -> ordinal_text n = show_Z n ++ english_suffix n)
  /\
  ((- 2 ^ 53 <= n < 0)%Z -> ordinal_text n = show_Z n ++ "th").
Proof.
  split; intros Hn.
  - apply ordinal_text_nonneg. lia.
  - apply ordinal_text_negative. lia.
Qed.

(** *** More on [aux] *)

Lemma aux_fuel_length fuel : forall s,
  String.length (aux_fuel fuel s) <= String.length s.
Proof.
  induction fuel as [ | fuel IH ]; intros s; simpl; [ lia | ].
  destruct (aux_step_shrinks s) as [ E | L ].
  - rewrite E. rewrite String.eqb_refl. lia.
  - destruct (String.eqb (aux_step s) s); [ lia | ].
    specialize (IH (aux_step s)). lia.
Qed.

(** X7. [aux], the loop of [replaceNestings] that replaces innermost
    bracket groups until nothing changes, comes to an end on every text:
    what it returns is left unchanged by one more round of replacements and
    is never longer than the text it was given. *)
Theorem aux_settles s :
  aux_step (aux s) = aux s /\ String.length (aux s) <= String.length s.
Proof.
  split; [ apply aux_reaches_fixed_point | apply aux_fuel_length ].
Qed.

(** *** [replaceNestings] and what [Arr] accepts *)

Lemma replace_group_no_opening o c s :
  is_opening o = true -> no_opening s = true -> replace_group o c s None = s.
Proof.
  intros Ho. induction s as [ | a s IH ]; intros Hs; [ reflexivity | ].
  simpl in Hs. apply andb_true_iff in Hs. destruct Hs as [Ha Hs].
  cbn [replace_group].
  destruct (Ascii.eqb a o) eqn:E.
  - apply Ascii.eqb_eq in E. subst a. rewrite Ho in Ha. discriminate.
  - rewrite (IH Hs). destruct (Ascii.eqb a c); reflexivity.
Qed.

Lemma aux_no_opening s : no_opening s = true -> aux s = s.
Proof.
  intros Hs.
  assert (E : aux_step s = s).
  { unfold aux_step.
    rewrite (replace_group_no_opening "[" "]" s eq_refl Hs).
    rewrite (replace_group_no_opening "{" "}" s eq_refl Hs).
    apply (replace_group_no_opening "<" ">" s eq_refl Hs). }
  unfold aux. destruct (String.length s); simpl; [ reflexivity | ].
  rewrite E. rewrite String.eqb_refl. reflexivity.
Qed.

Lemma last_char_append s b : last_char (s ++ String b "") = Some b.
Proof.
  induction s as [ | a s IH ]; [ reflexivity | ].
  destruct s as [ | a' s ]; [ reflexivity | exact IH ].
Qed.

Lemma substring_prefix s t : substring 0 (String.length s) (s ++ t) = s.
Proof.
  induction s as [ | a s IH ]; simpl.
  - destruct t; reflexivity.
  - now rewrite IH.
Qed.

Lemma slice_strip a inner b : slice (String a (inner ++ String b "")) 1 (-1) = inner.
Proof.
  unfold slice. cbn [String.length]. rewrite string_length_append. cbn [String.length].
  change (1 <? 0)%Z with false. change (-1 <? 0)%Z with true. cbv iota.
  rewrite Z.min_l by lia. rewrite Z.max_l by lia.
  replace (Z.to_nat 1) with 1 by reflexivity.
  replace (Z.to_nat (Z.of_nat (S (String.length inner + 1)) + -1 - 1))
    with (String.length inner) by lia.
  cbn [substring]. apply substring_prefix.
Qed.

Lemma match_brackets_wrapped inner :
  match_brackets ("[" ++ inner ++ "]") = Some ["["; "]"].
Proof.
  unfold match_brackets.
  change ("[" ++ inner ++ "]")%string with ((String "[" inner) ++ String "]" "")%string.
  rewrite last_char_append. reflexivity.
Qed.

Lemma has_question_or_comma_append a b :
  has_question_or_comma (a ++ b) = has_question_or_comma a || has_question_or_comma b.
Proof.
  induction a as [ | c a IH ]; simpl; [ reflexivity | ].
  rewrite IH. now rewrite !orb_assoc.
Qed.

(** On a text in square brackets [replaceNestings] keeps the brackets and
    puts [aux] of the inside between them. *)
Lemma replaceNestings_wrapped inner st :
  replaceNestings (VString ("[" ++ inner ++ "]")) st
  = (Ok (VString ("[" ++ aux inner ++ "]")), push ["replaceNestings()"] st).
Proof.
  unfold replaceNestings, guarded.
  replace (startsWith "..." "replaceNestings") with false by reflexivity.
  apply (handleF_apply_completes replaceNestings_body 1 "replaceNestings" [] Fix 0
           [VString ("[" ++ inner ++ "]")] st (VString ("[" ++ aux inner ++ "]")) st).
  - reflexivity.
  - constructor; [ | constructor ].
    exists "String". split; [ intros s; reflexivity | reflexivity ].
  - unfold replaceNestings_body. cbn [nth].
    rewrite match_brackets_wrapped. cbn [length Nat.eqb nth].
    change ("[" ++ inner ++ "]")%string with (String "[" (inner ++ String "]" "")).
    rewrite slice_strip. reflexivity.
  - discriminate.
  - exists "String". split; [ intros s; reflexivity | reflexivity ].
Qed.


Lemma Arr_run xs inner st :
  has_descriptor (VArray xs) ("[" ++ inner ++ "]") ->
  Arr (VArray xs) st
  = if has_question_or_comma (aux inner)
    then (Throw (mkError ArgTypeError
                   ("invalid argument type"
                    ++ nl ++ nl ++ "Arr expects an homogeneous Array"
                    ++ nl ++ nl ++ "on the 1st call"
                    ++ nl ++ nl ++ "in the 1st argument"
                    ++ nl ++ nl ++ "but " ++ ("[" ++ inner ++ "]") ++ " received" ++ nl)),
          push ["replaceNestings()"] st)
    else (Ok (Proxied (mkProxy xs ("[" ++ inner ++ "]"))),
          push ["replaceNestings()"] st).
Proof.
  intros Ht. unfold Arr. cbn [GUARDED isArray].
  rewrite (bind_ok _ _ _ _ _ (Ht st)).
  rewrite (bind_ok _ _ _ _ _ (replaceNestings_wrapped inner st)).
  rewrite (bind_ok _ _ (push ["replaceNestings()"] st) ("[" ++ aux inner ++ "]")
             (push ["replaceNestings()"] st) eq_refl).
  change ("[" ++ aux inner ++ "]")%string with (String "[" (aux inner ++ "]")).
  cbn [has_question_or_comma]. rewrite has_question_or_comma_append.
  cbn [Ascii.eqb Bool.eqb orb has_question_or_comma].
  rewrite orb_false_r.
  destruct (has_question_or_comma (aux inner)); [ | reflexivity ].
  rewrite (bind_ok _ _ _ _ _ (Ht (push ["replaceNestings()"] st))). reflexivity.
Qed.


Lemma no_opening_append a b :
  no_opening (a ++ b) = no_opening a && no_opening b.
Proof.
  induction a as [ | c a IH ]; simpl; [ reflexivity | ].
  rewrite IH. now rewrite andb_assoc.
Qed.

Lemma no_opening_join ts :
  Forall (fun t => simple t = true) ts -> no_opening (join ", " ts) = true.
Proof.
  induction 1 as [ | t ts Ht _ IH ]; [ reflexivity | ].
  apply andb_true_iff in Ht. destruct Ht as [Ht _].
  destruct ts as [ | u ts ]; [ exact Ht | ].
  change (join ", " (t :: u :: ts)) with (t ++ ", " ++ join ", " (u :: ts))%string.
  rewrite !no_opening_append. rewrite Ht, IH. reflexivity.
Qed.

Lemma all_equal_head (ts : list string) :
  (forall a b, In a ts -> In b ts -> a = b) -> Forall (eq (hd "" ts)) ts.
Proof.
  intros H. destruct ts as [ | t ts ]; [ constructor | ].
  apply Forall_forall. intros x Hx. apply H; [ left; reflexivity | exact Hx ].
Qed.

Lemma two_distinct_members (ts : list string) a b :
  In a ts -> In b ts -> a <> b -> exists x y rest, ts = x :: y :: rest.
Proof.
  intros Ha Hb Hab. destruct ts as [ | x [ | y rest ] ].
  - destruct Ha.
  - destruct Ha as [ <- | [] ]. destruct Hb as [ <- | [] ]. congruence.
  - eexists _, _, _. reflexivity.
Qed.

(** X9. On an array whose elements have simple descriptors (no bracket,
    no question mark, no comma: primitives, functions, tagged objects)
    [Arr] accepts exactly the homogeneous ones: when all the descriptors
    are one and the same [T] (or the array is empty) the proxy is built
    with the fixed type "[T]"; when two elements differ the array is
    refused with an [ArgTypeError], whatever its length. *)
Theorem Arr_on_simple_elements xs ts st :
  Forall2 has_descriptor xs ts ->
  Forall (fun t => simple t = true) ts ->
  ((forall a b, In a ts -> In b ts -> a = b) ->
   Arr (VArray xs) st
   = (Ok (Proxied (mkProxy xs ("[" ++ hd "" ts ++ "]"))),
      push ["replaceNestings()"] st))
  /\
  (forall a b,
     In a ts -> In b ts -> a <> b ->
     exists msg,
       Arr (VArray xs) st
       = (Throw (mkError ArgTypeError msg), push ["replaceNestings()"] st)).
Proof.
  intros Hts Hs. split.
  - intros Heq.
    assert (Hd : has_descriptor (VArray xs) ("[" ++ hd "" ts ++ "]")).
    { intros s. rewrite (introspectArr_run xs ts s Hts).
      destruct ts as [ | t ts ].
      - inversion Hts. subst. reflexivity.
      - rewrite (descriptor_set_same t (t :: ts));
          [ reflexivity | discriminate | exact (all_equal_head _ Heq) ]. }
    rewrite (Arr_run xs _ st Hd).
    assert (Hh : simple (hd "" ts) = true).
    { destruct ts as [ | t ts ]; [ reflexivity | ]. inversion Hs. assumption. }
    apply andb_true_iff in Hh. destruct Hh as [Hno Hqc].
    rewrite (aux_no_opening _ Hno).
    apply negb_true_iff in Hqc. rewrite Hqc. reflexivity.
  - intros a b Ha Hb Hab.
    assert (Hd : exists inner,
               has_descriptor (VArray xs) ("[" ++ inner ++ "]") /\
               has_question_or_comma (aux inner) = true).
    { destruct (Z.of_nat (length xs) <=? MAX_TUP_SIZE)%Z eqn:L.
      - exists (join ", " ts). split.
        + intros s. rewrite (introspectArr_run xs ts s Hts).
          rewrite (descriptor_set_mixed ts a b Ha Hb Hab). rewrite L. reflexivity.
        + rewrite (aux_no_opening _ (no_opening_join ts Hs)).
          destruct (two_distinct_members ts a b Ha Hb Hab) as (x & y & rest & ->).
          change (join ", " (x :: y :: rest))
            with (x ++ ", " ++ join ", " (y :: rest))%string.
          rewrite has_question_or_comma_append.
          apply orb_true_iff. right. reflexivity.
      - exists "?". split.
        + intros s. rewrite (introspectArr_run xs ts s Hts).
          rewrite (descriptor_set_mixed ts a b Ha Hb Hab). rewrite L. reflexivity.
        + reflexivity. }
    destruct Hd as (inner & Hd & Hq).
    rewrite (Arr_run xs inner st Hd). rewrite Hq. eexists. reflexivity.
Qed.

(** *** The invariant of the array proxy *)

Lemma string_append_inj_tail s1 s2 b :
  (s1 ++ String b "" = s2 ++ String b "")%string -> s1 = s2.
Proof.
  revert s2. induction s1 as [ | a s1 IH ]; intros [ | a2 s2 ] H; simpl in H.
  - reflexivity.
  - injection H as _ H. destruct s2; discriminate.
  - injection H as _ H. destruct s1; discriminate.
  - injection H as -> H. f_equal. apply IH. exact H.
Qed.

Lemma homogeneous_array xs T :
  xs <> [] -> Forall (fun x => has_descriptor x T) xs ->
  has_descriptor (VArray xs) ("[" ++ T ++ "]").
Proof.
  intros Hne H st.
  rewrite (introspectArr_run xs _ st (Forall2_same_descriptor xs T H)).
  rewrite (descriptor_set_same T).
  - reflexivity.
  - destruct xs; [ congruence | discriminate ].
  - clear. induction (length xs); simpl; constructor; auto.
Qed.

Lemma handleArr_set_ok_inv p i v st p' st' :
  handleArr_set p i v st = (Ok p', st') ->
  p' = mkProxy (array_store (target p) i v) (fixed p) /\ st' = st /\
  i <= length (target p) /\
  exists tv, has_descriptor v tv /\ ("[" ++ tv ++ "]")%string = fixed p.
Proof.
  unfold handleArr_set. intros H.
  apply bind_ok_inv in H. destruct H as (xs & s1 & H & Hr).
  unfold ret in Hr. injection Hr as <- <-.
  unfold setArr in H.
  apply bind_ok_inv in H. destruct H as (u & s2 & Hc & Hr).
  unfold ret in Hr. injection Hr as <- <-.
  destruct (length (target p) <? i)%nat eqn:L.
  - apply bind_ok_inv in Hc. destruct Hc as (o & s3 & _ & Hc). discriminate Hc.
  - apply bind_ok_inv in Hc. destruct Hc as (tv & s3 & Hv & Hc).
    apply introspect_ok in Hv. destruct Hv as [Hv ->].
    destruct (String.eqb ("[" ++ tv ++ "]") (fixed p)) eqn:E; cbn [negb] in Hc.
    + unfold ret in Hc. assert (Es : s2 = st) by congruence. subst s2.
      split; [ reflexivity | split; [ reflexivity | split ] ].
      * apply Nat.ltb_ge. exact L.
      * exists tv. split; [ exact Hv | apply String.eqb_eq; exact E ].
    + apply bind_ok_inv in Hc. destruct Hc as (t1 & s4 & _ & Hc).
      apply bind_ok_inv in Hc. destruct Hc as (t2 & s5 & _ & Hc). discriminate Hc.
Qed.

(** X10. The array proxy keeps its array homogeneous.  Over an array of
    ordinary elements all of which have the descriptor [T] and with the
    fixed type "[T]", an assignment at an array index that the proxy
    accepts leaves the state alone, keeps the fixed type and stores a value
    of the descriptor [T] at an index up to the length: the array grows by
    at most one element, all of its elements still have the descriptor
    [T], and its descriptor is still the fixed type. *)
Theorem array_proxy_stays_homogeneous p T i v st p' st' :
  fixed p = ("[" ++ T ++ "]")%string ->
  Forall (fun x => has_descriptor x T) (target p) ->
  handleArr_set p i v st = (Ok p', st') ->
  st' = st /\ fixed p' = fixed p /\
  i <= length (target p) /\
  has_descriptor v T /\
  target p' = array_store (target p) i v /\
  length (target p') = Nat.max (length (target p)) (S i) /\
  Forall (fun x => has_descriptor x T) (target p') /\
  has_descriptor (VArray (target p')) (fixed p).
Proof.
  intros Hfix Hall H.
  destruct (handleArr_set_ok_inv p i v st p' st' H) as (-> & -> & Hi & tv & Hv & Ht).
  cbn [fixed target].
  rewrite Hfix in Ht. simpl in Ht. injection Ht as Ht.
  apply string_append_inj_tail in Ht. subst tv.
  assert (Hst : Forall (fun x => has_descriptor x T) (array_store (target p) i v)
                /\ length (array_store (target p) i v)
                   = Nat.max (length (target p)) (S i)).
  { unfold array_store.
    destruct (i <? length (target p))%nat eqn:L.
    - apply Nat.ltb_lt in L. split.
      + apply Forall_list_update; assumption.
      + rewrite length_list_update. lia.
    - apply Nat.ltb_ge in L.
      replace (i - length (target p)) with 0 by lia. split.
      + apply Forall_app. split; [ exact Hall | ].
        constructor; [ exact Hv | constructor ].
      + rewrite length_app. simpl. lia. }
  destruct Hst as [Hst Hlen].
  repeat (split; [ first [ reflexivity | assumption ] | ]).
  rewrite Hfix. apply homogeneous_array; [ | exact Hst ].
  intros E. rewrite E in Hlen. simpl in Hlen. lia.
Qed.

(** *** The descriptors of maps, sets, tuples and records *)

Lemma reduceM_map_pairs m ts :
  Forall2 pair_descriptor m ts ->
  forall s st,
    reduceM (fun s '(k, v) =>
               tk <- introspect k ;;
               tv <- introspect v ;;
               ret (set_add s (tk ++ ", " ++ tv))) m s st
    = (Ok (fold_left set_add ts s), st).
Proof.
  induction 1 as [ | [k v] t m ts (tk & tv & Hk & Hv & ->) _ IH ]; intros s st.
  - reflexivity.
  - cbn [reduceM]. cbn [fst snd] in Hk, Hv.
    rewrite (bind_ok _ _ st (set_add s (tk ++ ", " ++ tv)) st).
    + apply IH.
    + rewrite (bind_ok _ _ _ _ _ (Hk st)). rewrite (bind_ok _ _ _ _ _ (Hv st)).
      reflexivity.
Qed.

Lemma introspectMap_run m ts st :
  Forall2 pair_descriptor m ts ->
  introspect (VMap m) st
  = (Ok (if (length (descriptor_set ts) =? 1)%nat
         then "Map<" ++ nth 0 (descriptor_set ts) "undefined" ++ ">"
         else "Map<?>"), st).
Proof.
  intros H. rewrite introspect_map. unfold introspectMap, introspectMapWith.
  rewrite (bind_ok _ _ _ _ _ (reduceM_map_pairs m ts H [] st)).
  fold (descriptor_set ts).
  destruct (length (descriptor_set ts) =? 1)%nat; reflexivity.
Qed.

Lemma introspectSet_run s ts st :
  Forall2 has_descriptor s ts ->
  introspect (VSet s) st
  = (Ok (if (length (descriptor_set ts) =? 1)%nat
         then "Set<" ++ nth 0 (descriptor_set ts) "undefined" ++ ">"
         else "Set<?>"), st).
Proof.
  intros H. rewrite introspect_set. unfold introspectSet, introspectSetWith.
  rewrite (bind_ok _ _ _ _ _ (reduceM_set s ts H [] st)).
  fold (descriptor_set ts).
  destruct (length (descriptor_set ts) =? 1)%nat; reflexivity.
Qed.

Lemma Forall2_repeat {A B} (R : A -> B -> Prop) (l : list A) (b : B) :
  Forall (fun x => R x b) l -> Forall2 R l (repeat b (length l)).
Proof. induction 1; simpl; constructor; assumption. Qed.

Lemma Forall_eq_repeat {A} (x : A) n : Forall (eq x) (repeat x n).
Proof. induction n; simpl; constructor; auto. Qed.

Lemma homogeneous_map m K V :
  m <> [] ->
  Forall (fun kv => has_descriptor (fst kv) K /\ has_descriptor (snd kv) V) m ->
  has_descriptor (VMap m) ("Map<" ++ K ++ ", " ++ V ++ ">").
Proof.
  intros Hne H st.
  rewrite (introspectMap_run m (repeat (K ++ ", " ++ V)%string (length m)) st).
  - rewrite (descriptor_set_same (K ++ ", " ++ V)%string).
    + cbn [length Nat.eqb nth]. rewrite string_append_assoc. reflexivity.
    + destruct m; [ congruence | discriminate ].
    + apply Forall_eq_repeat.
  - apply Forall2_repeat. apply Forall_impl with (2 := H).
    intros kv [Hk Hv]. exists K, V. auto.
Qed.

Lemma homogeneous_set s T :
  s <> [] -> Forall (fun x => has_descriptor x T) s ->
  has_descriptor (VSet s) ("Set<" ++ T ++ ">").
Proof.
  intros Hne H st.
  rewrite (introspectSet_run s (repeat T (length s)) st).
  - rewrite (descriptor_set_same T).
    + reflexivity.
    + destruct s; [ congruence | discriminate ].
    + apply Forall_eq_repeat.
  - apply Forall2_repeat. exact H.
Qed.

(** X11. The descriptors of maps and sets.  A map all of whose pairs have
    the key descriptor [K] and the value descriptor [V] is a "Map<K, V>",
    a set all of whose members have the descriptor [T] is a "Set<T>"; the
    empty map and the empty set, and every map or set in which two of the
    collected texts differ, are "Map<?>" and "Set<?>", whatever their
    size. *)
Theorem map_and_set_descriptors :
  (forall m K V,
     m <> [] ->
     Forall (fun kv => has_descriptor (fst kv) K /\ has_descriptor (snd kv) V) m ->
     has_descriptor (VMap m) ("Map<" ++ K ++ ", " ++ V ++ ">"))
  /\
  (forall s T,
     s <> [] -> Forall (fun x => has_descriptor x T) s ->
     has_descriptor (VSet s) ("Set<" ++ T ++ ">"))
  /\
  has_descriptor (VMap []) "Map<?>" /\ has_descriptor (VSet []) "Set<?>"
  /\
  (forall m ts a b,
     Forall2 pair_descriptor m ts -> In a ts -> In b ts -> a <> b ->
     has_descriptor (VMap m) "Map<?>")
  /\
  (forall s ts a b,
     Forall2 has_descriptor s ts -> In a ts -> In b ts -> a <> b ->
     has_descriptor (VSet s) "Set<?>").
Proof.
  split; [ exact homogeneous_map | ].
  split; [ exact homogeneous_set | ].
  split; [ intros st; reflexivity | ].
  split; [ intros st; reflexivity | ].
  split.
  - intros m ts a b H Ha Hb Hab st.
    rewrite (introspectMap_run m ts st H).
    rewrite (descriptor_set_mixed ts a b Ha Hb Hab). reflexivity.
  - intros s ts a b H Ha Hb Hab st.
    rewrite (introspectSet_run s ts st H).
    rewrite (descriptor_set_mixed ts a b Ha Hb Hab). reflexivity.
Qed.

Lemma mapM_described xs ts :
  Forall2 has_descriptor xs ts ->
  forall st, mapM introspect xs st = (Ok ts, st).
Proof.
  induction 1 as [ | x t xs ts Hx _ IH ]; intros st; [ reflexivity | ].
  cbn [mapM]. rewrite (bind_ok _ _ _ _ _ (Hx st)).
  rewrite (bind_ok _ _ _ _ _ (IH st)). reflexivity.
Qed.

(** X12. The descriptor of a [Tup] is positional: up to [MAX_TUP_SIZE]
    = 8 fields it lists the descriptor of every field in order, also when
    they are all the same (no collapse as for arrays); above 8 fields it
    is "Tuple<?>", and the fields are not even looked at. *)
Theorem tuple_descriptor_positional :
  (forall xs ts,
     Forall2 has_descriptor xs ts -> length xs <= 8 ->
     has_descriptor (VTuple xs) ("Tuple<" ++ join ", " ts ++ ">"))
  /\
  (forall xs, 8 < length xs -> has_descriptor (VTuple xs) "Tuple<?>").
Proof.
  split.
  - intros xs ts H L st. rewrite introspect_tuple.
    unfold introspectTup, introspectTupWith.
    assert (E : (MAX_TUP_SIZE <? Z.of_nat (length xs))%Z = false).
    { apply Z.ltb_ge. unfold MAX_TUP_SIZE. lia. }
    rewrite E. rewrite (bind_ok _ _ _ _ _ (mapM_described xs ts H st)). reflexivity.
  - intros xs L st. rewrite introspect_tuple.
    unfold introspectTup, introspectTupWith.
    assert (E : (MAX_TUP_SIZE <? Z.of_nat (length xs))%Z = true).
    { apply Z.ltb_lt. unfold MAX_TUP_SIZE. lia. }
    rewrite E. reflexivity.
Qed.

Lemma mapM_record_fields props :
  Forall (fun kv => total (toString (snd kv))) props ->
  forall st,
    mapM (fun '(k, x) =>
            s <- toString x ;;
            (fun _ : string => ret "String") (k ++ ": " ++ s)%string) props st
    = (Ok (map (fun _ => "String") props), st).
Proof.
  induction 1 as [ | [k x] props [s Hs] _ IH ]; intros st; [ reflexivity | ].
  cbn [mapM map]. cbn [snd] in Hs.
  rewrite (bind_ok _ _ st "String" st).
  - rewrite (bind_ok _ _ _ _ _ (IH st)). reflexivity.
  - rewrite (bind_ok _ _ _ _ _ (Hs st)). reflexivity.
Qed.

(** X13. The descriptor of a record hides the types of its fields: for a
    record without a field "length" whose field values all convert to a
    text (numbers, texts, booleans, [null], [undefined], arrays of such),
    [introspect] answers "Record<String, ..., String>" with one "String"
    per field, whatever the fields hold. *)
Theorem record_descriptor_hides_field_types props :
  get_prop props "length" = VUndefined ->
  Forall (fun kv => total (toString (snd kv))) props ->
  has_descriptor (Rec props)
    ("Record<" ++ join ", " (map (fun _ => "String") props) ++ ">").
Proof.
  intros Hlen Hall st.
  change (introspect (Rec props))
    with (introspectRecWith (fun _ : string => ret "String") props).
  unfold introspectRecWith. rewrite Hlen.
  rewrite (bind_ok _ _ st NaN st eq_refl). cbn [num_gt].
  rewrite (bind_ok _ _ _ _ _ (mapM_record_fields props Hall st)). reflexivity.
Qed.

(** *** The descriptors of plain objects *)

Lemma reduceM_props o ts :
  Forall2 (fun kv t => has_descriptor (snd kv) t) o ts ->
  forall s acc st,
    reduceM (fun '(s, ts) '(k, x) =>
               v <- introspect x ;;
               ret (set_add s (k ++ ": " ++ v), (ts ++ [(k ++ ": " ++ v)%string])%list))
      o (s, acc) st
    = (Ok (fold_left set_add (field_texts o ts) s, (acc ++ field_texts o ts)%list), st).
Proof.
  induction 1 as [ | [k x] t o ts Hx _ IH ]; intros s acc st.
  - simpl. rewrite app_nil_r. reflexivity.
  - cbn [reduceM]. cbn [snd] in Hx.
    rewrite (bind_ok _ _ st (set_add s (k ++ ": " ++ t), (acc ++ [(k ++ ": " ++ t)%string])%list) st).
    + rewrite IH. unfold field_texts. cbn [combine map fold_left fst].
      rewrite <- app_assoc. reflexivity.
    + rewrite (bind_ok _ _ _ _ _ (Hx st)). reflexivity.
Qed.

Lemma reduceM_props_set o ts :
  Forall2 (fun kv t => has_descriptor (snd kv) t) o ts ->
  forall s st,
    reduceM (fun s '(k, x) =>
               v <- introspect x ;;
               ret (set_add s (k ++ ": " ++ v))) o s st
    = (Ok (fold_left set_add (field_texts o ts) s), st).
Proof.
  induction 1 as [ | [k x] t o ts Hx _ IH ]; intros s st.
  - reflexivity.
  - cbn [reduceM]. cbn [snd] in Hx.
    rewrite (bind_ok _ _ st (set_add s (k ++ ": " ++ t)) st).
    + rewrite IH. reflexivity.
    + rewrite (bind_ok _ _ _ _ _ (Hx st)). reflexivity.
Qed.

Lemma introspectObj_run o ts st :
  Forall2 (fun kv t => has_descriptor (snd kv) t) o ts ->
  introspect (Obj o) st
  = (Ok (if (length (descriptor_set (field_texts o ts)) =? 1)%nat
         then "{String: "
              ++ nth 1 (split ": " (nth 0 (descriptor_set (field_texts o ts)) "undefined"))
                   "undefined"
              ++ "}"
         else if (Z.of_nat (length o) <=? MAX_REC_SIZE)%Z
              then "{" ++ join ", " (field_texts o ts) ++ "}"
              else "{?}"), st).
Proof.
  intros H. rewrite introspect_plain_object.
  unfold introspectObj, introspectObjWith. cbn [String.eqb Ascii.eqb Bool.eqb].
  destruct (Z.of_nat (length o) <=? MAX_REC_SIZE)%Z.
  - rewrite (bind_ok _ _ _ _ _ (reduceM_props o ts H [] [] st)).
    cbn [app]. fold (descriptor_set (field_texts o ts)).
    destruct (length (descriptor_set (field_texts o ts)) =? 1)%nat; reflexivity.
  - rewrite (bind_ok _ _ _ _ _ (reduceM_props_set o ts H [] st)).
    fold (descriptor_set (field_texts o ts)).
    destruct (length (descriptor_set (field_texts o ts)) =? 1)%nat; reflexivity.
Qed.

Lemma key_text_inj k1 k2 t1 t2 :
  colon_free k1 = true -> colon_free k2 = true ->
  (k1 ++ ": " ++ t1 = k2 ++ ": " ++ t2)%string -> k1 = k2.
Proof.
  revert k2. induction k1 as [ | a k1 IH ]; intros [ | b k2 ] H1 H2 E; simpl in *.
  - reflexivity.
  - injection E as <- _. discriminate H2.
  - injection E as -> _. discriminate H1.
  - injection E as -> E.
    apply andb_true_iff in H1. apply andb_true_iff in H2.
    f_equal. apply (IH k2); tauto.
Qed.

Lemma split_from_colon_free k rest : forall cur,
  colon_free k = true ->
  split_from ": " (k ++ rest) cur 0 = split_from ": " rest (cur ++ k) 0.
Proof.
  induction k as [ | a k IH ]; intros cur H.
  - simpl. rewrite string_append_nil. reflexivity.
  - simpl in H. apply andb_true_iff in H. destruct H as [Ha Hk].
    cbn [append split_from prefix].
    destruct (ascii_dec ":" a) as [ <- | _ ]; [ discriminate Ha | ].
    rewrite (IH _ Hk). rewrite string_append_assoc. reflexivity.
Qed.

Lemma split_key_text k t :
  colon_free k = true -> colon_free t = true ->
  split ": " (k ++ ": " ++ t) = [k; t].
Proof.
  intros Hk Ht. unfold split.
  rewrite (split_from_colon_free k _ "" Hk).
  cbn [append split_from prefix String.length Nat.sub].
  destruct (ascii_dec ":" ":") as [ _ | N ]; [ | congruence ].
  destruct (ascii_dec " " " ") as [ _ | N ]; [ | congruence ].
  replace (prefix "" t) with true by (destruct t; reflexivity).
  f_equal.
  rewrite <- (string_append_nil t) at 1.
  rewrite (split_from_colon_free t "" "" Ht). reflexivity.
Qed.

Lemma field_texts_mixed k1 x1 k2 x2 o t1 t2 ts :
  colon_free k1 = true -> colon_free k2 = true -> k1 <> k2 ->
  (length (descriptor_set (field_texts ((k1, x1) :: (k2, x2) :: o) (t1 :: t2 :: ts))) =? 1)%nat
  = false.
Proof.
  intros H1 H2 Hne.
  apply (descriptor_set_mixed _ (k1 ++ ": " ++ t1)%string (k2 ++ ": " ++ t2)%string).
  - left. reflexivity.
  - right. left. reflexivity.
  - intros E. apply Hne. exact (key_text_inj k1 k2 t1 t2 H1 H2 E).
Qed.

(** X14. The descriptor of a plain object.  The empty object is "{}".  An
    object with one property is "{String: T}", [T] being the descriptor of
    its value (for a name and a descriptor without a colon).  An object
    with two or more properties (their first two names without a colon)
    never takes that form: up to [MAX_REC_SIZE] = 16 properties it is
    described property by property as "{k1: T1, k2: T2, ...}", and above 16
    as "{?}". *)
Theorem object_descriptor_shapes :
  has_descriptor (Obj []) "{}"
  /\
  (forall k x t,
     has_descriptor x t -> colon_free k = true -> colon_free t = true ->
     has_descriptor (Obj [(k, x)]) ("{String: " ++ t ++ "}"))
  /\
  (forall k1 x1 k2 x2 o t1 t2 ts,
     Forall2 (fun kv t => has_descriptor (snd kv) t)
       ((k1, x1) :: (k2, x2) :: o) (t1 :: t2 :: ts) ->
     colon_free k1 = true -> colon_free k2 = true -> k1 <> k2 ->
     (length o + 2 <= 16 ->
      has_descriptor (Obj ((k1, x1) :: (k2, x2) :: o))
        ("{" ++ join ", " (field_texts ((k1, x1) :: (k2, x2) :: o) (t1 :: t2 :: ts)) ++ "}"))
     /\
     (16 < length o + 2 ->
      has_descriptor (Obj ((k1, x1) :: (k2, x2) :: o)) "{?}")).
Proof.
  split; [ intros st; reflexivity | split ].
  - intros k x t Hx Hk Ht st.
    rewrite (introspectObj_run [(k, x)] [t] st).
    + unfold field_texts, descriptor_set. cbn [combine map fold_left fst].
      change (set_add [] (k ++ ": " ++ t)%string) with [(k ++ ": " ++ t)%string].
      cbn [length Nat.eqb nth]. rewrite (split_key_text k t Hk Ht). reflexivity.
    + constructor; [ exact Hx | constructor ].
  - intros k1 x1 k2 x2 o t1 t2 ts H H1 H2 Hne. split; intros L st.
    + rewrite (introspectObj_run _ _ st H).
      rewrite (field_texts_mixed k1 x1 k2 x2 o t1 t2 ts H1 H2 Hne).
      assert (E : (Z.of_nat (length ((k1, x1) :: (k2, x2) :: o)) <=? MAX_REC_SIZE)%Z = true).
      { apply Z.leb_le. unfold MAX_REC_SIZE. simpl length. lia. }
      rewrite E. reflexivity.
    + rewrite (introspectObj_run _ _ st H).
      rewrite (field_texts_mixed k1 x1 k2 x2 o t1 t2 ts H1 H2 Hne).
      assert (E : (Z.of_nat (length ((k1, x1) :: (k2, x2) :: o)) <=? MAX_REC_SIZE)%Z = false).
      { apply Z.leb_gt. unfold MAX_REC_SIZE. simpl length. lia. }
      rewrite E. reflexivity.
Qed.

(** *** Type tags and tagged objects *)

Lemma lastIndexOf_from_absent s : forall i found,
  blank_free s = true -> lastIndexOf_from " " s i found = found.
Proof.
  induction s as [ | a s IH ]; intros i found H; [ reflexivity | ].
  simpl in H. apply andb_true_iff in H. destruct H as [Ha Hs].
  cbn [lastIndexOf_from]. apply negb_true_iff in Ha. rewrite Ha. apply IH. exact Hs.
Qed.

Lemma lastIndexOf_from_last pre b : forall i found,
  blank_free b = true ->
  lastIndexOf_from " " (pre ++ String " " b) i found
  = (i + Z.of_nat (String.length pre))%Z.
Proof.
  induction pre as [ | a pre IH ]; intros i found H.
  - cbn [append lastIndexOf_from String.length]. rewrite Ascii.eqb_refl.
    rewrite (lastIndexOf_from_absent b _ _ H). simpl. lia.
  - cbn [append lastIndexOf_from String.length]. rewrite (IH _ _ H). lia.
Qed.

Lemma substring_skip pre s m : forall n,
  substring (String.length pre + n) m (pre ++ s) = substring n m s.
Proof. induction pre as [ | a pre IH ]; intros n; simpl; [ reflexivity | apply IH ]. Qed.

Lemma blank_free_append a b : blank_free (a ++ b) = blank_free a && blank_free b.
Proof.
  induction a as [ | c a IH ]; simpl; [ reflexivity | ].
  rewrite IH. now rewrite andb_assoc.
Qed.

(** [toTypeTag] answers with the last word of the text
    [Object.prototype.toString] gives. *)
Lemma toTypeTag_last_word x pre b :
  objectToString x = (pre ++ String " " (b ++ "]"))%string ->
  blank_free b = true ->
  toTypeTag x = b.
Proof.
  intros E Hb. unfold toTypeTag. cbv zeta. rewrite E.
  unfold lastIndexOf. rewrite lastIndexOf_from_last
    by (rewrite blank_free_append, Hb; reflexivity).
  unfold slice. rewrite !string_length_append. cbn [String.length].
  rewrite string_length_append. cbn [String.length].
  set (n := String.length pre). set (m := String.length b).
  destruct (Z.ltb_spec (0 + Z.of_nat n + 1) 0) as [ L | _ ]; [ lia | ].
  change (-1 <? 0)%Z with true. cbv iota.
  rewrite Z.min_l by lia. rewrite Z.max_l by lia.
  replace (Z.to_nat (0 + Z.of_nat n + 1)) with (n + 1) by lia.
  replace (Z.to_nat (Z.of_nat (n + S (m + 1)) + -1 - (0 + Z.of_nat n + 1))) with m by lia.
  subst n. rewrite substring_skip. cbn [substring]. apply substring_prefix.
Qed.

Lemma toTypeTag_object tag sig nc o :
  blank_free tag = true -> toTypeTag (VObject tag sig nc o) = tag.
Proof.
  intros H. apply (toTypeTag_last_word _ "[object" tag); [ reflexivity | exact H ].
Qed.

Lemma not_reserved tag u :
  ~ In tag reserved_tags -> In u reserved_tags -> String.eqb tag u = false.
Proof. intros H Hu. apply String.eqb_neq. intros ->. exact (H Hu). Qed.

(** X15. Type tags and tagged objects.  [toTypeTag] of an object is the
    last word of its [Symbol.toStringTag]: the tag itself when it has no
    blank.  An object that carries a [SIG] is described by it, whatever
    else it holds, unless its tag is "Null"; without a [SIG], an object
    whose tag is none of "Array", "Map", "Null", "Object", "Record", "Set",
    "Tuple" is described by its tag, and its properties are not looked
    at. *)
Theorem tagged_object_descriptor :
  (forall tag sig nc o,
     blank_free tag = true -> toTypeTag (VObject tag sig nc o) = tag)
  /\
  (forall a b sig nc o,
     blank_free b = true -> toTypeTag (VObject (a ++ " " ++ b) sig nc o) = b)
  /\
  (forall tag t nc o,
     blank_free tag = true -> tag <> "Null" ->
     has_descriptor (VObject tag (Some t) nc o) t)
  /\
  (forall tag nc o,
     blank_free tag = true -> ~ In tag reserved_tags ->
     has_descriptor (VObject tag None nc o) tag).
Proof.
  split; [ exact toTypeTag_object | split; [ | split ] ].
  - intros a b sig nc o Hb.
    apply (toTypeTag_last_word _ ("[object " ++ a) b); [ | exact Hb ].
    unfold objectToString. simpl. f_equal. f_equal. f_equal. f_equal. f_equal.
    f_equal. f_equal. f_equal. rewrite string_append_assoc. reflexivity.
  - intros tag t nc o Hb Hn st. rewrite introspect_object. cbv zeta.
    rewrite (toTypeTag_object tag _ nc o Hb).
    apply String.eqb_neq in Hn. rewrite Hn. reflexivity.
  - intros tag nc o Hb Hr st. rewrite introspect_object. cbv zeta.
    rewrite (toTypeTag_object tag _ nc o Hb).
    rewrite (not_reserved tag "Null" Hr) by (simpl; tauto).
    rewrite (not_reserved tag "Array" Hr) by (simpl; tauto).
    rewrite (not_reserved tag "Map" Hr) by (simpl; tauto).
    rewrite (not_reserved tag "Record" Hr) by (simpl; tauto).
    rewrite (not_reserved tag "Set" Hr) by (simpl; tauto).
    rewrite (not_reserved tag "Tuple" Hr) by (simpl; tauto).
    unfold introspectObjWith.
    rewrite (not_reserved tag "Object" Hr) by (simpl; tauto).
    reflexivity.
Qed.

(** *** More on the overloading registry *)

Lemma sameValueZero_trans a b c :
  sameValueZero a b = true -> sameValueZero a c = true -> sameValueZero b c = true.
Proof.
  destruct a as [ | | x | [ | | | x ] | x | x dx | | | | | | ];
    destruct b as [ | | y | [ | | | y ] | y | y dy | | | | | | ];
    try discriminate;
    destruct c as [ | | z | [ | | | z ] | z | z dz | | | | | | ];
    try discriminate; simpl; intros H1 H2; try reflexivity.
  - apply Bool.eqb_prop in H1. apply Bool.eqb_prop in H2. subst.
    apply Bool.eqb_reflx.
  - apply Z.eqb_eq in H1. apply Z.eqb_eq in H2. subst. apply Z.eqb_refl.
  - apply String.eqb_eq in H1. apply String.eqb_eq in H2. subst. apply String.eqb_refl.
  - apply Nat.eqb_eq in H1. apply Nat.eqb_eq in H2. subst. apply Nat.eqb_refl.
Qed.

Lemma map_get_set_other m k v k' :
  sameValueZero k k' = false -> map_get (map_set m k v) k' = map_get m k'.
Proof.
  intros Hk. induction m as [ | [k0 v0] m IH ]; simpl.
  - rewrite Hk. reflexivity.
  - destruct (sameValueZero k0 k) eqn:E; simpl.
    + destruct (sameValueZero k0 k') eqn:E'; [ | reflexivity ].
      rewrite (sameValueZero_trans k0 k k' E E') in Hk. discriminate Hk.
    + rewrite IH. reflexivity.
Qed.

Lemma nth_list_update_other {A} (l : list A) i j x d :
  j <> i -> nth j (list_update l i x) d = nth j l d.
Proof.
  revert i j. induction l as [ | y l IH ]; intros [ | i ] [ | j ] H; simpl;
    try reflexivity; try congruence.
  apply IH. congruence.
Qed.

Lemma list_update_beyond {A} (l : list A) i x : length l <= i -> list_update l i x = l.
Proof.
  revert i. induction l as [ | y l IH ]; intros [ | i ] H; simpl in *;
    try reflexivity; try lia.
  f_equal. apply IH. lia.
Qed.

Lemma primitive_sameValueZero_refl k : primitive k = true -> sameValueZero k k = true.
Proof.
  destruct k as [ | | b | [ | | | z ] | x | x d | | | | | | ]; try discriminate;
    intros _; simpl; try reflexivity.
  - apply Bool.eqb_reflx.
  - apply Z.eqb_refl.
  - apply String.eqb_refl.
  - apply Nat.eqb_refl.
Qed.

(** X16. A registration is local.  After [nameAdd(k, v)] has succeeded,
    the operation finds under every other primitive key (a text, as the
    keys of a dispatcher are) what it found before, and the private maps
    of all the other overloaded operations are as they were. *)
Theorem overload_registration_is_local o k v st r st' :
  overloadAdd o [k; v] st = (Ok r, st') ->
  (forall k',
     primitive k' = true ->
     sameValueZero k k' = false ->
     pairs_get o k' st' = (Ok (map_get (nth (ov_pairs o) (maps st) []) k'), st'))
  /\
  (forall j, j <> ov_pairs o -> nth j (maps st') [] = nth j (maps st) [])
  /\
  length (maps st') = length (maps st).
Proof.
  intros H. destruct (overloadAdd_ok_inv o k v st r st' H) as (_ & _ & Hm).
  split; [ | split ].
  - intros k' _ Hk. unfold pairs_get, pairs_of, bind, ret. rewrite Hm.
    destruct (Nat.lt_ge_cases (ov_pairs o) (length (maps st))) as [ L | L ].
    + rewrite nth_list_update by exact L.
      rewrite (map_get_set_other _ k v k' Hk). reflexivity.
    + rewrite list_update_beyond by exact L. reflexivity.
  - intros j Hj. rewrite Hm. apply nth_list_update_other. exact Hj.
  - rewrite Hm. apply length_list_update.
Qed.

(** X17. A registration the guard refuses changes nothing in the
    registry: when the key or the implementation handed to [nameAdd] has
    an invalid descriptor ([undefined], [NaN], an infinity), the call
    throws an [ArgTypeError] and every private map is as it was. *)
Theorem overload_registration_refused o k v t st :
  (has_descriptor k t /\ invalid_type t = true)
  \/ (valid_value k /\ has_descriptor v t /\ invalid_type t = true) ->
  exists msg st',
    overloadAdd o [k; v] st = (Throw (mkError ArgTypeError msg), st') /\
    maps st' = maps st.
Proof.
  intros H. unfold overloadAdd.
  destruct (guarded_apply (ov_name o ++ "Add") 2 (overloadAdd_body o) [k; v])
    as (n & p & -> & Ha).
  specialize (Ha eq_refl).
  destruct H as [ (Hk & Hi) | (Hk & Hv & Hi) ].
  - eexists _, _. split.
    + exact (handleF_apply_rejects_argument (overloadAdd_body o) 2 n [] p 0
               [] k [v] t st Ha (Forall_nil _) Hk Hi).
    + apply maps_pushes.
  - eexists _, _. split.
    + exact (handleF_apply_rejects_argument (overloadAdd_body o) 2 n [] p 0
               [k] v [] t st Ha (Forall_cons _ Hk (Forall_nil _)) Hv Hi).
    + apply maps_pushes.
Qed.

(** *** Homogeneous maps *)

Lemma sameValueZero_descriptor a b :
  sameValueZero a b = true -> introspect a = introspect b.
Proof.
  destruct a as [ | | x | [ | | | x ] | x | x dx | | | | | | ];
    destruct b as [ | | y | [ | | | y ] | y | y dy | | | | | | ];
    try discriminate; reflexivity.
Qed.

Lemma map_set_described m k v T :
  Forall (fun kv => pair_descriptor kv T) m ->
  pair_descriptor (k, v) T ->
  Forall (fun kv => pair_descriptor kv T) (map_set m k v).
Proof.
  intros Hm Hkv. induction Hm as [ | [k0 v0] m H0 Hm IH ]; simpl.
  - constructor; [ exact Hkv | constructor ].
  - destruct (sameValueZero k0 k) eqn:E.
    + constructor; [ | exact Hm ].
      destruct Hkv as (tk & tv & Hk & Hv & ->). exists tk, tv.
      cbn [fst snd] in *. split; [ | split; [ exact Hv | reflexivity ] ].
      intros st. rewrite (sameValueZero_descriptor k0 k E). apply Hk.
    + constructor; [ exact H0 | exact IH ].
Qed.

Lemma map_set_nonempty m k v : map_set m k v <> [].
Proof.
  destruct m as [ | [k0 v0] m ]; simpl; [ discriminate | ].
  destruct (sameValueZero k0 k); discriminate.
Qed.

Lemma described_map m T :
  m <> [] -> Forall (fun kv => pair_descriptor kv T) m ->
  has_descriptor (VMap m) ("Map<" ++ T ++ ">").
Proof.
  intros Hne H st.
  rewrite (introspectMap_run m (repeat T (length m)) st).
  - rewrite (descriptor_set_same T).
    + reflexivity.
    + destruct m; [ congruence | discriminate ].
    + apply Forall_eq_repeat.
  - apply Forall2_repeat. exact H.
Qed.

Lemma map_pair_descriptor_known K V :
  String.eqb ("Map<" ++ K ++ ", " ++ V ++ ">") "Map<?>" = false.
Proof.
  apply String.eqb_neq. intros E. simpl in E. injection E as E.
  destruct K as [ | c K ]; simpl in E; [ discriminate E | ].
  injection E as _ E.
  destruct K as [ | c' K ]; simpl in E; [ discriminate E | ].
  injection E as _ E. destruct K; discriminate E.
Qed.

Lemma handleMap_set_ok_inv p k v st p' st' :
  handleMap_set p k v st = (Ok p', st') ->
  exists tk tv,
    has_descriptor k tk /\ has_descriptor v tv /\
    ("Map<" ++ tk ++ ", " ++ tv ++ ">")%string = map_fixed p /\
    p' = mkMapProxy (map_set (map_target p) k v) (map_fixed p) /\ st' = st.
Proof.
  unfold handleMap_set. intros H.
  apply bind_ok_inv in H. destruct H as (tk & s1 & Hk & H).
  apply introspect_ok in Hk. destruct Hk as [Hk ->].
  apply bind_ok_inv in H. destruct H as (tv & s2 & Hv & H).
  apply introspect_ok in Hv. destruct Hv as [Hv ->].
  destruct (String.eqb ("Map<" ++ tk ++ ", " ++ tv ++ ">") (map_fixed p)) eqn:E;
    cbn [negb] in H.
  - unfold ret in H. exists tk, tv.
    split; [ exact Hk | split; [ exact Hv | split ] ].
    + apply String.eqb_eq. exact E.
    + split; congruence.
  - apply bind_ok_inv in H. destruct H as (t1 & s3 & _ & H).
    apply bind_ok_inv in H. destruct H as (t2 & s4 & _ & H).
    apply bind_ok_inv in H. destruct H as (t3 & s5 & _ & H). discriminate H.
Qed.

(** X18. What [_Map] accepts.  A non-empty map all of whose pairs have
    the key descriptor [K] and the value descriptor [V] is wrapped, with
    the fixed type "Map<K, V>" and without a trace in the state.  The
    empty map, and every map in which two of the collected pair texts
    differ, is refused with an [ArgTypeError]: unlike [Arr], the
    constructor has no proxy for the empty container.  Whenever [_Map]
    answers with a proxy over a map, the map is not empty and the fixed
    type is its descriptor. *)
Theorem Map_constructor :
  (forall m K V st,
     m <> [] ->
     Forall (fun kv => has_descriptor (fst kv) K /\ has_descriptor (snd kv) V) m ->
     _Map (VMap m) st
     = (Ok (MapProxied (mkMapProxy m ("Map<" ++ K ++ ", " ++ V ++ ">"))), st))
  /\
  (forall st, exists msg, _Map (VMap []) st = (Throw (mkError ArgTypeError msg), st))
  /\
  (forall m ts a b st,
     Forall2 pair_descriptor m ts -> In a ts -> In b ts -> a <> b ->
     exists msg, _Map (VMap m) st = (Throw (mkError ArgTypeError msg), st))
  /\
  (forall v st p st',
     _Map v st = (Ok (MapProxied p), st') ->
     v = VMap (map_target p) /\ has_descriptor v (map_fixed p) /\
     map_target p <> [] /\ st' = st).
Proof.
  split; [ | split; [ | split ] ].
  - intros m K V st Hne H. unfold _Map. cbn [GUARDED].
    replace (toTypeTag (VMap m)) with "Map" by reflexivity. cbn [String.eqb Ascii.eqb Bool.eqb negb].
    rewrite (bind_ok _ _ _ _ _ (homogeneous_map m K V Hne H st)).
    rewrite map_pair_descriptor_known. reflexivity.
  - intros st. eexists. reflexivity.
  - intros m ts a b st H Ha Hb Hab. unfold _Map. cbn [GUARDED].
    replace (toTypeTag (VMap m)) with "Map" by reflexivity. cbn [String.eqb Ascii.eqb Bool.eqb negb].
    rewrite (bind_ok _ _ st "Map<?>" st).
    + eexists. reflexivity.
    + rewrite (introspectMap_run m ts st H).
      rewrite (descriptor_set_mixed ts a b Ha Hb Hab). reflexivity.
  - intros v st p st' H. unfold _Map in H. cbn [GUARDED] in H.
    destruct (negb (String.eqb (toTypeTag v) "Map")).
    + apply bind_ok_inv in H. destruct H as (t & s1 & _ & H). discriminate H.
    + apply bind_ok_inv in H. destruct H as (t & s1 & Ht & H).
      apply introspect_ok in Ht. destruct Ht as [Ht ->].
      destruct (String.eqb t "Map<?>") eqn:E; [ discriminate H | ].
      destruct v; try discriminate H.
      unfold ret in H. injection H as <- <-. cbn [map_target map_fixed].
      split; [ reflexivity | split; [ exact Ht | split; [ | reflexivity ] ] ].
      intros ->. specialize (Ht st_empty). cbv in Ht. injection Ht as <-.
      discriminate E.
Qed.

(** X19. The map proxy keeps its map homogeneous.  Over a map all of
    whose pairs have the text [T] as their pair of descriptors and with
    the fixed type "Map<T>", a [set] under a primitive key that the proxy
    accepts leaves the state alone and the fixed type as it is; the pair
    stored has the text [T], and so have all the pairs of the map
    afterwards, whose descriptor is still the fixed type.  The key reads
    back the value just stored, and every other primitive key reads what
    it read before. *)
Theorem map_proxy_stays_homogeneous p T k v st p' st' :
  primitive k = true ->
  map_fixed p = ("Map<" ++ T ++ ">")%string ->
  Forall (fun kv => pair_descriptor kv T) (map_target p) ->
  handleMap_set p k v st = (Ok p', st') ->
  st' = st /\ map_fixed p' = map_fixed p /\
  pair_descriptor (k, v) T /\
  Forall (fun kv => pair_descriptor kv T) (map_target p') /\
  has_descriptor (VMap (map_target p')) (map_fixed p) /\
  handleMap_get p' k = v /\
  (forall k',
     primitive k' = true -> sameValueZero k k' = false ->
     handleMap_get p' k' = handleMap_get p k').
Proof.
  intros Hprim Hfix Hall H.
  destruct (handleMap_set_ok_inv p k v st p' st' H)
    as (tk & tv & Hk & Hv & Ht & -> & ->).
  cbn [map_fixed map_target].
  assert (Hkv : pair_descriptor (k, v) T).
  { exists tk, tv. split; [ exact Hk | split; [ exact Hv | ] ].
    rewrite Hfix in Ht. simpl in Ht. injection Ht as Ht.
    apply (string_append_inj_tail _ _ ">"). rewrite <- Ht.
    rewrite !string_append_assoc. reflexivity. }
  pose proof (map_set_described _ k v T Hall Hkv) as Hall'.
  split; [ reflexivity | split; [ reflexivity | split; [ exact Hkv | ] ] ].
  split; [ exact Hall' | split; [ | split ] ].
  - rewrite Hfix. apply described_map; [ apply map_set_nonempty | exact Hall' ].
  - unfold handleMap_get. cbn [map_target]. apply map_get_set.
    apply primitive_sameValueZero_refl. exact Hprim.
  - intros k' _ Hk'. unfold handleMap_get. cbn [map_target].
    apply map_get_set_other. exact Hk'.
Qed.

(** X20. What [set] does through the map proxy, under a primitive key.  A
    pair whose descriptors make up the fixed type is stored with
    [m.set(k, v)], in the place of the pair the key had or else at the
    end, and nothing is recorded; a pair of any other descriptors is
    refused with a [TypeError] (the built-in class), and map and state
    stay as they were. *)
Theorem map_proxy_set p k v tk tv st :
  primitive k = true ->
  has_descriptor k tk ->
  has_descriptor v tv ->
  (("Map<" ++ tk ++ ", " ++ tv ++ ">")%string = map_fixed p ->
   handleMap_set p k v st
   = (Ok (mkMapProxy (map_set (map_target p) k v) (map_fixed p)), st))
  /\
  (("Map<" ++ tk ++ ", " ++ tv ++ ">")%string <> map_fixed p ->
   forall tm, has_descriptor (VMap (map_target p)) tm ->
   exists msg, handleMap_set p k v st = (Throw (mkError TypeError msg), st)).
Proof.
  intros _ Hk Hv. unfold handleMap_set.
  rewrite (bind_ok _ _ _ _ _ (Hk st)). rewrite (bind_ok _ _ _ _ _ (Hv st)).
  split.
  - intros E. apply String.eqb_eq in E. rewrite E. reflexivity.
  - intros E tm Hm. apply String.eqb_neq in E. rewrite E. cbn [negb].
    rewrite (bind_ok _ _ _ _ _ (Hm st)).
    rewrite (bind_ok _ _ _ _ _ (Hk st)). rewrite (bind_ok _ _ _ _ _ (Hv st)).
    eexists. reflexivity.
Qed.

(** *** Homogeneous sets *)

Lemma set_insert_described ks k T :
  Forall (fun x => has_descriptor x T) ks -> has_descriptor k T ->
  Forall (fun x => has_descriptor x T) (set_insert ks k).
Proof.
  intros Hks Hk. unfold set_insert.
  destruct (existsb (fun x => sameValueZero x k) ks); [ exact Hks | ].
  apply Forall_app. split; [ exact Hks | constructor; [ exact Hk | constructor ] ].
Qed.

Lemma set_insert_nonempty ks k : set_insert ks k <> [].
Proof.
  unfold set_insert. destruct ks as [ | x ks ]; [ discriminate | ].
  destruct (existsb (fun y => sameValueZero y k) (x :: ks)); discriminate.
Qed.

Lemma has_descriptor_functional x t u : has_descriptor x t -> has_descriptor x u -> t = u.
Proof. intros Ht Hu. specialize (Ht st_empty). rewrite (Hu st_empty) in Ht. congruence. Qed.

Lemma set_insert_fresh ks k T U :
  Forall (fun x => has_descriptor x T) ks -> has_descriptor k U -> U <> T ->
  set_insert ks k = (ks ++ [k])%list.
Proof.
  intros Hks Hk Hne. unfold set_insert.
  replace (existsb (fun x => sameValueZero x k) ks) with false; [ reflexivity | ].
  symmetry. apply not_true_is_false. intros E.
  apply existsb_exists in E. destruct E as (x & Hx & E).
  rewrite Forall_forall in Hks. specialize (Hks x Hx).
  apply Hne. apply (has_descriptor_functional k); [ exact Hk | ].
  intros st. rewrite <- (sameValueZero_descriptor x k E). apply Hks.
Qed.

Lemma set_descriptor_inj T U : ("Set<" ++ T ++ ">" = "Set<" ++ U ++ ">")%string -> T = U.
Proof. simpl. intros E. injection E as E. exact (string_append_inj_tail T U ">" E). Qed.

Lemma handleSet_set_ok_inv p k st p' st' :
  handleSet_set p k st = (Ok p', st') ->
  exists tk,
    has_descriptor k tk /\ ("Set<" ++ tk ++ ">")%string = set_fixed p /\
    p' = mkSetProxy (set_insert (set_target p) k) (set_fixed p) /\ st' = st.
Proof.
  unfold handleSet_set. intros H.
  apply bind_ok_inv in H. destruct H as (tk & s1 & Hk & H).
  apply introspect_ok in Hk. destruct Hk as [Hk ->].
  destruct (String.eqb ("Set<" ++ tk ++ ">") (set_fixed p)) eqn:E; cbn [negb] in H.
  - unfold ret in H. exists tk.
    split; [ exact Hk | split; [ apply String.eqb_eq; exact E | split; congruence ] ].
  - apply bind_ok_inv in H. destruct H as (t1 & s3 & _ & H).
    apply bind_ok_inv in H. destruct H as (t2 & s4 & _ & H). discriminate H.
Qed.

(** X21. What [_Set] does.  A non-empty set all of whose members have
    the descriptor [T] (other than "?") is wrapped with the fixed type
    "Set<T>", and nothing is recorded.  Every refusal (a value that is not
    a set, the empty set, a set in which two members differ in their
    descriptors) ends in a [ReferenceError] and not in the [ArgTypeError]
    the constructor means to throw: the message reads an [m] that does not
    exist. *)
Theorem Set_constructor :
  (forall s T st,
     s <> [] -> Forall (fun x => has_descriptor x T) s -> T <> "?" ->
     _Set (VSet s) st = (Ok (SetProxied (mkSetProxy s ("Set<" ++ T ++ ">"))), st))
  /\
  (forall v st,
     toTypeTag v <> "Set" -> _Set v st = (Ok (SetReferenceError "m"), st))
  /\
  (forall st, _Set (VSet []) st = (Ok (SetReferenceError "m"), st))
  /\
  (forall s ts a b st,
     Forall2 has_descriptor s ts -> In a ts -> In b ts -> a <> b ->
     _Set (VSet s) st = (Ok (SetReferenceError "m"), st)).
Proof.
  split; [ | split; [ | split ] ].
  - intros s T st Hne H HT. unfold _Set. cbn [GUARDED].
    replace (toTypeTag (VSet s)) with "Set" by reflexivity.
    cbn [String.eqb Ascii.eqb Bool.eqb negb].
    rewrite (bind_ok _ _ _ _ _ (homogeneous_set s T Hne H st)).
    destruct (String.eqb ("Set<" ++ T ++ ">") "Set<?>") eqn:E; [ | reflexivity ].
    apply String.eqb_eq in E. destruct (HT (set_descriptor_inj T "?" E)).
  - intros v st Hv. unfold _Set. cbn [GUARDED].
    apply String.eqb_neq in Hv. rewrite Hv. reflexivity.
  - intros st. reflexivity.
  - intros s ts a b st H Ha Hb Hab. unfold _Set. cbn [GUARDED].
    replace (toTypeTag (VSet s)) with "Set" by reflexivity.
    cbn [String.eqb Ascii.eqb Bool.eqb negb].
    rewrite (bind_ok _ _ st "Set<?>" st).
    + reflexivity.
    + rewrite (introspectSet_run s ts st H).
      rewrite (descriptor_set_mixed ts a b Ha Hb Hab). reflexivity.
Qed.

(** X22. The "set" method of the set proxy keeps the set homogeneous, for
    a primitive value.  Over a set all of whose members have the
    descriptor [T] and with the fixed type "Set<T>": a member the proxy
    accepts through [set] has the descriptor [T], state and fixed type stay
    as they are, and afterwards all members still have the descriptor [T],
    which makes "Set<T>" the descriptor of the set; a value of the
    descriptor [T] is always accepted and is in the set once ([s.add(k)]),
    and a value of another descriptor is refused with an
    [ArgTypeError]. *)
Theorem set_proxy_stays_homogeneous p T k st :
  primitive k = true ->
  set_fixed p = ("Set<" ++ T ++ ">")%string ->
  Forall (fun x => has_descriptor x T) (set_target p) ->
  (forall p' st',
     handleSet_set p k st = (Ok p', st') ->
     st' = st /\ set_fixed p' = set_fixed p /\ has_descriptor k T /\
     Forall (fun x => has_descriptor x T) (set_target p') /\
     has_descriptor (VSet (set_target p')) (set_fixed p))
  /\
  (has_descriptor k T ->
   handleSet_set p k st
   = (Ok (mkSetProxy (set_insert (set_target p) k) (set_fixed p)), st))
  /\
  (forall U,
     has_descriptor k U -> U <> T -> set_target p <> [] ->
     exists msg, handleSet_set p k st = (Throw (mkError ArgTypeError msg), st)).
Proof.
  intros _ Hfix Hall. split; [ | split ].
  - intros p' st' H.
    destruct (handleSet_set_ok_inv p k st p' st' H) as (tk & Hk & Ht & -> & ->).
    cbn [set_fixed set_target].
    rewrite Hfix in Ht. apply set_descriptor_inj in Ht. subst tk.
    pose proof (set_insert_described _ k T Hall Hk) as Hall'.
    split; [ reflexivity | split; [ reflexivity | split; [ exact Hk | ] ] ].
    split; [ exact Hall' | ].
    rewrite Hfix. apply homogeneous_set; [ apply set_insert_nonempty | exact Hall' ].
  - intros Hk. unfold handleSet_set. rewrite (bind_ok _ _ _ _ _ (Hk st)).
    rewrite Hfix. rewrite String.eqb_refl. reflexivity.
  - intros U Hk Hne Hs. unfold handleSet_set. rewrite (bind_ok _ _ _ _ _ (Hk st)).
    assert (E : String.eqb ("Set<" ++ U ++ ">") (set_fixed p) = false).
    { apply String.eqb_neq. rewrite Hfix. intros E. apply Hne.
      exact (set_descriptor_inj U T E). }
    rewrite E. cbn [negb].
    rewrite (bind_ok _ _ _ _ _ (homogeneous_set _ T Hs Hall st)).
    rewrite (bind_ok _ _ _ _ _ (Hk st)). eexists. reflexivity.
Qed.

(** X23. [add] goes past the check.  The trap of the set proxy checks the
    method "set", which a [Set] does not have, and hands out every other
    method bound to the set: through [add] a value of another descriptor
    enters a homogeneous set, the very value [set] refuses, and the set
    behind the unchanged fixed type "Set<T>" is a "Set<?>" from then
    on. *)
Theorem set_proxy_add_unchecked p T k U st :
  set_fixed p = ("Set<" ++ T ++ ">")%string ->
  set_target p <> [] ->
  Forall (fun x => has_descriptor x T) (set_target p) ->
  has_descriptor k U ->
  U <> T ->
  (exists msg, handleSet_set p k st = (Throw (mkError ArgTypeError msg), st))
  /\ set_target (handleSet_add p k) = (set_target p ++ [k])%list
  /\ set_fixed (handleSet_add p k) = set_fixed p
  /\ has_descriptor (VSet (set_target (handleSet_add p k))) "Set<?>".
Proof.
  intros Hfix Hne Hall Hk HU.
  assert (Hins : set_insert (set_target p) k = (set_target p ++ [k])%list)
    by exact (set_insert_fresh _ k T U Hall Hk HU).
  split; [ | split; [ | split ] ].
  - unfold handleSet_set. rewrite (bind_ok _ _ _ _ _ (Hk st)).
    assert (E : String.eqb ("Set<" ++ U ++ ">") (set_fixed p) = false).
    { apply String.eqb_neq. rewrite Hfix. intros E. apply HU.
      exact (set_descriptor_inj U T E). }
    rewrite E. cbn [negb].
    rewrite (bind_ok _ _ _ _ _ (homogeneous_set _ T Hne Hall st)).
    rewrite (bind_ok _ _ _ _ _ (Hk st)). eexists. reflexivity.
  - exact Hins.
  - reflexivity.
  - unfold handleSet_add. cbn [set_target]. rewrite Hins. intros s.
    rewrite (introspectSet_run _ (repeat T (length (set_target p)) ++ [U]) s).
    + rewrite (descriptor_set_mixed _ T U); [ reflexivity | | | congruence ].
      * apply in_or_app. left. destruct (set_target p); [ congruence | left; reflexivity ].
      * apply in_or_app. right. left. reflexivity.
    + apply Forall2_app; [ apply Forall2_repeat; exact Hall | ].
      constructor; [ exact Hk | constructor ].
Qed.

(** *** The sum type guard *)

Lemma existsb_eqb_In x s : existsb (String.eqb x) s = true <-> In x s.
Proof.
  rewrite existsb_exists. split.
  - intros (y & Hy & E). apply String.eqb_eq in E. subst. exact Hy.
  - intros H. exists x. split; [ exact H | apply String.eqb_refl ].
Qed.

Lemma filter_filter {A} (f g : A -> bool) l :
  filter f (filter g l) = filter (fun x => g x && f x) l.
Proof.
  induction l as [ | a l IH ]; simpl; [ reflexivity | ].
  destruct (g a); simpl; [ destruct (f a) | ]; rewrite IH; reflexivity.
Qed.

Lemma filter_all {A} (f : A -> bool) l :
  (forall x, In x l -> f x = true) -> filter f l = l.
Proof.
  induction l as [ | a l IH ]; intros H; simpl; [ reflexivity | ].
  rewrite (H a (or_introl eq_refl)). f_equal. apply IH. intros x Hx. apply H. right. exact Hx.
Qed.

Lemma filter_none {A} (f : A -> bool) l :
  (forall x, In x l -> f x = false) -> filter f l = [].
Proof.
  induction l as [ | a l IH ]; intros H; simpl; [ reflexivity | ].
  rewrite (H a (or_introl eq_refl)). apply IH. intros x Hx. apply H. right. exact Hx.
Qed.

Lemma set_delete_In s x y : In y (set_delete s x) <-> In y s /\ y <> x.
Proof.
  unfold set_delete. rewrite filter_In. rewrite negb_true_iff.
  rewrite String.eqb_neq. reflexivity.
Qed.

(** When every tag is among the keys, [tags.forEach] takes the tags out of
    the set one by one. *)
Lemma sum_tags_accepted name all_tags tags : forall s st,
  NoDup tags -> incl tags s ->
  reduceM (sum_check_tag name all_tags) tags s st
  = (Ok (filter (fun k => negb (existsb (String.eqb k) tags)) s), st).
Proof.
  induction tags as [ | tag tags IH ]; intros s st Hnd Hin.
  - simpl. rewrite filter_all by reflexivity. reflexivity.
  - cbn [reduceM]. inversion Hnd as [ | ? ? Hnotin Hnd' ]; subst.
    rewrite (bind_ok _ _ st (set_delete s tag) st).
    + rewrite IH.
      * unfold set_delete. rewrite filter_filter. do 2 f_equal.
        apply filter_ext. intros k. cbn [existsb]. now rewrite negb_orb.
      * exact Hnd'.
      * intros t Ht. apply set_delete_In. split.
        -- apply Hin. right. exact Ht.
        -- intros ->. exact (Hnotin Ht).
    + unfold sum_check_tag.
      rewrite (proj2 (existsb_eqb_In tag s) (Hin tag (or_introl eq_refl))).
      reflexivity.
Qed.



Lemma object_tag_inv x :
  toTypeTag x = "Object" -> exists tag sig nc props, x = VObject tag sig nc props.
Proof.
  destruct x; try discriminate. intros _. eexists _, _, _, _. reflexivity.
Qed.

Lemma dollar_sum_checks_pass name f tags cases st :
  toTypeTag cases = "Object" ->
  NoDup tags ->
  (forall k, In k tags <-> In k (object_keys cases)) ->
  dollar_sum name f tags cases st
  = (r <- Call f [cases] ;;
     match r with
     | VFunction _ => dollar (VString ("run" ++ name)) r
     | _ => ret r
     end) st.
Proof.
  intros Htag Hnd Hkeys. unfold dollar_sum. cbn [GUARDED]. rewrite Htag.
  cbn [String.eqb Ascii.eqb Bool.eqb negb].
  rewrite (bind_ok _ _ _ _ _
             (sum_tags_accepted name tags tags
                (fold_left set_add (object_keys cases) []) st Hnd
                ltac:(intros k Hk; apply fold_set_add_In; right; apply Hkeys; exact Hk))).
  rewrite filter_none; [ reflexivity | ].
  intros k Hk. apply fold_set_add_In in Hk. destruct Hk as [ [] | Hk ].
  apply negb_false_iff. apply existsb_eqb_In. apply Hkeys. exact Hk.
Qed.

(** X24. The sum type guard lets a complete case analysis through.  When
    the keys of [cases], an object, are exactly the tags (each tag listed
    once), the guard calls the function on [cases] and leaves no trace of
    its own: a result that is not a function is handed back as it is,
    without any check of its type, a function comes back behind a guard
    named "run" followed by the name, in fixed mode, and an exception
    passes through. *)
Theorem sum_guard_exhaustive name f tags cases st :
  toTypeTag cases = "Object" ->
  NoDup tags ->
  (forall k, In k tags <-> In k (object_keys cases)) ->
  (forall r st1,
     Call f [cases] st = (Ok r, st1) -> typeof r <> TFunction ->
     dollar_sum name f tags cases st = (Ok r, st1))
  /\
  (forall rf st1,
     Call f [cases] st = (Ok (VFunction rf), st1) ->
     dollar_sum name f tags cases st
     = (Ok (VFunction (Guarded ("run" ++ name) [] Fix 0 rf)), st1))
  /\
  (forall e st1,
     Call f [cases] st = (Throw e, st1) ->
     dollar_sum name f tags cases st = (Throw e, st1)).
Proof.
  intros Htag Hnd Hkeys.
  rewrite (dollar_sum_checks_pass name f tags cases st Htag Hnd Hkeys).
  split; [ | split ].
  - intros r st1 Hc Hnf. rewrite (bind_ok _ _ _ _ _ Hc).
    destruct r; try reflexivity. exfalso. apply Hnf. reflexivity.
  - intros rf st1 Hc. rewrite (bind_ok _ _ _ _ _ Hc).
    unfold dollar. cbn [GUARDED].
    replace (startsWith "..." ("run" ++ name)) with false by reflexivity.
    reflexivity.
  - intros e st1 Hc. apply bind_throw. exact Hc.
Qed.


(** *** More on [$] and on [introspect] *)

(** X26. [introspect] answers for every value free of records and of
    ordinary objects that carry a container tag without a [SIG]:
    primitives, functions, arrays, tuples, maps, sets and objects built
    from such values all have a descriptor, the same in every state. *)
Theorem introspect_answers_on_plain_values x :
  plain x = true -> exists t, has_descriptor x t.
Proof.
  intros H. destruct (introspect_total_on_plain x H) as [t Ht].
  exists t. exact Ht.
Qed.

(** X27. Guards nest.  A guard around a guarded function runs both sets
    of checks around one call of the function and hands back its result;
    each guard leaves its record, the inner one first, so that the record
    of the outer guard is in front of the history. *)
Theorem nested_guards n1 l1 p1 c1 n2 l2 p2 c2 f args st r st1 :
  arity_respected p1 (func_length f) (length args) ->
  arity_respected p2 (func_length f) (length args) ->
  Forall valid_value args ->
  Call f args st = (Ok r, st1) ->
  typeof r <> TFunction ->
  valid_value r ->
  Call (Guarded n1 l1 p1 c1 (Guarded n2 l2 p2 c2 f)) args st
  = (Ok r,
     push (concat_record l1 n1 (arg_types_text args))
       (push (concat_record l2 n2 (arg_types_text args)) st1)).
Proof.
  intros Ha1 Ha2 Hargs Hc Hnf Hr.
  change (Call (Guarded n1 l1 p1 c1 (Guarded n2 l2 p2 c2 f)) args st)
    with (handleF_apply (Call (Guarded n2 l2 p2 c2 f)) (func_length f)
            n1 l1 p1 c1 args st).
  apply handleF_apply_completes; try assumption.
  change (Call (Guarded n2 l2 p2 c2 f) args st)
    with (handleF_apply (Call f) (func_length f) n2 l2 p2 c2 args st).
  apply handleF_apply_completes; assumption.
Qed.

Lemma substring_all s : substring 0 (String.length s) s = s.
Proof.
  rewrite <- (string_append_nil s) at 2. apply substring_prefix.
Qed.

Lemma slice_from_dots m : slice_from ("..." ++ m) 3 = m.
Proof.
  unfold slice_from, slice. cbn [append String.length].
  set (n := String.length m).
  change (3 <? 0)%Z with false. cbv iota.
  destruct (Z.ltb_spec (Z.of_nat (S (S (S n)))) 0) as [ L | _ ]; [ lia | ].
  rewrite !Z.min_l by lia.
  replace (Z.to_nat 3) with 3 by reflexivity.
  replace (Z.to_nat (Z.of_nat (S (S (S n))) - 3)) with n by lia.
  cbn [substring]. apply substring_all.
Qed.

Lemma startsWith_dots m : startsWith "..." ("..." ++ m) = true.
Proof.
  unfold startsWith. cbn [append prefix].
  destruct (ascii_dec "." ".") as [ _ | N ]; [ | congruence ].
  destruct m; reflexivity.
Qed.

(** X28. What [$] builds.  Around a function and under a name that
    starts with "..." it builds a variadic guard whose name is the rest of
    the text; under any other text a guard in fixed mode with that name;
    both start with an empty call log at call 0, and nothing is recorded.
    A second argument that is not a function, and a first that is not a
    text, are refused with an [ArgTypeError]. *)
Theorem dollar_builds :
  (forall m f st,
     dollar (VString ("..." ++ m)) (VFunction f) st
     = (Ok (VFunction (Guarded m [] Var 0 f)), st))
  /\
  (forall n f st,
     startsWith "..." n = false ->
     dollar (VString n) (VFunction f) st = (Ok (VFunction (Guarded n [] Fix 0 f)), st))
  /\
  (forall n x t st,
     typeof x <> TFunction -> has_descriptor x t ->
     exists msg, dollar (VString n) x st = (Throw (mkError ArgTypeError msg), st))
  /\
  (forall x y t st,
     typeof x <> TString -> has_descriptor x t ->
     exists msg, dollar x y st = (Throw (mkError ArgTypeError msg), st)).
Proof.
  split; [ | split; [ | split ] ].
  - intros m f st. unfold dollar. cbn [GUARDED].
    rewrite startsWith_dots. rewrite slice_from_dots. reflexivity.
  - intros n f st H. unfold dollar. cbn [GUARDED]. rewrite H. reflexivity.
  - intros n x t st Hx Ht. unfold dollar. cbn [GUARDED].
    destruct x; try (rewrite (bind_ok _ _ _ _ _ (Ht st)); eexists; reflexivity).
    exfalso. apply Hx. reflexivity.
  - intros x y t st Hx Ht. unfold dollar. cbn [GUARDED].
    destruct x; try (rewrite (bind_ok _ _ _ _ _ (Ht st)); eexists; reflexivity).
    exfalso. apply Hx. reflexivity.
Qed.

Lemma mapiM_first_throw name nthCall log pre x post e :
  Forall valid_value pre ->
  (forall st, introspect x st = (Throw e, st)) ->
  forall i st,
    mapiM (check_argument name nthCall log) (pre ++ x :: post) i st = (Throw e, st).
Proof.
  intros Hpre Hx. induction Hpre as [ | a pre Ha _ IH ]; intros i st.
  - cbn [app mapiM]. apply bind_throw. unfold check_argument.
    apply bind_throw. apply Hx.
  - cbn [app mapiM].
    rewrite (bind_ok _ _ _ _ _ (check_argument_valid name nthCall log a i st Ha)).
    apply bind_throw. apply IH.
Qed.

(** X29. An ordinary object that only carries the tag of a map or of a
    set, and that has no function under "forEach", has no descriptor:
    [introspect] calls its [forEach] and throws a [TypeError].  A guarded
    function that receives such an object, after arguments that are all
    valid, ends in that [TypeError] as well: its function is not called
    and nothing is recorded. *)
Theorem spoofed_container_has_no_descriptor nc o st :
  typeof (get_prop o "forEach") <> TFunction ->
  introspect (VObject "Map" None nc o) st
  = (Throw (mkError TypeError "m.forEach is not a function"), st)
  /\
  introspect (VObject "Set" None nc o) st
  = (Throw (mkError TypeError "s.forEach is not a function"), st)
  /\
  (forall f g_length name log p nthCall pre post tag,
     tag = "Map" \/ tag = "Set" ->
     arity_respected p g_length (length (pre ++ VObject tag None nc o :: post)) ->
     Forall valid_value pre ->
     exists msg,
       handleF_apply f g_length name log p nthCall
         (pre ++ VObject tag None nc o :: post) st
       = (Throw (mkError TypeError msg), st)).
Proof.
  intros _. split; [ reflexivity | split; [ reflexivity | ] ].
  intros f g_length name log p nthCall pre post tag Htag Ha Hpre.
  unfold handleF_apply.
  rewrite (bind_ok _ _ _ _ _ (verifyArity_ok _ _ name _ nthCall log st Ha)).
  destruct Htag as [ -> | -> ]; eexists; apply bind_throw; unfold verifyArgTypes;
    apply bind_throw; apply mapiM_first_throw; try exact Hpre;
    intros s; reflexivity.
Qed.

End Scriptum.

(** ** The properties at sample inputs *)

Lemma number_described z : has_descriptor no_numbers (VNumber (Finite z)) "Number".
Proof. intros st. reflexivity. Qed.

Lemma number_valid z : valid_value no_numbers (VNumber (Finite z)).
Proof. exists "Number". split; [ apply number_described | reflexivity ]. Qed.

Lemma text_described s : has_descriptor no_numbers (VString s) "String".
Proof. intros st. reflexivity. Qed.

(** C1 at [add(1, 2)]. *)
Lemma guard_transparency_witness :
  Call no_numbers sample_run (Guarded "add" [] Fix 0 add_fn) [one; two] st_empty
  = (Ok (VNumber (Finite 3)),
     push (concat_record [] "add" (arg_types_text [one; two])) st_empty).
Proof.
  apply (guard_transparency no_numbers sample_run "add" add_fn
           (Guarded "add" [] Fix 0 add_fn) st_empty st_empty
           [one; two] st_empty (VNumber (Finite 3)) st_empty).
  - reflexivity.
  - reflexivity.
  - reflexivity.
  - repeat constructor; apply number_valid.
  - reflexivity.
  - discriminate.
  - apply number_valid.
Defined.


(** C3 at a function of two parameters called with one and with two
    arguments. *)
Lemma arity_checking_witness :
  verifyArity 2 [one; two] "f" Fix 0 [] st_empty = (Ok tt, st_empty)
  /\
  (exists msg, forall f,
      handleF_apply no_numbers f 2 "f" [] Fix 0 [one] st_empty
      = (Throw (mkError ArityError msg), push ["ordinal()"] st_empty)).
Proof.
  split.
  - apply (proj1 (arity_checking no_numbers 2 "f" [] Fix 0 [one; two] st_empty)).
    reflexivity.
  - apply (proj2 (arity_checking no_numbers 2 "f" [] Fix 0 [one] st_empty)).
    simpl. lia.
Defined.

(** C5 at [[1, 2]], at nine elements of two kinds and at [[1, "a"]]. *)
Lemma array_descriptor_collapse_witness :
  has_descriptor no_numbers (VArray [one; two]) "[Number]"
  /\
  has_descriptor no_numbers
    (VArray [one; one; one; one; one; one; one; one; VString "a"]) "[?]"
  /\
  has_descriptor no_numbers (VArray [one; VString "a"]) "[Number, String]".
Proof.
  destruct (array_descriptor_collapse no_numbers) as (H1 & H2 & H3).
  split; [ | split ].
  - apply (H1 [one; two] "Number").
    + discriminate.
    + repeat (apply Forall_cons; [ apply number_described | ]). constructor.
  - apply (H2 [one; one; one; one; one; one; one; one; VString "a"]
              ["Number"; "Number"; "Number"; "Number"; "Number"; "Number";
               "Number"; "Number"; "String"] "Number" "String").
    + repeat (apply Forall2_cons; [ intros st; reflexivity | ]). constructor.
    + simpl. lia.
    + simpl. auto.
    + simpl. auto 10.
    + discriminate.
  - apply (H3 [one; VString "a"] ["Number"; "String"] "Number" "String").
    + repeat (apply Forall2_cons; [ intros st; reflexivity | ]). constructor.
    + simpl. lia.
    + simpl. auto.
    + simpl. auto.
    + discriminate.
Defined.



(** C7 at the first call of a curried [add]: the continuation guards the
    function that was returned, under the name "add" and with the call log
    ["add()"], and nothing is recorded. *)
Lemma curried_continuation_witness :
  (exists target,
      handleF_apply no_numbers (sample_run 2) 1 "add" [] Fix 0 [one] st_empty
      = (Ok (VFunction (Guarded "add" ["add()"] Fix 1 target)), st_empty) /\
      target = Raw (mkRaw "add" 1 "y => x + y" 0 (Some ["add()"])) /\
      func_length target = 1 /\
      (forall args' s,
          Call no_numbers sample_run target args' s
          = Call no_numbers sample_run inner_fn args' s))
  /\
  (exists r st1,
      sample_run 2 [one] st_empty = (Ok r, st1) /\
      typeof r = TFunction /\ st_empty = st1).
Proof.
  destruct (curried_continuation no_numbers sample_run (sample_run 2) 1 "add" [] Fix 0
              [one] st_empty) as [H1 H2].
  split.
  - apply (H1 inner_fn st_empty).
    + reflexivity.
    + repeat constructor. apply number_valid.
    + reflexivity.
  - destruct (H2 (VFunction
                   (Guarded "add" ["add()"] Fix 1
                      (Raw (mkRaw "add" 1 "y => x + y" 0 (Some ["add()"])))))
                st_empty eq_refl)
      as (r & st1 & Hf & [ (rf & tg & -> & <- & _) | (Hty & Hv & _) ]).
    + exists (VFunction rf), st_empty. split; [ exact Hf | split; reflexivity ].
    + exfalso. apply Hty. rewrite <- Hv. reflexivity.
Defined.

(** C8 at a history of ten records that takes an eleventh, and at twelve
    records put into the empty history. *)
Lemma history_ring_buffer_witness :
  history (push ["f11()"] (pushes (sample_records 10) st_empty))
  = [ ["f11()"]; ["f10()"]; ["f9()"]; ["f8()"]; ["f7()"]; ["f6()"]; ["f5()"];
      ["f4()"]; ["f3()"]; ["f2()"] ]
  /\
  history (pushes (sample_records 12) st_empty)
  = [ ["f12()"]; ["f11()"]; ["f10()"]; ["f9()"]; ["f8()"]; ["f7()"]; ["f6()"];
      ["f5()"]; ["f4()"]; ["f3()"] ]
  /\
  length (history (pushes (sample_records 12) st_empty)) <= 10.
Proof.
  destruct (history_ring_buffer no_numbers) as (_ & _ & _ & H4 & H5 & H6 & _).
  split; [ | split ].
  - apply (H4 ["f11()"] (pushes (sample_records 10) st_empty)). reflexivity.
  - apply (H5 (sample_records 12)).
  - apply (H6 (sample_records 12)).
Defined.

Lemma number_proxy_over_array : proxy_over_array no_numbers number_proxy.
Proof.
  unfold proxy_over_array.
  repeat constructor; exists "Number"; apply number_described.
Qed.

(** C9, as amended, at the proxy of [[1, 1, 1]]: [p[3] = 1] is accepted,
    [p[1] = "x"] and [p[5] = 1] are refused with a [TypeError]. *)
Lemma array_proxy_mutation_witness :
  (exists p',
      handleArr_set no_numbers number_proxy 3 one st_empty = (Ok p', st_empty) /\
      fixed p' = "[Number]" /\
      handleArr_get p' 3 = one /\
      target p' = [one; one; one; one])
  /\
  (exists msg,
      handleArr_set no_numbers number_proxy 1 (VString "x") st_empty
      = (Throw (mkError TypeError msg), st_empty))
  /\
  (exists msg,
      handleArr_set no_numbers number_proxy 5 one st_empty
      = (Throw (mkError TypeError msg), push ["ordinal()"] st_empty)).
Proof.
  split; [ | split ].
  - destruct (array_proxy_mutation no_numbers number_proxy 3 st_empty
                number_proxy_over_array) as (H & _).
    destruct (H one "Number" (number_described 1)) as (p' & E1 & E2 & E3 & E4 & _).
    + simpl. lia.
    + reflexivity.
    + exists p'. repeat split; assumption.
  - destruct (array_proxy_mutation no_numbers number_proxy 1 st_empty
                number_proxy_over_array) as (_ & H & _).
    apply (H (VString "x") "String" (text_described "x")).
    + simpl. lia.
    + discriminate.
  - destruct (array_proxy_mutation no_numbers number_proxy 5 st_empty
                number_proxy_over_array) as (_ & _ & H & _).
    apply (H one). simpl. lia.
Defined.

(** C10, as amended, at [p[0] = 1] through the proxy of the empty array. *)
Lemma empty_array_proxy_witness :
  exists e st2,
    handleArr_set no_numbers empty_proxy 0 one st_empty = (Throw e, st2).
Proof.
  apply (proj2 (empty_array_proxy no_numbers) empty_proxy 0 one st_empty).
  - reflexivity.
  - intros st1 H. discriminate H.
Defined.

(** ** The further properties at sample inputs *)

Lemma guarded_call_sound_witness :
  Call no_numbers sample_run (Guarded "add" [] Fix 0 add_fn) [one; two] st_empty
  = (Ok (VNumber (Finite 3)), push ["add(, )"] st_empty)
  /\ valid_value no_numbers (VNumber (Finite 3)).
Proof.
  split; [ reflexivity | ].
  apply (guarded_call_sound no_numbers sample_run "add" [] Fix 0 add_fn
           [one; two] st_empty (VNumber (Finite 3)) (push ["add(, )"] st_empty)).
  reflexivity.
Defined.

Lemma curried_chain_witness :
  exists w,
    handleF_apply no_numbers (fun _ => ret (VFunction dispatcher_fn)) 1 "tag" [] Fix 0
      [one] st_empty
    = (Ok (VFunction w), st_empty) /\
    Call no_numbers sample_run w [two] st_empty
    = (Ok (VString "Number"), push ["tag()"; "dispatcher()"] st_empty).
Proof.
  apply (curried_chain no_numbers sample_run (fun _ => ret (VFunction dispatcher_fn))
           1 "tag" [] Fix 0 [one] [two] st_empty dispatcher_fn st_empty
           (VString "Number") st_empty).
  - reflexivity.
  - repeat (apply Forall_cons; [ apply number_valid | ]). constructor.
  - reflexivity.
  - reflexivity.
  - repeat (apply Forall_cons; [ apply number_valid | ]). constructor.
  - reflexivity.
  - discriminate.
  - exists "String". split; [ intros st; reflexivity | reflexivity ].
Defined.

Lemma call_record_lists_no_types_witness :
  (exists st1,
     Call no_numbers sample_run add_fn [one; two] st_empty = (Ok (VNumber (Finite 3)), st1) /\
     push ["add(, )"] st_empty = push ["add(, )"] st1)
  /\
  (exists name_ target,
     Guarded "add" ["add()"] Fix 1 (Raw (mkRaw "add" 1 "y => x + y" 0 (Some ["add()"])))
     = Guarded name_ ["add()"] Fix 1 target).
Proof.
  split.
  - apply (proj1 (call_record_lists_no_types no_numbers
                    (Call no_numbers sample_run add_fn) 2 "add" [] Fix 0 [one; two]
                    st_empty (VNumber (Finite 3)) (push ["add(, )"] st_empty) eq_refl)).
    discriminate.
  - apply (proj2 (call_record_lists_no_types no_numbers
                    (Call no_numbers sample_run curried_fn) 1 "add" [] Fix 0 [one]
                    st_empty
                    (VFunction
                       (Guarded "add" ["add()"] Fix 1
                          (Raw (mkRaw "add" 1 "y => x + y" 0 (Some ["add()"])))))
                    st_empty eq_refl)).
    reflexivity.
Defined.


Lemma ordinal_text_english_witness :
  ordinal_text 112 = "112th" /\ ordinal_text 23 = "23rd" /\ ordinal_text (-1) = "-1th".
Proof.
  split; [ | split ].
  - apply (proj1 (ordinal_text_english 112)). lia.
  - apply (proj1 (ordinal_text_english 23)). lia.
  - apply (proj2 (ordinal_text_english (-1))). lia.
Defined.


Lemma Arr_on_simple_elements_witness :
  Arr no_numbers (VArray [one; two]) st_empty
  = (Ok (Proxied (mkProxy [one; two] "[Number]")),
     push ["replaceNestings()"] st_empty)
  /\
  exists msg,
    Arr no_numbers (VArray [one; VString "a"]) st_empty
    = (Throw (mkError ArgTypeError msg), push ["replaceNestings()"] st_empty).
Proof.
  split.
  - apply (proj1 (Arr_on_simple_elements no_numbers [one; two] ["Number"; "Number"]
                    st_empty
                    (Forall2_cons _ _ (number_described 1)
                       (Forall2_cons _ _ (number_described 2) (Forall2_nil _)))
                    ltac:(repeat constructor))).
    intros a b [ <- | [ <- | [] ] ] [ <- | [ <- | [] ] ]; reflexivity.
  - apply (proj2 (Arr_on_simple_elements no_numbers [one; VString "a"]
                    ["Number"; "String"] st_empty
                    (Forall2_cons _ _ (number_described 1)
                       (Forall2_cons _ _ (text_described "a") (Forall2_nil _)))
                    ltac:(repeat constructor))
             "Number" "String").
    + left. reflexivity.
    + right. left. reflexivity.
    + discriminate.
Defined.

Lemma array_proxy_stays_homogeneous_witness :
  handleArr_set no_numbers number_proxy 3 two st_empty
  = (Ok (mkProxy [one; one; one; two] "[Number]"), st_empty)
  /\
  Forall (fun x => has_descriptor no_numbers x "Number") [one; one; one; two]
  /\
  has_descriptor no_numbers (VArray [one; one; one; two]) "[Number]".
Proof.
  split; [ reflexivity | ].
  destruct (array_proxy_stays_homogeneous no_numbers number_proxy "Number" 3 two
              st_empty (mkProxy [one; one; one; two] "[Number]") st_empty)
    as (_ & _ & _ & _ & _ & _ & Hall & Hd).
  - reflexivity.
  - repeat (apply Forall_cons; [ apply number_described | ]). constructor.
  - reflexivity.
  - split; [ exact Hall | exact Hd ].
Defined.

Lemma tuple_descriptor_positional_witness :
  has_descriptor no_numbers (VTuple [one; one]) "Tuple<Number, Number>".
Proof.
  apply (proj1 (tuple_descriptor_positional no_numbers) [one; one] ["Number"; "Number"]).
  - repeat (apply Forall2_cons; [ apply number_described | ]). constructor.
  - simpl. lia.
Defined.

Lemma record_descriptor_hides_field_types_witness :
  has_descriptor no_numbers (Rec [("a", one); ("b", VBoolean true)])
    "Record<String, String>".
Proof.
  apply (record_descriptor_hides_field_types no_numbers
           [("a", one); ("b", VBoolean true)]).
  - reflexivity.
  - repeat (apply Forall_cons; [ eexists; intros st; reflexivity | ]). constructor.
Defined.

Lemma map_and_set_descriptors_witness :
  has_descriptor no_numbers (VMap [(VString "a", one); (VString "b", two)])
    "Map<String, Number>"
  /\ has_descriptor no_numbers (VSet [one; VString "a"]) "Set<?>".
Proof.
  split.
  - apply (proj1 (map_and_set_descriptors no_numbers)
             [(VString "a", one); (VString "b", two)] "String" "Number").
    + discriminate.
    + repeat (apply Forall_cons;
              [ split; [ apply text_described | apply number_described ] | ]).
      constructor.
  - apply (proj2 (proj2 (proj2 (proj2 (proj2 (map_and_set_descriptors no_numbers)))))
             [one; VString "a"] ["Number"; "String"] "Number" "String").
    + apply Forall2_cons; [ apply number_described | ].
      apply Forall2_cons; [ apply text_described | constructor ].
    + left. reflexivity.
    + right. left. reflexivity.
    + discriminate.
Defined.

Lemma object_descriptor_shapes_witness :
  has_descriptor no_numbers (Obj [("a", one)]) "{String: Number}"
  /\ has_descriptor no_numbers (Obj [("a", one); ("b", two)]) "{a: Number, b: Number}".
Proof.
  split.
  - apply (proj1 (proj2 (object_descriptor_shapes no_numbers)) "a" one "Number").
    + apply number_described.
    + reflexivity.
    + reflexivity.
  - apply (proj1 (proj2 (proj2 (object_descriptor_shapes no_numbers))
                    "a" one "b" two [] "Number" "Number" []
                    ltac:(repeat (apply Forall2_cons; [ apply number_described | ]);
                          constructor)
                    eq_refl eq_refl ltac:(discriminate))).
    simpl. lia.
Defined.

Lemma tagged_object_descriptor_witness :
  toTypeTag (VObject "Async Function" None None []) = "Function"
  /\ has_descriptor no_numbers (VObject "Option" (Some "Option<Number>") None []) "Option<Number>"
  /\ has_descriptor no_numbers (Sum (Finite 1)) "Sum".
Proof.
  split; [ | split ].
  - apply (proj1 (proj2 (tagged_object_descriptor no_numbers)) "Async" "Function").
    reflexivity.
  - apply (proj1 (proj2 (proj2 (tagged_object_descriptor no_numbers))) "Option").
    + reflexivity.
    + discriminate.
  - apply (proj2 (proj2 (proj2 (tagged_object_descriptor no_numbers))) "Sum").
    + reflexivity.
    + simpl. intros H.
      repeat (destruct H as [ H | H ]; [ discriminate H | ]). exact H.
Defined.

Lemma overload_registration_is_local_witness :
  overloadAdd no_numbers show_op [VString "String"; VString "a text"] st_registered
  = (Ok (VMap [(VString "Number", VString "a number"); (VString "String", VString "a text")]),
     push ["showAdd(, )"]
       (mkState [] [[(VString "Number", VString "a number");
                     (VString "String", VString "a text")]]))
  /\
  pairs_get show_op (VString "Number")
    (push ["showAdd(, )"]
       (mkState [] [[(VString "Number", VString "a number");
                     (VString "String", VString "a text")]]))
  = (Ok (VString "a number"),
     push ["showAdd(, )"]
       (mkState [] [[(VString "Number", VString "a number");
                     (VString "String", VString "a text")]])).
Proof.
  split; [ reflexivity | ].
  apply (proj1 (overload_registration_is_local no_numbers show_op
                  (VString "String") (VString "a text") st_registered
                  (VMap [(VString "Number", VString "a number");
                         (VString "String", VString "a text")])
                  (push ["showAdd(, )"]
                     (mkState [] [[(VString "Number", VString "a number");
                                   (VString "String", VString "a text")]]))
                  eq_refl)
           (VString "Number")).
  - reflexivity.
  - reflexivity.
Defined.

Lemma overload_registration_refused_witness :
  exists msg st',
    overloadAdd no_numbers show_op [VString "Number"; VUndefined] st_show
    = (Throw (mkError ArgTypeError msg), st') /\
    maps st' = maps st_show.
Proof.
  apply (overload_registration_refused no_numbers show_op
           (VString "Number") VUndefined "Undefined" st_show).
  right. split; [ | split ].
  - exists "String". split; [ intros st; reflexivity | reflexivity ].
  - intros st. reflexivity.
  - reflexivity.
Defined.

Lemma Map_constructor_witness :
  _Map no_numbers (VMap [(VString "a", one)]) st_empty
  = (Ok (MapProxied text_number_proxy), st_empty).
Proof.
  apply (proj1 (Map_constructor no_numbers) [(VString "a", one)] "String" "Number" st_empty).
  - discriminate.
  - constructor; [ | constructor ].
    split; [ apply text_described | apply number_described ].
Defined.

Lemma map_proxy_stays_homogeneous_witness :
  handleMap_set no_numbers text_number_proxy (VString "b") two st_empty
  = (Ok (mkMapProxy [(VString "a", one); (VString "b", two)] "Map<String, Number>"),
     st_empty)
  /\
  has_descriptor no_numbers (VMap [(VString "a", one); (VString "b", two)])
    "Map<String, Number>"
  /\
  handleMap_get
    (mkMapProxy [(VString "a", one); (VString "b", two)] "Map<String, Number>")
    (VString "b") = two
  /\
  handleMap_get
    (mkMapProxy [(VString "a", one); (VString "b", two)] "Map<String, Number>")
    (VString "a") = one.
Proof.
  split; [ reflexivity | ].
  destruct (map_proxy_stays_homogeneous no_numbers text_number_proxy "String, Number"
              (VString "b") two st_empty
              (mkMapProxy [(VString "a", one); (VString "b", two)] "Map<String, Number>")
              st_empty) as (_ & _ & _ & _ & Hd & Hback & Hother).
  - reflexivity.
  - reflexivity.
  - constructor; [ | constructor ].
    exists "String", "Number".
    split; [ apply text_described | split; [ apply number_described | reflexivity ] ].
  - reflexivity.
  - split; [ exact Hd | split; [ exact Hback | ] ].
    apply (Hother (VString "a")); reflexivity.
Defined.

Lemma map_proxy_set_witness :
  handleMap_set no_numbers text_number_proxy (VString "a") two st_empty
  = (Ok (mkMapProxy [(VString "a", two)] "Map<String, Number>"), st_empty)
  /\
  exists msg,
    handleMap_set no_numbers text_number_proxy one one st_empty
    = (Throw (mkError TypeError msg), st_empty).
Proof.
  split.
  - apply (proj1 (map_proxy_set no_numbers text_number_proxy (VString "a") two
                    "String" "Number" st_empty eq_refl
                    (text_described "a") (number_described 2))).
    reflexivity.
  - apply (proj2 (map_proxy_set no_numbers text_number_proxy one one "Number" "Number"
                    st_empty eq_refl (number_described 1) (number_described 1)))
      with (tm := "Map<String, Number>").
    + discriminate.
    + intros st. reflexivity.
Defined.

Lemma Set_constructor_witness :
  _Set no_numbers (VSet [one]) st_empty = (Ok (SetProxied number_set_proxy), st_empty)
  /\ _Set no_numbers (VArray []) st_empty = (Ok (SetReferenceError "m"), st_empty).
Proof.
  split.
  - apply (proj1 (Set_constructor no_numbers) [one] "Number" st_empty).
    + discriminate.
    + constructor; [ apply number_described | constructor ].
    + discriminate.
  - apply (proj1 (proj2 (Set_constructor no_numbers)) (VArray []) st_empty).
    discriminate.
Defined.

Lemma set_proxy_stays_homogeneous_witness :
  handleSet_set no_numbers number_set_proxy two st_empty
  = (Ok (mkSetProxy [one; two] "Set<Number>"), st_empty)
  /\
  handleSet_set no_numbers number_set_proxy one st_empty
  = (Ok (mkSetProxy [one] "Set<Number>"), st_empty)
  /\
  exists msg,
    handleSet_set no_numbers number_set_proxy (VString "a") st_empty
    = (Throw (mkError ArgTypeError msg), st_empty).
Proof.
  split; [ | split ].
  - apply (proj1 (proj2 (set_proxy_stays_homogeneous no_numbers number_set_proxy "Number"
                           two st_empty eq_refl eq_refl
                           ltac:(constructor; [ apply number_described | constructor ])))).
    apply number_described.
  - apply (proj1 (proj2 (set_proxy_stays_homogeneous no_numbers number_set_proxy "Number"
                           one st_empty eq_refl eq_refl
                           ltac:(constructor; [ apply number_described | constructor ])))).
    apply number_described.
  - apply (proj2 (proj2 (set_proxy_stays_homogeneous no_numbers number_set_proxy "Number"
                           (VString "a") st_empty eq_refl eq_refl
                           ltac:(constructor; [ apply number_described | constructor ])))
             "String").
    + apply text_described.
    + discriminate.
    + discriminate.
Defined.

Lemma set_proxy_add_unchecked_witness :
  has_descriptor no_numbers
    (VSet (set_target (handleSet_add number_set_proxy (VString "a")))) "Set<?>".
Proof.
  apply (set_proxy_add_unchecked no_numbers number_set_proxy "Number" (VString "a")
           "String" st_empty).
  - reflexivity.
  - discriminate.
  - constructor; [ apply number_described | constructor ].
  - apply text_described.
  - discriminate.
Defined.

Lemma sum_guard_exhaustive_witness :
  dollar_sum no_numbers sample_run "runOption" dispatcher_fn ["None"; "Some"]
    (Obj [("None", one); ("Some", two)]) st_empty
  = (Ok (VString "Object"), st_empty).
Proof.
  apply (proj1 (sum_guard_exhaustive no_numbers sample_run "runOption" dispatcher_fn
                  ["None"; "Some"] (Obj [("None", one); ("Some", two)]) st_empty
                  eq_refl
                  ltac:(repeat constructor; simpl; intuition discriminate)
                  ltac:(intros k; reflexivity))).
  - reflexivity.
  - discriminate.
Defined.


Lemma introspect_answers_on_plain_values_witness :
  exists t, has_descriptor no_numbers (VArray [one; Obj [("a", VMap [])]]) t.
Proof.
  apply (introspect_answers_on_plain_values no_numbers (VArray [one; Obj [("a", VMap [])]])).
  reflexivity.
Defined.

Lemma nested_guards_witness :
  Call no_numbers sample_run (Guarded "outer" [] Fix 0 (Guarded "inner" [] Var 0 add_fn))
    [one; two] st_empty
  = (Ok (VNumber (Finite 3)), push ["outer(, )"] (push ["inner(, )"] st_empty)).
Proof.
  apply (nested_guards no_numbers sample_run "outer" [] Fix 0 "inner" [] Var 0 add_fn
           [one; two] st_empty (VNumber (Finite 3)) st_empty).
  - reflexivity.
  - simpl. lia.
  - repeat (apply Forall_cons; [ apply number_valid | ]). constructor.
  - reflexivity.
  - discriminate.
  - apply number_valid.
Defined.

Lemma dollar_builds_witness :
  dollar no_numbers (VString "add") (VFunction add_fn) st_empty
  = (Ok (VFunction (Guarded "add" [] Fix 0 add_fn)), st_empty)
  /\
  exists msg,
    dollar no_numbers (VString "add") one st_empty
    = (Throw (mkError ArgTypeError msg), st_empty).
Proof.
  split.
  - apply (proj1 (proj2 (dollar_builds no_numbers)) "add" add_fn st_empty).
    reflexivity.
  - apply (proj1 (proj2 (proj2 (dollar_builds no_numbers))) "add" one "Number" st_empty).
    + discriminate.
    + apply number_described.
Defined.

Lemma spoofed_container_has_no_descriptor_witness :
  exists msg,
    handleF_apply no_numbers (Call no_numbers sample_run add_fn) 2 "add" [] Fix 0
      [one; VObject "Map" None None [("size", one)]] st_empty
    = (Throw (mkError TypeError msg), st_empty).
Proof.
  apply (proj2 (proj2 (spoofed_container_has_no_descriptor no_numbers None
                         [("size", one)] st_empty ltac:(discriminate)))
           (Call no_numbers sample_run add_fn) 2 "add" [] Fix 0 [one] [] "Map").
  - left. reflexivity.
  - reflexivity.
  - constructor; [ apply number_valid | constructor ].
Defined.

Lemma introspect_state_independent_witness :
  exists r rs,
    (forall st, introspect no_numbers (Rec [("n", Sum (Finite 1))]) st = (r, pushes rs st)) /\
    (forall t, r = Ok t -> rs = []) /\
    (forall st,
       maps (snd (introspect no_numbers (Rec [("n", Sum (Finite 1))]) st)) = maps st).
Proof.
  apply (introspect_state_independent no_numbers (Rec [("n", Sum (Finite 1))])).
Defined.

(** ** Where the specification and the code part *)



(** C9, as stated, fails at [Arr([1, 2, 3])] and [p[1] = "x"]: the
    assignment is refused with a [TypeError], not with an
    [ArgTypeError]. *)
Lemma array_proxy_refuses_with_TypeError :
  exists p st1,
    Arr no_numbers (VArray [one; two; VNumber (Finite 3)]) st_empty
    = (Ok (Proxied p), st1) /\
    (exists msg,
        handleArr_set no_numbers p 1 (VString "x") st1
        = (Throw (mkError TypeError msg), st1)) /\
    ~ (exists msg st2,
        handleArr_set no_numbers p 1 (VString "x") st1
        = (Throw (mkError ArgTypeError msg), st2)).
Proof.
  eexists _, _. split; [ vm_compute; reflexivity | split ].
  - eexists. vm_compute. reflexivity.
  - intros (msg & st2 & H). vm_compute in H. discriminate H.
Qed.

(** C10, as stated, fails at an object whose tag is the empty text: its
    descriptor is the empty text, and the proxy of the empty array accepts
    it at index 0. *)
Lemma empty_array_proxy_accepts_untagged :
  exists st1,
    Arr no_numbers (VArray []) st_empty = (Ok (Proxied empty_proxy), st1) /\
    has_descriptor no_numbers untagged "" /\
    handleArr_set no_numbers empty_proxy 0 untagged st1
    = (Ok (mkProxy [untagged] "[]"), st1).
Proof.
  eexists. split; [ vm_compute; reflexivity | split ].
  - intros st. reflexivity.
  - reflexivity.
Qed.
